(** * Job control and pipeline building of the two shells, [tsh.c] and [hfsh.cpp]

    The development embeds the job list routines that both shells share
    ([hfsh.cpp] carries a copy of the ones of [tsh.c]), the SIGCHLD handler,
    the foreground waiter and the token parser of [hfsh.cpp], and states the
    properties of the specification over them.

    Conventions of the embedding:
    - a C [int] or [pid_t] is a [Z]; no operation of the job list leaves the
      range of [int] in a run of feasible length, so no wrap-around is written;
    - the array [jobs[MAXJOBS]] is a [list job_t] of [MAXJOBS] entries; a
      pointer into it is the index of the entry, with the entry read through
      it, and the null pointer is [None]; reaching an entry through the null
      pointer is undefined behaviour;
    - a [for] loop that scans the array and returns at the first entry that
      passes a test is [list_find] with that test;
    - the globals that the routines read and write are gathered in [mem] and
      passed explicitly; text written with [printf] is appended to [stdout];
    - the SIGCHLD handler runs between two statements of the main flow,
      wherever the source does not block SIGCHLD: [eval] of [tsh.c] blocks it
      from before [fork] until [addjob] has returned, [do_bgfg] of [tsh.c] and
      all of [hfsh.cpp] never do. *)

From Stdlib Require Import ZArith String Ascii.
From stdpp Require Import base decidable option list relations strings pretty.

Local Open Scope string_scope.
Local Open Scope Z_scope.

(** ** Constants and data *)

(** Which of the two source files a routine is read from. *)
Inductive shell : Type := tsh | hfsh.

(** [#define MAXJOBS]: 16 in [tsh.c], 256 in [hfsh.cpp]. *)
Definition MAXJOBS (sh : shell) : Z :=
  match sh with tsh => 16 | hfsh => 256 end.

Definition UNDEF : Z := 0.
Definition FG : Z := 1.
Definition BG : Z := 2.
Definition ST : Z := 3.

(** [struct job_t]. *)
Record job_t : Type := mk_job {
  pid : Z;
  jid : Z;
  state : Z;
  cmdline : string
}.

(** The globals of a shell that the job routines touch. [verbose] exists in
    [tsh.c] only; [hfsh.cpp] never prints the trace guarded by it. *)
Record mem : Type := mk_mem {
  jobs : list job_t;
  nextjid : Z;
  verbose : bool;
  stdout : list string
}.

Definition nl : string := String (ascii_of_nat 10) EmptyString.

(** [printf] appends one piece of text to the output. *)
Definition printf (s : string) (g : mem) : mem :=
  mk_mem (jobs g) (nextjid g) (verbose g) (stdout g ++ [s])%list.

Definition set_jobs (js : list job_t) (g : mem) : mem :=
  mk_mem js (nextjid g) (verbose g) (stdout g).

Definition set_nextjid (n : Z) (g : mem) : mem :=
  mk_mem (jobs g) n (verbose g) (stdout g).

(** ** Job list routines *)

(** [clearjob]: [tsh.c] also empties the command line, [hfsh.cpp] keeps the
    [std::string] of the entry as it is. *)
Definition clearjob (sh : shell) (job : job_t) : job_t :=
  {| pid := 0; jid := 0; state := UNDEF;
     cmdline := match sh with tsh => "" | hfsh => cmdline job end |}.

(** The contents of a cleared entry with an empty command line: what
    [initjobs] writes in [tsh.c], and what zero-initialisation of the global
    array gives in [hfsh.cpp]. *)
Definition free_job : job_t :=
  {| pid := 0; jid := 0; state := UNDEF; cmdline := "" |}.

(** [initjobs], and the state of the globals when [main] enters its loop. *)
Definition initjobs (sh : shell) : list job_t :=
  replicate (Z.to_nat (MAXJOBS sh)) free_job.

Definition init_mem (sh : shell) (v : bool) : mem :=
  {| jobs := initjobs sh; nextjid := 1; verbose := v; stdout := [] |}.

(** One turn of the loop of [maxjid]: [if (jobs[i].jid > max) max = jobs[i].jid]. *)
Definition keep_max (max : Z) (j : job_t) : Z :=
  if bool_decide (jid j > max) then jid j else max.

(** [maxjid]: the running maximum over the array, from 0. *)
Definition maxjid (js : list job_t) : Z := foldl keep_max 0 js.

(** The text of the trace that [addjob] prints in [tsh.c] under [-v]. *)
Definition added_job_msg (j : job_t) : string :=
  "Added job [" +:+ pretty (jid j) +:+ "] " +:+ pretty (pid j) +:+ " "
    +:+ cmdline j +:+ nl.

Definition too_many_jobs_msg : string := "Tried to create too many jobs" +:+ nl.

(** [addjob]: the return value and the globals after the call. *)
Definition addjob (sh : shell) (g : mem) (p st : Z) (cmd : string) : Z * mem :=
  if bool_decide (p < 1) then (0, g)
  else
    match list_find (λ j, pid j = 0) (jobs g) with
    | Some (i, _) =>
        let j := {| pid := p; state := st; jid := nextjid g; cmdline := cmd |} in
        let n := nextjid g + 1 in
        let n := if bool_decide (n > MAXJOBS sh) then 1 else n in
        let g := set_nextjid n (set_jobs (<[i := j]> (jobs g)) g) in
        let g := match sh with
                 | tsh => if verbose g then printf (added_job_msg j) g else g
                 | hfsh => g
                 end in
        (1, g)
    | None => (0, printf too_many_jobs_msg g)
    end.

(** [deletejob]. *)
Definition deletejob (sh : shell) (g : mem) (p : Z) : Z * mem :=
  if bool_decide (p < 1) then (0, g)
  else
    match list_find (λ j, pid j = p) (jobs g) with
    | Some (i, job) =>
        let js := <[i := clearjob sh job]> (jobs g) in
        (1, set_nextjid (maxjid js + 1) (set_jobs js g))
    | None => (0, g)
    end.

(** [fgpid]. *)
Definition fgpid (js : list job_t) : Z :=
  match list_find (λ j, state j = FG) js with
  | Some (_, job) => pid job
  | None => 0
  end.

(** [getjobpid]: the pointer it returns is the index of the entry together
    with the entry read through it, [None] for [NULL]. *)
Definition getjobpid (js : list job_t) (p : Z) : option (nat * job_t) :=
  if bool_decide (p < 1) then None
  else list_find (λ j, pid j = p) js.

(** [getjobjid] ([tsh.c] only). *)
Definition getjobjid (js : list job_t) (i : Z) : option (nat * job_t) :=
  if bool_decide (i < 1) then None
  else list_find (λ j, jid j = i) js.

(** [pid2jid]. *)
Definition pid2jid (js : list job_t) (p : Z) : Z :=
  if bool_decide (p < 1) then 0
  else match list_find (λ j, pid j = p) js with
       | Some (_, job) => jid job
       | None => 0
       end.

(** ** The SIGCHLD handler *)

(** What a step of C code yields: it returns, or its behaviour is undefined
    (a null pointer is dereferenced, an array is read past its end). *)
Inductive outcome (A : Type) : Type :=
  | Returns (a : A)
  | Undefined.
Arguments Returns {A} a.
Arguments Undefined {A}.

(** The status that [waitpid] stores under [WNOHANG | WUNTRACED], read through
    the macros of [<sys/wait.h>]. *)
Inductive wstatus : Type :=
  | Exited (code : Z)
  | Signaled (sig : Z)
  | Stopped (sig : Z).

Definition WIFSTOPPED (status : wstatus) : bool :=
  match status with Stopped _ => true | _ => false end.
Definition WIFSIGNALED (status : wstatus) : bool :=
  match status with Signaled _ => true | _ => false end.
Definition WIFEXITED (status : wstatus) : bool :=
  match status with Exited _ => true | _ => false end.
Definition WTERMSIG (status : wstatus) : Z :=
  match status with Signaled sig => sig | _ => 0 end.
Definition WSTOPSIG (status : wstatus) : Z :=
  match status with Stopped sig => sig | _ => 0 end.

(** The two notifications of the handler. *)
Definition stopped_msg (j p sig : Z) : string :=
  "Job [" +:+ pretty j +:+ "] (" +:+ pretty p +:+ ") stopped by signal "
    +:+ pretty sig +:+ nl.

Definition terminated_msg (j p sig : Z) : string :=
  "Job [" +:+ pretty j +:+ "] (" +:+ pretty p +:+ ") terminated by signal "
    +:+ pretty sig +:+ nl.

Definition set_state (st : Z) (job : job_t) : job_t :=
  {| pid := pid job; jid := jid job; state := st; cmdline := cmdline job |}.

Section handler.
(** [SIGTSTP] of [<signal.h>]: its number depends on the platform. *)
Variable SIGTSTP : Z.
Variable sh : shell.

(** The body of the [while] loop of [sigchld_handler] for one child that
    [waitpid] reported. [current_job] is the result of [getjobpid]: the
    entry is reached through it without a test. *)
Definition sigchld_reap (g : mem) (p : Z) (status : wstatus) : outcome mem :=
  let current_job := getjobpid (jobs g) p in
  if WIFSTOPPED status then
    match current_job with
    | None => Undefined
    | Some (i, job) =>
        let g := set_jobs (<[i := set_state ST job]> (jobs g)) g in
        Returns (printf (stopped_msg (pid2jid (jobs g) p) p SIGTSTP) g)
    end
  else if WIFSIGNALED status then
    match current_job with
    | None => Undefined
    | Some (i, job) =>
        let g := printf (terminated_msg (jid job) (pid job) (WTERMSIG status)) g in
        Returns (snd (deletejob sh g p))
    end
  else if WIFEXITED status then Returns (snd (deletejob sh g p))
  else Returns g.

(** [sigchld_handler]. [reapable] lists what the successive calls of
    [waitpid] return, pid and status; past its end [waitpid] returns a value
    that is not positive and the loop ends. *)
Fixpoint sigchld_handler (reapable : list (Z * wstatus)) (g : mem) : outcome mem :=
  match reapable with
  | [] => Returns g
  | (p, status) :: rest =>
      if bool_decide (p > 0) then
        match sigchld_reap g p status with
        | Returns g => sigchld_handler rest g
        | Undefined => Undefined
        end
      else Returns g
  end.
End handler.

(** ** The main flow: launching, [bg]/[fg], and the foreground waiter *)

(** The state of a shell between two steps: its globals, and the pid that the
    main flow polls for inside the loop of [waitfg], if it is there. *)
Record shell_state : Type := mk_state {
  globals : mem;
  waiting : option Z
}.

(** [waitfg] up to its loop: [Some p] when the loop is entered. *)
Definition waitfg_enter (js : list job_t) (p : Z) : option Z :=
  let job := getjobpid js p in
  if bool_decide (p = 0) then None
  else match job with Some _ => Some p | None => None end.

(** One test of [while (pid == fgpid(jobs))] in [waitfg]: the flow sleeps and
    stays in the loop, or leaves it. *)
Definition waitfg_poll (js : list job_t) (p : Z) : option Z :=
  if bool_decide (p = fgpid js) then Some p else None.

Definition bg_msg (j p : Z) (cmd : string) : string :=
  "[" +:+ pretty j +:+ "] (" +:+ pretty p +:+ ") " +:+ cmd.

(** The parent after [fork] returned [p]: [eval] of [tsh.c] with
    [st = bg ? BG : FG], and in [hfsh.cpp] the single-stage branch of
    [external_cmd] and [execute_pipe], both followed by [parent_tasks], with
    [st = mode]. *)
Definition run_job (sh : shell) (g : mem) (p st : Z) (cmd : string) : shell_state :=
  let g := snd (addjob sh g p st cmd) in
  if bool_decide (st = FG) then
    {| globals := g; waiting := waitfg_enter (jobs g) p |}
  else
    {| globals := printf (bg_msg (pid2jid (jobs g) p) p cmd) g; waiting := None |}.

(** The argument of [bg] and [fg] as [do_bgfg] reads it: absent, [%] and the
    number [atoi] finds after it, the number [atoi] finds when the text starts
    with a digit, or anything else. *)
Inductive bgfg_arg : Type :=
  | arg_none
  | arg_jid (text : string) (i : Z)
  | arg_pid (p : Z)
  | arg_other.

(** [do_bgfg] of [tsh.c]; [name] is [argv[0]], either [bg] or [fg], and the
    new state is read off its first character. The signal sent with [kill]
    leaves the globals as they are. *)
Definition do_bgfg (name : string) (arg : bgfg_arg) (g : mem) : shell_state :=
  let lookup :=
    match arg with
    | arg_none =>
        inl (name +:+ " command requires PID or %jobid argument" +:+ nl)
    | arg_jid text i =>
        match getjobjid (jobs g) i with
        | Some r => inr r
        | None => inl (text +:+ ": No such job" +:+ nl)
        end
    | arg_pid p =>
        match getjobpid (jobs g) p with
        | Some r => inr r
        | None => inl ("(" +:+ pretty p +:+ "): No such process" +:+ nl)
        end
    | arg_other => inl (name +:+ ": argument must be a PID or %jobid" +:+ nl)
    end in
  match lookup with
  | inl msg => {| globals := printf msg g; waiting := None |}
  | inr (i, job_process) =>
      let new_state := match name with String "f" _ => FG | _ => BG end in
      let job_process := set_state new_state job_process in
      let g := set_jobs (<[i := job_process]> (jobs g)) g in
      if bool_decide (new_state = FG) then
        {| globals := g; waiting := waitfg_enter (jobs g) (pid job_process) |}
      else
        {| globals :=
             printf (bg_msg (jid job_process) (pid job_process) (cmdline job_process)) g;
           waiting := None |}
  end.

(** *** The operations of the main flow, statement by statement *)

(** The stores into one field of an entry. *)
Definition set_pid (p : Z) (job : job_t) : job_t :=
  {| pid := p; jid := jid job; state := state job; cmdline := cmdline job |}.

Definition set_jid (n : Z) (job : job_t) : job_t :=
  {| pid := pid job; jid := n; state := state job; cmdline := cmdline job |}.

Definition set_cmdline (cmd : string) (job : job_t) : job_t :=
  {| pid := pid job; jid := jid job; state := state job; cmdline := cmd |}.

(** A store into [jobs[i]]: the entry is what it is when the store is made. *)
Definition store (i : nat) (f : job_t → job_t) (g : mem) : mem :=
  set_jobs (alter f i (jobs g)) g.

(** [(argv[0][0] == 'f') ? FG : BG]. *)
Definition new_state_of (name : string) : Z :=
  match name with String "f" _ => FG | _ => BG end.

(** [do_bgfg] up to the pointer [job_process]: the index of the entry it
    points to, or the line that is printed before an early return. *)
Definition bgfg_lookup (name : string) (arg : bgfg_arg) (js : list job_t) : string + nat :=
  match arg with
  | arg_none => inl (name +:+ " command requires PID or %jobid argument" +:+ nl)
  | arg_jid text i =>
      match getjobjid js i with
      | Some (k, _) => inr k
      | None => inl (text +:+ ": No such job" +:+ nl)
      end
  | arg_pid p =>
      match getjobpid js p with
      | Some (k, _) => inr k
      | None => inl ("(" +:+ pretty p +:+ "): No such process" +:+ nl)
      end
  | arg_other => inl (name +:+ ": argument must be a PID or %jobid" +:+ nl)
  end.

(** [job_process->state = new_state]. *)
Definition bgfg_store (name : string) (i : nat) (g : mem) : mem :=
  store i (set_state (new_state_of name)) g.

(** The end of [do_bgfg]: [waitfg(job_process->pid)] or the line of [bg],
    with the fields read through [job_process] as they are then. The pointer
    stays inside the array, whose length no statement changes. *)
Definition bgfg_finish (name : string) (i : nat) (g : mem) : shell_state :=
  match jobs g !! i with
  | Some job_process =>
      if bool_decide (new_state_of name = FG) then
        {| globals := g; waiting := waitfg_enter (jobs g) (pid job_process) |}
      else
        {| globals :=
             printf (bg_msg (jid job_process) (pid job_process) (cmdline job_process)) g;
           waiting := None |}
  | None => {| globals := g; waiting := None |}
  end.

(** The statements of [addjob] of [hfsh.cpp] after its scan has found the
    free entry [i]: the stores into [pid] and [state], [jid = nextjid++], the
    wrap of the counter, and the store into [cmdline]. *)
Definition addjob_stores (i : nat) (p st : Z) (cmd : string) : list (mem → mem) :=
  [ store i (set_pid p);
    store i (set_state st);
    (λ g, set_nextjid (nextjid g + 1) (store i (set_jid (nextjid g)) g));
    (λ g, if bool_decide (nextjid g > MAXJOBS hfsh) then set_nextjid 1 g else g);
    store i (set_cmdline cmd) ].

(** [parent_tasks(pid)] of [hfsh.cpp]: [waitfg] up to its loop when [mode]
    is [FG], the line of a background job otherwise. *)
Definition parent_tasks (p mode : Z) (cmd : string) (g : mem) : shell_state :=
  if bool_decide (mode = FG) then
    {| globals := g; waiting := waitfg_enter (jobs g) p |}
  else
    {| globals := printf (bg_msg (pid2jid (jobs g) p) p cmd) g; waiting := None |}.

Section machine.
Variable SIGTSTP : Z.

(** Any number of runs of the SIGCHLD handler, one after the other, each of
    which returns. The handler itself is not interrupted by SIGCHLD: the
    signal is blocked while its handler runs. *)
Definition handler_runs (sh : shell) : mem → mem → Prop :=
  rtc (λ g g', ∃ reapable, sigchld_handler SIGTSTP sh reapable g = Returns g').

(** Statements of the main flow that run with SIGCHLD unblocked: the handler
    may run before each of them and after the last. *)
Inductive interleaved (sh : shell) : list (mem → mem) → mem → mem → Prop :=
  | interleaved_nil g g' :
      handler_runs sh g g' → interleaved sh [] g g'
  | interleaved_cons f fs g g1 g' :
      handler_runs sh g g1 → interleaved sh fs (f g1) g' →
      interleaved sh (f :: fs) g g'.

(** [addjob] of [hfsh.cpp] for a pid that [fork] returned to the parent,
    from the return of [fork] to the return of [addjob]. *)
Definition addjob_interleaved (p st : Z) (cmd : string) (g g' : mem) : Prop :=
  ∃ g1,
    handler_runs hfsh g g1 ∧
    match list_find (λ j, pid j = 0) (jobs g1) with
    | Some (i, _) => interleaved hfsh (addjob_stores i p st cmd) g1 g'
    | None => handler_runs hfsh (printf too_many_jobs_msg g1) g'
    end.

(** The steps of a shell. The main flow starts a job or runs [bg]/[fg] only
    when it is not inside [waitfg]; the handler may run before and after
    every step, also between two polls of [waitfg], and inside a step
    wherever SIGCHLD is not blocked, between two statements that read or
    write the job list:
    - [step_eval]: [eval] of [tsh.c] keeps SIGCHLD blocked from before
      [fork] until [addjob] has returned;
    - [step_bgfg_error], [step_bgfg]: [do_bgfg] of [tsh.c] blocks nothing,
      so the handler may run between the lookup of the job and the store
      into its state, and between that store and what follows;
    - [step_external], [step_fork_failed]: one stage of [external_cmd] of
      [hfsh.cpp], which blocks nothing either, from [fork] to
      [parent_tasks]; the handler may run between [fork] and [addjob] and
      between any two statements of [addjob]. When [fork] fails, [addjob]
      is not called.
    A scan of the job list ([getjobjid], [getjobpid], the loop of [addjob])
    is taken as one statement, so every step of this relation is a run of
    the code, and the code has runs, with the handler inside a scan, that
    the relation does not have. A run of the handler whose behaviour is
    undefined has no state after it. *)
Inductive step : shell → shell_state → shell_state → Prop :=
  | step_eval s p (bg : bool) cmd :
      waiting s = None → 0 < p →
      step tsh s (run_job tsh (globals s) p (if bg then BG else FG) cmd)
  | step_bgfg_error s name arg msg :
      waiting s = None → name = "bg" ∨ name = "fg" →
      bgfg_lookup name arg (jobs (globals s)) = inl msg →
      step tsh s {| globals := printf msg (globals s); waiting := None |}
  | step_bgfg s name arg i g :
      waiting s = None → name = "bg" ∨ name = "fg" →
      bgfg_lookup name arg (jobs (globals s)) = inr i →
      interleaved tsh [bgfg_store name i] (globals s) g →
      step tsh s (bgfg_finish name i g)
  | step_external s p mode cmd g :
      waiting s = None → 0 < p →
      addjob_interleaved p mode cmd (globals s) g →
      step hfsh s (parent_tasks p mode cmd g)
  | step_fork_failed s p mode cmd :
      waiting s = None → p < 0 →
      step hfsh s (parent_tasks p mode cmd (globals s))
  | step_waitfg sh s p :
      waiting s = Some p →
      step sh s {| globals := globals s;
                   waiting := waitfg_poll (jobs (globals s)) p |}
  | step_sigchld sh s reapable g :
      sigchld_handler SIGTSTP sh reapable (globals s) = Returns g →
      step sh s {| globals := g; waiting := waiting s |}.

Definition init_state (sh : shell) (v : bool) : shell_state :=
  {| globals := init_mem sh v; waiting := None |}.

(** A state that some run of the shell ends in. *)
Definition reachable (sh : shell) (s : shell_state) : Prop :=
  ∃ v, rtc (step sh) (init_state sh v) s.
End machine.

(** The number of entries of the job list whose state is [FG]. *)
Definition count_fg (js : list job_t) : nat :=
  length (filter (λ j, state j = FG) js).

(** ** The token parser of [hfsh.cpp] *)

(** [struct piped]. [command] points into the token array: it is the offset
    of the entry it points to, [None] for [NULL]. *)
Record piped : Type := mk_piped {
  file_in : option string;
  file_out : option string;
  command : option nat;
  file_in_fd : Z;
  file_out_fd : Z;
  p_fd : Z * Z
}.

(** The token array that [gettoks] returned and the globals that
    [parse_tokens] writes. An entry of [argv] is a token or [NULL]. *)
Record parser : Type := mk_parser {
  argv : list (option string);
  piped_command : piped;
  pipe_commands : list piped;
  mode : Z
}.

Definition IN_REDIR : string := "<".
Definition OUT_REDIR : string := ">".
Definition PIPE : string := "|".
Definition AMPERSAND : string := "&".

(** The array that [gettoks] hands over: the tokens, then [NULL]. *)
Definition gettoks (toks : list string) : list (option string) :=
  ((Some <$> toks) ++ [None])%list.

(** [argv[i]]; a read past the end of the array is undefined. *)
Definition read_tok (a : list (option string)) (i : nat) : outcome (option string) :=
  match a !! i with
  | Some t => Returns t
  | None => Undefined
  end.

Definition set_tok_null (i : nat) (s : parser) : parser :=
  mk_parser (<[i := None]> (argv s)) (piped_command s) (pipe_commands s) (mode s).

Definition set_piped_command (c : piped) (s : parser) : parser :=
  mk_parser (argv s) c (pipe_commands s) (mode s).

Definition set_mode (m : Z) (s : parser) : parser :=
  mk_parser (argv s) (piped_command s) (pipe_commands s) m.

(** [pipe_commands.push_back(piped_command)]. *)
Definition push_back_piped (s : parser) : parser :=
  mk_parser (argv s) (piped_command s) (pipe_commands s ++ [piped_command s])%list (mode s).

Definition with_file_in (f : option string) (c : piped) : piped :=
  mk_piped f (file_out c) (command c) (file_in_fd c) (file_out_fd c) (p_fd c).

Definition with_file_out (f : option string) (c : piped) : piped :=
  mk_piped (file_in c) f (command c) (file_in_fd c) (file_out_fd c) (p_fd c).

Definition with_command (off : nat) (c : piped) : piped :=
  mk_piped (file_in c) (file_out c) (Some off) (file_in_fd c) (file_out_fd c) (p_fd c).

(** The body of the [for] loop of [parse_tokens] at index [i], where
    [argv[i]] is the token [temp]. *)
Definition parse_token (i : nat) (temp : string) (s : parser) : outcome parser :=
  if bool_decide (temp = IN_REDIR) then
    match read_tok (argv s) (i + 1) with
    | Returns f =>
        Returns (set_tok_null i (set_piped_command (with_file_in f (piped_command s)) s))
    | Undefined => Undefined
    end
  else if bool_decide (temp = OUT_REDIR) then
    match read_tok (argv s) (i + 1) with
    | Returns f =>
        Returns (set_tok_null i (set_piped_command (with_file_out f (piped_command s)) s))
    | Undefined => Undefined
    end
  else if bool_decide (temp = PIPE) then
    let s := push_back_piped s in
    let c := with_file_out None (with_file_in None (with_command (i + 1) (piped_command s))) in
    Returns (set_tok_null i (set_piped_command c s))
  else
    match read_tok (argv s) (i + 1) with
    | Returns None =>
        if bool_decide (temp = AMPERSAND) then Returns (set_tok_null i (set_mode BG s))
        else Returns (set_mode FG s)
    | Returns (Some _) => Returns s
    | Undefined => Undefined
    end.

(** The loop [for (i = 0; argv[i] != NULL; i++)], from index [i]. Every turn
    reads [argv[i]] inside the array, so [fuel] turns are enough when [fuel]
    is the length of the array. *)
Fixpoint parse_loop (fuel i : nat) (s : parser) : outcome parser :=
  match read_tok (argv s) i with
  | Undefined => Undefined
  | Returns None => Returns s
  | Returns (Some temp) =>
      match fuel with
      | O => Undefined
      | S fuel =>
          match parse_token i temp s with
          | Returns s => parse_loop fuel (S i) s
          | Undefined => Undefined
          end
      end
  end.

(** [parse_tokens]. *)
Definition parse_tokens (s : parser) : outcome parser :=
  let s := set_piped_command (with_command 0 (piped_command s)) s in
  match parse_loop (length (argv s)) 0 s with
  | Returns s => Returns (push_back_piped s)
  | Undefined => Undefined
  end.

(** The globals of the parser when [main] calls [parse_tokens] on [toks]:
    [piped_command] has no command and no file, as at program start and as
    [reset_variables] leaves it, the list of stages is empty, and [mode] and
    the descriptors hold whatever they held. *)
Definition parser_start (toks : list string) (m fd_in fd_out : Z) (fds : Z * Z) : parser :=
  {| argv := gettoks toks;
     piped_command := {| file_in := None; file_out := None; command := None;
                         file_in_fd := fd_in; file_out_fd := fd_out; p_fd := fds |};
     pipe_commands := [];
     mode := m |}.

(** The strings of a [NULL]-terminated array, as [execvp] reads them. *)
Fixpoint c_strings (a : list (option string)) : list string :=
  match a with
  | Some t :: a => t :: c_strings a
  | _ => []
  end.

(** A stage as the launcher sees it: the argument vector that [command]
    points to, the input file and the output file. *)
Definition stage (s : parser) (c : piped) : list string * option string * option string :=
  (match command c with
   | Some off => c_strings (drop off (argv s))
   | None => []
   end, file_in c, file_out c).

Definition stages (s : parser) : list (list string * option string * option string) :=
  stage s <$> pipe_commands s.

(** ** Runs of the job list and invariants of the shell *)

(** A driver for runs of the job list: one background job per pid, in order. *)
Definition addjobs (sh : shell) (g : mem) (pids : list Z) : mem :=
  foldl (λ g p, snd (addjob sh g p BG "/bin/sleep 60 &")) g pids.

(** In [tsh.c]: fifteen jobs are added, with pids 1 to 15, the job with pid 2
    is deleted, and the jobs with pids 16 and 17 are added. *)
Definition wrapped_run (v : bool) : mem :=
  let g := addjobs tsh (init_mem tsh v) (Z.of_nat <$> seq 1 15) in
  let g := snd (deletejob tsh g 2) in
  addjobs tsh g [16; 17].

(** The same jobs started from the prompt of [tsh.c], each with a trailing
    [&]. *)
Definition run_jobs_bg (s : shell_state) (pids : list Z) : shell_state :=
  foldl (λ s p, run_job tsh (globals s) p BG "/bin/sleep 60 &") s pids.

(** Two tables of [tsh.c]: two background jobs, pids 100 and 101, and the
    same with a foreground job, pid 102, after them. *)
Definition two_jobs : mem := addjobs tsh (init_mem tsh false) [100; 101].

Definition with_foreground : mem := snd (addjob tsh two_jobs 102 FG "/bin/cat").

(** The shape of an entry: free, with pid 0, job id 0 and state [UNDEF], or
    occupied, with a positive pid and a positive job id. *)
Definition entry_ok (j : job_t) : Prop :=
  (pid j = 0 ∧ jid j = 0 ∧ state j = UNDEF) ∨ (1 ≤ pid j ∧ 1 ≤ jid j).

(** The shape of the globals: the table has its length, the counter is
    positive, and every entry has the shape above. *)
Definition table_ok (sh : shell) (g : mem) : Prop :=
  length (jobs g) = Z.to_nat (MAXJOBS sh) ∧
  1 ≤ nextjid g ∧
  Forall entry_ok (jobs g).

(** *** A run of [tsh.c] in which a child exits inside [do_bgfg] *)

(** Three background jobs are started from the prompt, with pids 100, 101
    and 102; they get the job ids 1, 2 and 3. *)
Definition fg_race_0 : shell_state :=
  run_jobs_bg (init_state tsh false) [100; 101; 102].

(** [fg %2]: [getjobjid] returns entry 1; the job with pid 101 exits and the
    handler removes it; then [do_bgfg] stores [FG] through its pointer and
    calls [waitfg] with the pid it reads there. *)
Definition fg_race_1 : shell_state :=
  bgfg_finish "fg" 1 (bgfg_store "fg" 1 (snd (deletejob tsh (globals fg_race_0) 101))).

(** [fg %3], with no handler run inside it. *)
Definition fg_race_2 : shell_state :=
  do_bgfg "fg" (arg_jid "%3" 3) (globals fg_race_1).

(** The first test of the loop of [waitfg(102)]. *)
Definition fg_race_3 : shell_state :=
  {| globals := globals fg_race_2;
     waiting := waitfg_poll (jobs (globals fg_race_2)) 102 |}.

(** A foreground job is started from the prompt; its pid is 103. *)
Definition fg_race_4 : shell_state :=
  run_job tsh (globals fg_race_3) 103 FG "/bin/cat".

(** *** A run of [hfsh.cpp] in which a child exits inside [addjob] *)

(** The globals after the scan of [addjob] found the free entry [i],
    [jobs[i].pid = pid] was stored, the child exited and the handler ran, and
    [addjob] made its other stores. *)
Definition addjob_race (g : mem) (i : nat) (p st : Z) (cmd : string) : mem :=
  let g := store i (set_pid p) g in
  let g := snd (deletejob hfsh g p) in
  foldl (λ g f, f g) g (drop 1 (addjob_stores i p st cmd)).

(** ** Tables without repeated ids *)

(** No two occupied entries hold the same job id. *)
Definition jids_distinct (js : list job_t) : Prop :=
  ∀ i1 i2 j1 j2,
    js !! i1 = Some j1 → js !! i2 = Some j2 →
    pid j1 ≠ 0 → pid j2 ≠ 0 → jid j1 = jid j2 → i1 = i2.

(** At most one entry holds the pid [p]. *)
Definition held_once (js : list job_t) (p : Z) : Prop :=
  ∀ i1 i2 j1 j2,
    js !! i1 = Some j1 → js !! i2 = Some j2 →
    pid j1 = p → pid j2 = p → i1 = i2.

(** Every positive pid is held by at most one entry. *)
Definition pids_distinct (js : list job_t) : Prop :=
  ∀ p, 0 < p → held_once js p.

(** The job that [bg] and [fg] are given: none when there is no argument,
    when the argument is neither [%]number nor a number, and when the table
    holds no such job id or pid. *)
Definition named_job (js : list job_t) (arg : bgfg_arg) : option (nat * job_t) :=
  match arg with
  | arg_none | arg_other => None
  | arg_jid _ i => getjobjid js i
  | arg_pid p => getjobpid js p
  end.

(** ** The handlers of the terminal signals *)

(** The calls of [kill] that a handler makes: the pid argument and the
    signal of each. *)
Definition kills : Type := list (Z * Z).

(** The body that [sigint_handler] and [sigtstp_handler] share in both
    shells: the signal is passed on to the process group of the foreground
    job, if [fgpid] returns one. *)
Definition forward_to_fg (js : list job_t) (sig : Z) : kills :=
  let pid := fgpid js in
  if bool_decide (pid ≠ 0) then [(- pid, sig)] else [].

(** The counters of [hfsh.cpp], each an [unsigned int]. *)
Record signal_counts : Type := mk_counts {
  c_int : Z;
  c_tstp : Z;
  c_hup : Z;
  c_quit : Z
}.

(** [c++] on an [unsigned int]. *)
Definition incr_unsigned (c : Z) : Z := (c + 1) mod 2 ^ 32.

(** [sigint_handler]: [tsh.c] has no counter. *)
Definition sigint_handler (sh : shell) (js : list job_t) (sig : Z)
    (c : signal_counts) : kills * signal_counts :=
  (forward_to_fg js sig,
   match sh with
   | tsh => c
   | hfsh => mk_counts (incr_unsigned (c_int c)) (c_tstp c) (c_hup c) (c_quit c)
   end).

(** [sigtstp_handler]. *)
Definition sigtstp_handler (sh : shell) (js : list job_t) (sig : Z)
    (c : signal_counts) : kills * signal_counts :=
  (forward_to_fg js sig,
   match sh with
   | tsh => c
   | hfsh => mk_counts (c_int c) (incr_unsigned (c_tstp c)) (c_hup c) (c_quit c)
   end).

(** [sighup_handler] of [hfsh.cpp]. *)
Definition sighup_handler (c : signal_counts) : signal_counts :=
  mk_counts (c_int c) (c_tstp c) (incr_unsigned (c_hup c)) (c_quit c).

(** ** [listjobs] of [tsh.c] *)

(** The body of the loop of [listjobs] for entry [i]. *)
Definition listjobs_entry (i : Z) (j : job_t) (g : mem) : mem :=
  if bool_decide (pid j ≠ 0) then
    let g := printf ("[" +:+ pretty (jid j) +:+ "] (" +:+ pretty (pid j) +:+ ") ") g in
    let g :=
      if bool_decide (state j = BG) then printf "Running " g
      else if bool_decide (state j = FG) then printf "Foreground " g
      else if bool_decide (state j = ST) then printf "Stopped " g
      else printf ("listjobs: Internal error: job[" +:+ pretty i +:+ "].state="
                     +:+ pretty (state j) +:+ " ") g in
    printf (cmdline j) g
  else g.

(** The loop of [listjobs] from entry [i] on. *)
Fixpoint listjobs_from (i : Z) (js : list job_t) (g : mem) : mem :=
  match js with
  | [] => g
  | j :: js => listjobs_from (i + 1) js (listjobs_entry i j g)
  end.

Definition listjobs (g : mem) : mem := listjobs_from 0 (jobs g) g.

(** The three pieces that [listjobs] prints for a job in one of the states
    [BG], [FG] and [ST]. *)
Definition job_listing (j : job_t) : list string :=
  [ "[" +:+ pretty (jid j) +:+ "] (" +:+ pretty (pid j) +:+ ") ";
    if bool_decide (state j = BG) then "Running "
    else if bool_decide (state j = FG) then "Foreground " else "Stopped ";
    cmdline j ].

(** An entry of [tsh.c]: free, or in one of the states [FG], [BG], [ST]. *)
Definition state_ok (j : job_t) : Prop :=
  pid j = 0 ∨ state j = FG ∨ state j = BG ∨ state j = ST.

(** ** Shapes of token lists *)

(** A token that is none of [<], [>] and [|]. *)
Definition plain (t : string) : Prop :=
  t ≠ IN_REDIR ∧ t ≠ OUT_REDIR ∧ t ≠ PIPE.

(** The tokens of a pipeline: every stage but the last is followed by [|]. *)
Definition pipeline_toks (cmds : list (list string)) (last : list string) : list string :=
  (concat ((λ c, c ++ [PIPE]) <$> cmds) ++ last)%list.

(** The stages of a pipeline whose stages name no file. *)
Definition plain_stages (cmds : list (list string))
    : list (list string * option string * option string) :=
  (λ c, (c, None, None)) <$> cmds.

(** What the last word of a line leaves in the last stage and in [mode]. *)
Definition last_argv (last : list string) (w : string) : list string :=
  if bool_decide (w = AMPERSAND) then last else (last ++ [w])%list.

Definition last_mode (w : string) : Z :=
  if bool_decide (w = AMPERSAND) then BG else FG.

(** A redirection on a line: [true] with a file for [<], [false] for [>]. *)
Definition redir_op (b : bool) : string := if b then IN_REDIR else OUT_REDIR.

Definition redir_toks (rs : list (bool * string)) : list string :=
  concat ((λ r, [redir_op (fst r); snd r]) <$> rs).

(** The input and the output file after one more redirection. *)
Definition redirect (files : option string * option string) (r : bool * string)
    : option string * option string :=
  if fst r then (Some (snd r), snd files) else (fst files, Some (snd r)).

(** ** [evaluate_cmd] of [hfsh.cpp] *)

(** Where [evaluate_cmd] sends a line. *)
Inductive command_kind : Type :=
  | run_myhist
  | run_forweb
  | run_nls
  | run_prunedir
  | run_external.

(** [evaluate_cmd] up to the call it makes: [argv[0]] of the first stage is
    compared with the names of the built-in commands. [front()] of an empty
    list and [strcmp] on a null pointer are undefined. *)
Definition evaluate_cmd (s : parser) : outcome command_kind :=
  match pipe_commands s with
  | [] => Undefined
  | c :: _ =>
      match command c with
      | None => Undefined
      | Some off =>
          match read_tok (argv s) off with
          | Returns (Some name) =>
              Returns (if bool_decide (name = "myhist") then run_myhist
                       else if bool_decide (name = "forweb") then run_forweb
                       else if bool_decide (name = "nls") then run_nls
                       else if bool_decide (name = "prunedir") then run_prunedir
                       else run_external)
          | Returns None => Undefined
          | Undefined => Undefined
          end
      end
  end.

(** [#define STR_MYEXIT]. *)
Definition STR_MYEXIT : string := "myexit".

(** How the loop of [main] ends its turn on a line: nothing is done on a
    line without tokens, the loop is left on [myexit], and any other line is
    parsed and sent on. *)
Inductive line_end : Type :=
  | line_skipped
  | line_leaves
  | line_runs (k : command_kind).

(** The body of the loop of [main] on the tokens of a line, the history
    aside: the test of [toks[0]], the test for [myexit], [parse_tokens] and
    [evaluate_cmd]. *)
Definition run_line (s : parser) : outcome line_end :=
  match read_tok (argv s) 0 with
  | Undefined => Undefined
  | Returns None => Returns line_skipped
  | Returns (Some t) =>
      if bool_decide (t = STR_MYEXIT) then Returns line_leaves
      else
        match parse_tokens s with
        | Returns s =>
            match evaluate_cmd s with
            | Returns k => Returns (line_runs k)
            | Undefined => Undefined
            end
        | Undefined => Undefined
        end
  end.

(** The command of the first stage, pushed or still under construction. *)
Definition first_command (s : parser) : option (option nat) :=
  command <$> head (pipe_commands s ++ [piped_command s])%list.

(** ** The history of [hfsh.cpp] *)

(** [history] is a [std::map<int, string>]: its entries in the order of
    their keys, which is the order in which [myhist] walks them and in which
    the entry before [end()] comes last. *)
Definition history_t : Type := list (Z * string).

(** [insert] of [std::map]: the entry goes to its place in the order of the
    keys; where the key is already there the map is left as it is. *)
Fixpoint map_insert (k : Z) (v : string) (h : history_t) : history_t :=
  match h with
  | [] => [(k, v)]
  | e :: h' =>
      if bool_decide (k < fst e) then (k, v) :: h
      else if bool_decide (k = fst e) then h
      else e :: map_insert k v h'
  end.

(** The loop of [update_history]: every token is appended after a blank. *)
Definition history_line (toks : list string) : string :=
  foldl (λ command tok, command +:+ " " +:+ tok) "" toks.

(** [update_history]: the line is stored under the size of the map plus
    one. *)
Definition update_history (toks : list (option string)) (h : history_t) : history_t :=
  map_insert (Z.of_nat (length h) + 1) (history_line (c_strings toks)) h.

(** [current_command]: the text of the entry before [end()]. Stepping back
    from [end()] of an empty map is undefined. *)
Definition current_command (h : history_t) : outcome string :=
  match last h with
  | Some e => Returns (snd e)
  | None => Undefined
  end.

(** [myhist]: one line of output for each entry. *)
Definition myhist (h : history_t) (g : mem) : mem :=
  foldl (λ g e, printf (" " +:+ pretty (fst e) +:+ " " +:+ snd e +:+ nl) g) g h.

(** The entry that line [i] of a session, counted from 0, leaves in the
    history. *)
Definition history_entry (i : nat) (toks : list string) : Z * string :=
  (Z.of_nat i + 1, history_line toks).

(** The history as the loop of [main] builds it over the lines it is
    given, from the value [m] of [mode] and the value [fd] of the two
    descriptors of [piped_command]. A line without tokens is not stored. A
    line with tokens is stored, the loop is left if its first token is
    [myexit], and the line goes through [parse_tokens] and [evaluate_cmd]
    otherwise; the command that [evaluate_cmd] starts writes neither the
    history nor [mode] and is taken to return. At the end of a turn
    [reset_variables] sets the two descriptors to -1; [mode] is as
    [parse_tokens] left it, and [p_fd] of [piped_command] is never
    written. *)
Fixpoint main_history (m fd : Z) (h : history_t) (lines : list (list string))
    : outcome history_t :=
  match lines with
  | [] => Returns h
  | [] :: lines => main_history m (-1) h lines
  | (t :: ts) :: lines =>
      let h := update_history (gettoks (t :: ts)) h in
      if bool_decide (t = STR_MYEXIT) then Returns h
      else
        match parse_tokens (parser_start (t :: ts) m fd fd (0, 1)) with
        | Returns s =>
            match evaluate_cmd s with
            | Returns _ => main_history (mode s) (-1) h lines
            | Undefined => Undefined
            end
        | Undefined => Undefined
        end
  end.

(** The history after the lines of a session, from the empty map and the
    zero-initialised globals. *)
Definition history_after (lines : list (list string)) : outcome history_t :=
  main_history 0 0 [] lines.

(** The lines of a session that hold a token, up to the first [myexit]. *)
Fixpoint lines_stored (lines : list (list string)) : list (list string) :=
  match lines with
  | [] => []
  | [] :: lines => lines_stored lines
  | (t :: ts) :: lines =>
      (t :: ts) :: if bool_decide (t = STR_MYEXIT) then [] else lines_stored lines
  end.

(** A line that begins with [myexit], or with a token that is none of [<],
    [>] and [|] and that is not a lone [&]. *)
Definition well_begun (toks : list string) : Prop :=
  match toks with
  | [] => True
  | t :: rest => t = STR_MYEXIT ∨ (plain t ∧ (t ≠ AMPERSAND ∨ rest ≠ []))
  end.

(** ** [parseline] of [tsh.c] *)

Definition MAXARGS : nat := 128.

(** The terminator of a C string. *)
Definition NUL : ascii := ascii_of_nat 0.

(** A character array is the list of its bytes, a pointer into it an
    offset, and the functions below take the bytes from the pointer on. A
    read or a write past the last byte is undefined. *)

(** [strlen]. *)
Fixpoint strlen (cs : list ascii) : outcome nat :=
  match cs with
  | [] => Undefined
  | c :: cs =>
      if bool_decide (c = NUL) then Returns 0%nat
      else match strlen cs with
           | Returns n => Returns (S n)
           | Undefined => Undefined
           end
  end.

(** [strcpy(dst, src)]: the bytes of [src] up to its terminator, and the
    terminator, replace the first bytes of [dst]. *)
Fixpoint strcpy (dst src : list ascii) : outcome (list ascii) :=
  match src, dst with
  | c :: src, _ :: dst =>
      if bool_decide (c = NUL) then Returns (c :: dst)
      else match strcpy dst src with
           | Returns dst => Returns (c :: dst)
           | Undefined => Undefined
           end
  | _, _ => Undefined
  end.

(** [strchr(s, c)] for a character [c] other than the terminator: the
    distance to the first [c] of the string, [None] for [NULL]. *)
Fixpoint strchr (cs : list ascii) (c : ascii) : outcome (option nat) :=
  match cs with
  | [] => Undefined
  | x :: cs =>
      if bool_decide (x = c) then Returns (Some 0%nat)
      else if bool_decide (x = NUL) then Returns None
      else match strchr cs c with
           | Returns (Some n) => Returns (Some (S n))
           | Returns None => Returns None
           | Undefined => Undefined
           end
  end.

(** The string that starts at a pointer. *)
Fixpoint c_string (cs : list ascii) : outcome string :=
  match cs with
  | [] => Undefined
  | c :: cs =>
      if bool_decide (c = NUL) then Returns ""
      else match c_string cs with
           | Returns s => Returns (String c s)
           | Undefined => Undefined
           end
  end.

(** The loop [while ( *buf && ( *buf == ' ')) buf++]: the number of bytes
    that [buf] moves. *)
Fixpoint skip_spaces (cs : list ascii) : outcome nat :=
  match cs with
  | [] => Undefined
  | c :: cs =>
      if bool_decide (c ≠ NUL) && bool_decide (c = " "%char) then
        match skip_spaces cs with
        | Returns n => Returns (S n)
        | Undefined => Undefined
        end
      else Returns 0%nat
  end.

(** The search for the end of the argument at [buf]: after an opening quote
    [buf] moves past it and the argument ends at the next quote, otherwise it
    ends at the next blank. The result is the new [buf] and [delim]. *)
Definition find_delim (array : list ascii) (buf : nat) : outcome (nat * option nat) :=
  match array !! buf with
  | None => Undefined
  | Some c =>
      if bool_decide (c = "'"%char) then
        let buf := S buf in
        match strchr (drop buf array) "'"%char with
        | Returns delim => Returns (buf, (λ n, buf + n)%nat <$> delim)
        | Undefined => Undefined
        end
      else
        match strchr (drop buf array) " "%char with
        | Returns delim => Returns (buf, (λ n, buf + n)%nat <$> delim)
        | Undefined => Undefined
        end
  end.

(** The loop [while (delim)]. [argv] is the list of the pointers stored so
    far, so that [argc] is its length; [argv] has [MAXARGS] entries and a
    store past them is undefined. Every turn moves [delim] forward, so
    [fuel] turns are enough when [fuel] is the length of the array. *)
Fixpoint parseline_loop (fuel : nat) (array : list ascii) (buf : nat)
    (delim : option nat) (args : list nat) : outcome (list ascii * list nat) :=
  match delim with
  | None => Returns (array, args)
  | Some delim =>
      match fuel with
      | O => Undefined
      | S fuel =>
          if bool_decide (MAXARGS ≤ length args)%nat then Undefined
          else
            let args := (args ++ [buf])%list in
            let array := <[delim := NUL]> array in
            let buf := S delim in
            match skip_spaces (drop buf array) with
            | Undefined => Undefined
            | Returns n =>
                match find_delim array (buf + n) with
                | Returns (buf, delim) => parseline_loop fuel array buf delim args
                | Undefined => Undefined
                end
            end
      end
  end.

(** [parseline]: [array] is the static buffer as the call finds it and
    [cmdline] the bytes at the pointer it is given. The result is the value
    returned, the pointers left in [argv] before its [NULL], and the
    buffer. *)
Definition parseline (array cmdline : list ascii) : outcome (Z * list nat * list ascii) :=
  match strcpy array cmdline with
  | Undefined => Undefined
  | Returns array =>
      match strlen array with
      | Undefined => Undefined
      | Returns O => Undefined
      | Returns (S n) =>
          let array := <[n := " "%char]> array in
          match skip_spaces array with
          | Undefined => Undefined
          | Returns buf =>
              match find_delim array buf with
              | Undefined => Undefined
              | Returns (buf, delim) =>
                  match parseline_loop (length array) array buf delim [] with
                  | Undefined => Undefined
                  | Returns (array, args) =>
                      if bool_decide (MAXARGS ≤ length args)%nat then Undefined
                      else
                        match last args with
                        | None => Returns (1, args, array)
                        | Some p =>
                            match array !! p with
                            | None => Undefined
                            | Some c =>
                                if bool_decide (c = "&"%char)
                                then Returns (1, take (length args - 1) args, array)
                                else Returns (0, args, array)
                            end
                        end
                  end
              end
          end
      end
  end.

(** The arguments that [argv] holds, read as strings. *)
Fixpoint arg_strings (array : list ascii) (args : list nat) : outcome (list string) :=
  match args with
  | [] => Returns []
  | p :: args =>
      match c_string (drop p array), arg_strings array args with
      | Returns s, Returns ss => Returns (s :: ss)
      | _, _ => Undefined
      end
  end.

(** Bytes at which the search for a delimiter finds none, wherever they
    lie in the buffer. *)
Definition ends_line (stop : list ascii) : Prop :=
  stop ≠ [] ∧ head stop ≠ Some " "%char ∧
  ∀ pre, ∃ buf, find_delim (pre ++ stop)%list (length pre) = Returns (buf, None).

(** *** Lines *)

(** An argument as it is written on a line: a word, or a text between
    single quotes. *)
Inductive written : Type :=
  | Bare (w : string)
  | Quoted (q : string).

Definition text_of (x : written) : string :=
  match x with Bare w => w | Quoted q => q end.

Definition chars_of (x : written) : list ascii :=
  match x with
  | Bare w => list_ascii_of_string w
  | Quoted q => ("'"%char :: list_ascii_of_string q ++ ["'"%char])%list
  end.

(** A word is not empty, holds no blank and does not start with a quote; a
    quoted text holds no quote. Neither holds the terminator. *)
Definition well_written (x : written) : Prop :=
  (NUL ∉ list_ascii_of_string (text_of x)) ∧
  match x with
  | Bare w =>
      w ≠ "" ∧ (" "%char ∉ list_ascii_of_string w) ∧
      head (list_ascii_of_string w) ≠ Some "'"%char
  | Quoted q => "'"%char ∉ list_ascii_of_string q
  end.

(** The bytes of the arguments of a line, each followed by one blank and as
    many more as is paired with it. *)
Definition args_chars (xs : list (written * nat)) : list ascii :=
  concat ((λ x, chars_of (fst x) ++ replicate (S (snd x)) " "%char)%list <$> xs).

(** The bytes of a line: [lead] blanks, then the arguments. *)
Definition line_chars (lead : nat) (xs : list (written * nat)) : list ascii :=
  (replicate lead " "%char ++ args_chars xs)%list.

(** The arguments of a line as texts. *)
Definition line_words (xs : list (written * nat)) : list string :=
  text_of <$> xs.*1.

(** Whether the last of the words of a line starts with [&]. *)
Definition starts_with_amp (s : string) : bool :=
  match s with
  | String c _ => bool_decide (c = "&"%char)
  | EmptyString => false
  end.

Definition background (words : list string) : bool :=
  match last words with
  | Some w => starts_with_amp w
  | None => false
  end.

(** The arguments that a line leaves in [argv], and the value that
    [parseline] returns for it. *)
Definition line_args (xs : list (written * nat)) : list string :=
  if background (line_words xs)
  then take (length (line_words xs) - 1) (line_words xs)
  else line_words xs.

Definition line_bg (xs : list (written * nat)) : Z :=
  if bool_decide (line_words xs = []) || background (line_words xs) then 1 else 0.

(** ** [builtin_cmd] and [eval] of [tsh.c] *)

(** [builtin_cmd] up to the call it makes: [argv[0]] is compared with the
    names of the built-in commands. *)
Inductive builtin : Type :=
  | builtin_quit
  | builtin_amp
  | builtin_jobs
  | builtin_bgfg
  | not_builtin.

Definition builtin_cmd (name : string) : builtin :=
  if bool_decide (name = "quit") then builtin_quit
  else if bool_decide (name = "&") then builtin_amp
  else if bool_decide (name = "jobs") then builtin_jobs
  else if bool_decide (name = "bg") || bool_decide (name = "fg") then builtin_bgfg
  else not_builtin.

(** How a call of [eval] ends: it returns or is inside the loop of
    [waitfg], the process leaves through [exit], [builtin_cmd] calls
    [do_bgfg] on the arguments, or, in the child that [fork] made, [execv] is
    called on them. *)
Inductive eval_end : Type :=
  | eval_returns (s : shell_state)
  | eval_exits (code : Z)
  | eval_do_bgfg (args : list string)
  | eval_execv (args : list string).

(** [eval]. [array] is the static buffer of [parseline], [buf] the local
    array of [eval] as the call finds it, [cmdline] the bytes at the pointer
    it is given and [p] what [fork] returns where it is called. What
    [unix_error] prints before it leaves is not part of the model. *)
Definition eval (array buf cmdline : list ascii) (p : Z) (g : mem)
    : outcome (eval_end * list ascii) :=
  match strcpy buf cmdline with
  | Undefined => Undefined
  | Returns buf =>
      match parseline array buf with
      | Undefined => Undefined
      | Returns (bg, args, array) =>
          match arg_strings array args with
          | Undefined => Undefined
          | Returns [] =>
              Returns (eval_returns {| globals := g; waiting := None |}, array)
          | Returns (name :: rest) =>
              match builtin_cmd name with
              | builtin_quit => Returns (eval_exits 0, array)
              | builtin_amp =>
                  Returns (eval_returns {| globals := g; waiting := None |}, array)
              | builtin_jobs =>
                  Returns (eval_returns {| globals := listjobs g; waiting := None |},
                           array)
              | builtin_bgfg => Returns (eval_do_bgfg (name :: rest), array)
              | not_builtin =>
                  if bool_decide (p < 0) then Returns (eval_exits 1, array)
                  else if bool_decide (p = 0) then
                    Returns (eval_execv (name :: rest), array)
                  else
                    match c_string buf with
                    | Undefined => Undefined
                    | Returns line =>
                        Returns (eval_returns
                                   (run_job tsh g p
                                      (if bool_decide (bg ≠ 0) then BG else FG) line),
                                 array)
                    end
              end
          end
      end
  end.

(** * Properties *)

(** ** The scans of the job list *)

Section scans.
Implicit Types (js : list job_t) (g : mem) (p : Z).

Lemma find_free_None js :
  list_find (λ j, pid j = 0) js = None ↔ Forall (λ j, pid j ≠ 0) js.
Proof. apply list_find_None. Qed.

(** Writing the entry that follows [l1]. *)
Lemma insert_middle {A} (l1 l2 : list A) x y :
  <[length l1 := y]> (l1 ++ x :: l2)%list = (l1 ++ y :: l2)%list.
Proof. induction l1 as [|z l1 IH]; simpl; [done|]. by rewrite IH. Qed.

(** The scan stops at [i] exactly when [i] is the first entry that passes. *)
Lemma find_first (P : job_t → Prop) `{!∀ j, Decision (P j)} js i j :
  js !! i = Some j → P j →
  (∀ k jk, (k < i)%nat → js !! k = Some jk → ¬ P jk) →
  list_find P js = Some (i, j).
Proof.
  intros Hi HP Hlt. apply list_find_Some. split_and!; [done..|].
  intros k y Hk ?. by apply (Hlt k y).
Qed.

Lemma find_absent (P : job_t → Prop) `{!∀ j, Decision (P j)} js :
  Forall (λ j, ¬ P j) js → list_find P js = None.
Proof. intros. by apply list_find_None. Qed.

Lemma length_initjobs sh : length (initjobs sh) = Z.to_nat (MAXJOBS sh).
Proof. apply length_replicate. Qed.
End scans.

(** ** [addjob] *)

Section addjob_facts.
Implicit Types (js : list job_t) (g : mem) (p st : Z) (cmd : string).

Lemma addjob_invalid sh g p st cmd : p < 1 → addjob sh g p st cmd = (0, g).
Proof. intros Hp. unfold addjob. by rewrite bool_decide_eq_true_2. Qed.

Lemma addjob_full sh g p st cmd :
  1 ≤ p → Forall (λ j, pid j ≠ 0) (jobs g) →
  addjob sh g p st cmd = (0, printf too_many_jobs_msg g).
Proof.
  intros Hp Hfull. unfold addjob.
  rewrite bool_decide_eq_false_2 by lia.
  by rewrite (find_absent _ _ Hfull).
Qed.

(** The table and the counter after an [addjob] that found entry [i]. *)
Lemma addjob_found sh g p st cmd i j0 :
  1 ≤ p → list_find (λ j, pid j = 0) (jobs g) = Some (i, j0) →
  fst (addjob sh g p st cmd) = 1 ∧
  jobs (snd (addjob sh g p st cmd)) = <[i := mk_job p (nextjid g) st cmd]> (jobs g) ∧
  nextjid (snd (addjob sh g p st cmd)) =
    (if bool_decide (nextjid g + 1 > MAXJOBS sh) then 1 else nextjid g + 1) ∧
  verbose (snd (addjob sh g p st cmd)) = verbose g.
Proof.
  intros Hp Hfind. unfold addjob.
  rewrite bool_decide_eq_false_2 by lia. rewrite Hfind.
  destruct sh; simpl; [destruct (verbose g) eqn:Hv|]; done.
Qed.

(** Whatever the arguments, [addjob] leaves the table and the counter as
    they are or writes one entry, with the pid it was given, which is
    positive, and steps the counter. *)
Lemma addjob_jobs sh g p st cmd :
  (jobs (snd (addjob sh g p st cmd)) = jobs g ∧
   nextjid (snd (addjob sh g p st cmd)) = nextjid g) ∨
  ∃ i j0, 1 ≤ p ∧ list_find (λ j, pid j = 0) (jobs g) = Some (i, j0) ∧
    jobs (snd (addjob sh g p st cmd)) = <[i := mk_job p (nextjid g) st cmd]> (jobs g) ∧
    nextjid (snd (addjob sh g p st cmd)) =
      (if bool_decide (nextjid g + 1 > MAXJOBS sh) then 1 else nextjid g + 1).
Proof.
  destruct (decide (p < 1)) as [Hp|Hp].
  { left. by rewrite addjob_invalid. }
  destruct (list_find (λ j, pid j = 0) (jobs g)) as [[i j0]|] eqn:Hfind.
  - right. exists i, j0. split; [lia|]. split; [done|].
    destruct (addjob_found sh g p st cmd i j0) as (_ & ? & ? & _); [lia|done|done].
  - left. rewrite addjob_full; [done|lia|]. by apply find_free_None.
Qed.
End addjob_facts.

(** C10. [addjob] called with a pid below 1, the mark of a free entry or a
    negative pid, returns 0 at once and leaves the table, the counter and the
    output as they were; and whatever pid [addjob] is called with, an entry
    that holds pid 0 after the call is an entry that was there, unchanged,
    before it: no call makes an entry hold the mark of a free one. *)
Theorem addjob_rejects_sentinel sh g p st cmd :
  p < 1 →
  addjob sh g p st cmd = (0, g) ∧
  ∀ q st' cmd' i j,
    jobs (snd (addjob sh g q st' cmd')) !! i = Some j → pid j = 0 →
    jobs g !! i = Some j.
Proof.
  intros Hp. split; [by apply addjob_invalid|].
  intros q st' cmd' i j Hi Hj.
  destruct (addjob_jobs sh g q st' cmd') as [[Heq _]|(k & j0 & Hq & Hfind & Heq & _)];
    rewrite Heq in Hi; [done|].
  apply list_find_Some in Hfind as (Hk & _ & _).
  destruct (decide (k = i)) as [->|Hne].
  - rewrite list_lookup_insert_eq in Hi by (by eapply lookup_lt_Some).
    simplify_eq/=. lia.
  - by rewrite list_lookup_insert_ne in Hi.
Qed.

Lemma addjob_rejects_sentinel_witness :
  0 < 1 ∧ addjob tsh (init_mem tsh false) 0 FG "/bin/ls" = (0, init_mem tsh false).
Proof.
  split; [lia|].
  apply (addjob_rejects_sentinel tsh (init_mem tsh false) 0 FG "/bin/ls"). lia.
Defined.

(** C4. For a positive pid, [addjob] fails (returns 0) exactly when no entry
    of the table is free. The failure returns to the caller with the table
    and the counter as they were and one message appended to the output. When
    entry [i] is the first free one, the call returns 1, writes the pid, the
    state, the command line and the current counter as job id into entry [i]
    alone, and steps the counter, back to 1 once it exceeds [MAXJOBS]. *)
Theorem addjob_fails_iff_full sh g p st cmd :
  0 < p →
  (fst (addjob sh g p st cmd) = 0 ↔ Forall (λ j, pid j ≠ 0) (jobs g)) ∧
  (Forall (λ j, pid j ≠ 0) (jobs g) →
     fst (addjob sh g p st cmd) = 0 ∧
     jobs (snd (addjob sh g p st cmd)) = jobs g ∧
     nextjid (snd (addjob sh g p st cmd)) = nextjid g ∧
     stdout (snd (addjob sh g p st cmd)) = (stdout g ++ [too_many_jobs_msg])%list) ∧
  (∀ i j0,
     jobs g !! i = Some j0 → pid j0 = 0 →
     (∀ k jk, (k < i)%nat → jobs g !! k = Some jk → pid jk ≠ 0) →
     fst (addjob sh g p st cmd) = 1 ∧
     jobs (snd (addjob sh g p st cmd)) =
       <[i := {| pid := p; jid := nextjid g; state := st; cmdline := cmd |}]> (jobs g) ∧
     nextjid (snd (addjob sh g p st cmd)) =
       (if bool_decide (nextjid g + 1 > MAXJOBS sh) then 1 else nextjid g + 1)).
Proof.
  intros Hp. split_and!.
  - split.
    + intros Hret. apply find_free_None.
      destruct (list_find _ (jobs g)) as [[i j0]|] eqn:Hfind; [|done].
      destruct (addjob_found sh g p st cmd i j0) as (Hone & _); [lia|done|].
      rewrite Hone in Hret. done.
    + intros Hfull. rewrite addjob_full; [done|lia|done].
  - intros Hfull. rewrite addjob_full; [done|lia|done].
  - intros i j0 Hi Hfree Hfirst.
    destruct (addjob_found sh g p st cmd i j0) as (? & ? & ? & _); [lia| |done].
    apply find_first; [done..|]. intros k jk ? ? ?. by eapply Hfirst.
Qed.

Lemma addjob_fails_iff_full_witness :
  0 < 100 ∧
  (fst (addjob tsh (init_mem tsh false) 100 BG "/bin/ls &") = 0 ↔
   Forall (λ j, pid j ≠ 0) (jobs (init_mem tsh false))).
Proof.
  split; [lia|].
  apply (addjob_fails_iff_full tsh (init_mem tsh false) 100 BG "/bin/ls &"). lia.
Defined.

(** ** [maxjid] and [deletejob] *)

Section deletejob_facts.
Implicit Types (js : list job_t) (g : mem) (p : Z).

(** The running maximum from [a]: it is above [a] and above every job id,
    and it is [a] or one of the job ids. *)
Lemma foldl_max_bounds js a :
  a ≤ foldl keep_max a js ∧
  (∀ j, j ∈ js → jid j ≤ foldl keep_max a js) ∧
  (foldl keep_max a js = a ∨ ∃ j, j ∈ js ∧ jid j = foldl keep_max a js).
Proof.
  revert a. induction js as [|j js IH]; intros a; simpl.
  { split_and!; [lia| |by left]. intros j Hj. by apply elem_of_nil in Hj. }
  destruct (IH (keep_max a j)) as (Hle & Hub & Hat).
  assert (a ≤ keep_max a j ∧ jid j ≤ keep_max a j) as [Ha Hj].
  { unfold keep_max. case_bool_decide; lia. }
  split_and!.
  - lia.
  - intros j' [->|Hin]%elem_of_cons; [lia|by apply Hub].
  - destruct Hat as [Heq|(j' & Hin & Heq)].
    + rewrite Heq. unfold keep_max. case_bool_decide.
      * right. exists j. split; [apply elem_of_cons; by left|done].
      * by left.
    + right. exists j'. split; [apply elem_of_cons; by right|done].
Qed.

Lemma maxjid_upper js j : j ∈ js → jid j ≤ maxjid js.
Proof.
  intros Hj. destruct (foldl_max_bounds js 0) as (_ & Hub & _). by apply Hub.
Qed.

Lemma maxjid_nonneg js : 0 ≤ maxjid js.
Proof. by destruct (foldl_max_bounds js 0) as (Hle & _ & _). Qed.

Lemma maxjid_attained js :
  maxjid js = 0 ∨ ∃ j, j ∈ js ∧ jid j = maxjid js.
Proof. by destruct (foldl_max_bounds js 0) as (_ & _ & Hat). Qed.

Lemma deletejob_invalid sh g p : p < 1 → deletejob sh g p = (0, g).
Proof. intros. unfold deletejob. by rewrite bool_decide_eq_true_2. Qed.

Lemma deletejob_absent sh g p :
  Forall (λ j, pid j ≠ p) (jobs g) → deletejob sh g p = (0, g).
Proof.
  intros Habs. unfold deletejob. case_bool_decide; [done|].
  by rewrite (find_absent _ _ Habs).
Qed.

Lemma deletejob_found sh g p i job :
  1 ≤ p → list_find (λ j, pid j = p) (jobs g) = Some (i, job) →
  deletejob sh g p =
    (1, set_nextjid (maxjid (<[i := clearjob sh job]> (jobs g)) + 1)
          (set_jobs (<[i := clearjob sh job]> (jobs g)) g)).
Proof.
  intros Hp Hfind. unfold deletejob.
  rewrite bool_decide_eq_false_2 by lia. by rewrite Hfind.
Qed.

(** Whatever the pid, [deletejob] leaves the globals as they are or clears
    the first entry that holds the pid. *)
Lemma deletejob_cases sh g p :
  deletejob sh g p = (0, g) ∨
  ∃ i job, 1 ≤ p ∧ list_find (λ j, pid j = p) (jobs g) = Some (i, job) ∧
    deletejob sh g p =
      (1, set_nextjid (maxjid (<[i := clearjob sh job]> (jobs g)) + 1)
            (set_jobs (<[i := clearjob sh job]> (jobs g)) g)).
Proof.
  destruct (decide (p < 1)) as [Hp|Hp].
  { left. by apply deletejob_invalid. }
  destruct (list_find (λ j, pid j = p) (jobs g)) as [[i job]|] eqn:Hfind.
  - right. exists i, job. split; [lia|]. split; [done|].
    apply deletejob_found; [lia|done].
  - left. apply deletejob_absent. by apply list_find_None in Hfind.
Qed.
End deletejob_facts.

(** C5. [deletejob] called with a pid that no occupied entry holds, or with a
    pid that is not positive, returns 0 and leaves the table, the counter and
    the output as they were. On any call, every entry other than the first
    one that holds the pid reads after the call as it read before. *)
Theorem deletejob_absent_is_noop sh g p :
  p ≤ 0 ∨ Forall (λ j, pid j ≠ 0 → pid j ≠ p) (jobs g) →
  deletejob sh g p = (0, g) ∧
  ∀ q k j,
    jobs g !! k = Some j →
    jobs (snd (deletejob sh g q)) !! k = Some j ∨
    (0 < q ∧ pid j = q ∧
     ∀ k' j', (k' < k)%nat → jobs g !! k' = Some j' → pid j' ≠ q).
Proof.
  intros Hp. split.
  - destruct (decide (p < 1)) as [Hlt|Hge]; [by apply deletejob_invalid|].
    destruct Hp as [Hp|Hocc]; [lia|].
    apply deletejob_absent. eapply Forall_impl; [exact Hocc|].
    simpl. intros j Hj Heq. apply Hj; lia.
  - intros q k j Hk.
    destruct (deletejob_cases sh g q) as [->|(i & job & Hq & Hfind & ->)];
      [by left|].
    apply list_find_Some in Hfind as (Hi & Hpid & Hfirst). simpl.
    destruct (decide (i = k)) as [->|Hne].
    + right. simplify_eq. split_and!; [lia|done|].
      intros k' j' Hlt Hk'. by apply (Hfirst k' j').
    + left. by rewrite list_lookup_insert_ne.
Qed.

Lemma deletejob_absent_is_noop_witness :
  (0 ≤ 0 ∨ Forall (λ j, pid j ≠ 0 → pid j ≠ 0) (jobs (init_mem tsh false))) ∧
  deletejob tsh (init_mem tsh false) 0 = (0, init_mem tsh false).
Proof.
  split; [left; lia|].
  apply (deletejob_absent_is_noop tsh (init_mem tsh false) 0). left. lia.
Defined.

(** ** Adding three jobs, removing the second, adding a fourth *)

Section scenario.
Implicit Types (js : list job_t) (g : mem) (p st : Z) (cmd : string).

(** [addjob] on a table whose first free entry follows [occ]. *)
Lemma addjob_after sh g p st cmd occ j0 rest :
  1 ≤ p → jobs g = (occ ++ j0 :: rest)%list → pid j0 = 0 →
  Forall (λ j, pid j ≠ 0) occ →
  fst (addjob sh g p st cmd) = 1 ∧
  jobs (snd (addjob sh g p st cmd)) = (occ ++ mk_job p (nextjid g) st cmd :: rest)%list ∧
  nextjid (snd (addjob sh g p st cmd)) =
    (if bool_decide (nextjid g + 1 > MAXJOBS sh) then 1 else nextjid g + 1) ∧
  verbose (snd (addjob sh g p st cmd)) = verbose g.
Proof.
  intros Hp Hjobs Hfree Hocc.
  destruct (addjob_found sh g p st cmd (length occ) j0) as (? & Hjs & ? & ?);
    [done| |].
  - rewrite Hjobs. apply find_first; [by apply list_lookup_middle|done|].
    intros k jk Hk Hlook. rewrite lookup_app_l in Hlook by done.
    rewrite Forall_forall in Hocc. apply Hocc.
    by eapply list_elem_of_lookup_2.
  - split_and!; [done| |done..]. by rewrite Hjs, Hjobs, insert_middle.
Qed.

(** [deletejob] on a table whose first entry with pid [p] follows [pre]. *)
Lemma deletejob_after sh g p pre job rest :
  1 ≤ p → jobs g = (pre ++ job :: rest)%list → pid job = p →
  Forall (λ j, pid j ≠ p) pre →
  fst (deletejob sh g p) = 1 ∧
  jobs (snd (deletejob sh g p)) = (pre ++ clearjob sh job :: rest)%list ∧
  nextjid (snd (deletejob sh g p)) = maxjid (pre ++ clearjob sh job :: rest) + 1 ∧
  verbose (snd (deletejob sh g p)) = verbose g.
Proof.
  intros Hp Hjobs Hpid Hpre.
  assert (<[length pre := clearjob sh job]> (jobs g)
          = (pre ++ clearjob sh job :: rest)%list) as Hins.
  { by rewrite Hjobs, insert_middle. }
  rewrite (deletejob_found sh g p (length pre) job); [|done|].
  - simpl. by rewrite Hins.
  - rewrite Hjobs. apply find_first; [by apply list_lookup_middle|done|].
    intros k jk Hk Hlook. rewrite lookup_app_l in Hlook by done.
    rewrite Forall_forall in Hpre. apply Hpre.
    by eapply list_elem_of_lookup_2.
Qed.

(** Free entries leave the running maximum as it is. *)
Lemma foldl_keep_max_free js a :
  Forall (λ j, jid j = 0) js → 0 ≤ a → foldl keep_max a js = a.
Proof.
  intros Hfree. revert a. induction Hfree as [|j js Hj _ IH]; intros a Ha; [done|].
  simpl. unfold keep_max at 2. rewrite bool_decide_eq_false_2 by lia. by apply IH.
Qed.

Lemma initjobs_unfold sh :
  ∃ rest, initjobs sh = free_job :: free_job :: free_job :: rest.
Proof. destruct sh; eexists; reflexivity. Qed.

(** From the initial table, three jobs get the ids 1, 2, 3 in the first
    three entries; removing the second sets the counter to 4, and the next
    job gets id 4, in the entry that the removal freed. *)
Lemma ids_after_remove sh v p1 p2 p3 p4 s1 s2 s3 s4 c1 c2 c3 c4 :
  0 < p1 → 0 < p2 → 0 < p3 → 0 < p4 → p1 ≠ p2 →
  let g1 := snd (addjob sh (init_mem sh v) p1 s1 c1) in
  let g2 := snd (addjob sh g1 p2 s2 c2) in
  let g3 := snd (addjob sh g2 p3 s3 c3) in
  let g4 := snd (deletejob sh g3 p2) in
  take 3 (jobs g3) = [mk_job p1 1 s1 c1; mk_job p2 2 s2 c2; mk_job p3 3 s3 c3] ∧
  fst (deletejob sh g3 p2) = 1 ∧
  jobs g4 !! 1%nat = Some (clearjob sh (mk_job p2 2 s2 c2)) ∧
  nextjid g4 = 4 ∧
  fst (addjob sh g4 p4 s4 c4) = 1 ∧
  jobs (snd (addjob sh g4 p4 s4 c4)) !! 1%nat = Some (mk_job p4 4 s4 c4).
Proof.
  intros Hp1 Hp2 Hp3 Hp4 Hne g1 g2 g3 g4.
  destruct (initjobs_unfold sh) as (rest & Hinit).
  assert (16 ≤ MAXJOBS sh) as Hcap by (destruct sh; simpl; lia).
  destruct (addjob_after sh (init_mem sh v) p1 s1 c1 [] free_job
              (free_job :: free_job :: rest)) as (_ & Hj1 & Hn1 & _);
    [lia|done|done|by constructor|].
  fold g1 in Hj1, Hn1. simpl in Hj1, Hn1.
  rewrite bool_decide_eq_false_2 in Hn1 by lia.
  destruct (addjob_after sh g1 p2 s2 c2 [mk_job p1 1 s1 c1] free_job
              (free_job :: rest)) as (_ & Hj2 & Hn2 & _);
    [lia|done|done|repeat constructor; simpl; lia|].
  fold g2 in Hj2, Hn2. rewrite Hn1 in Hj2, Hn2. simpl in Hj2, Hn2.
  rewrite bool_decide_eq_false_2 in Hn2 by lia.
  destruct (addjob_after sh g2 p3 s3 c3
              [mk_job p1 1 s1 c1; mk_job p2 2 s2 c2] free_job rest)
    as (_ & Hj3 & Hn3 & _);
    [lia|done|done|repeat constructor; simpl; lia|].
  fold g3 in Hj3, Hn3. rewrite Hn2 in Hj3, Hn3. simpl in Hj3, Hn3.
  destruct (deletejob_after sh g3 p2 [mk_job p1 1 s1 c1] (mk_job p2 2 s2 c2)
              (mk_job p3 3 s3 c3 :: rest)) as (Hr4 & Hj4 & Hn4 & _);
    [lia|done|done|repeat constructor; simpl; lia|].
  fold g4 in Hj4, Hn4. simpl in Hj4, Hn4.
  assert (nextjid g4 = 4) as Hn4'.
  { rewrite Hn4. unfold maxjid. simpl.
    change (keep_max _ (mk_job p3 3 s3 c3)) with 3.
    rewrite foldl_keep_max_free; [done| |lia].
    assert (Forall (λ j, jid j = 0) (initjobs sh)) as Hall
      by (by apply Forall_replicate).
    rewrite Hinit in Hall. by do 3 apply Forall_cons in Hall as [_ Hall]. }
  destruct (addjob_after sh g4 p4 s4 c4 [mk_job p1 1 s1 c1]
              (clearjob sh (mk_job p2 2 s2 c2)) (mk_job p3 3 s3 c3 :: rest))
    as (Hr5 & Hj5 & _);
    [lia|done|done|repeat constructor; simpl; lia|].
  rewrite Hn4' in Hj5.
  split_and!; [by rewrite Hj3|done|by rewrite Hj4|done|done|by rewrite Hj5].
Qed.
End scenario.

(** C3. Removing a pid that an entry of the table holds returns 1 and sets
    the counter to one more than the largest job id left in the table: no job
    id left exceeds the counter minus one, and some entry holds exactly that
    id. So, from the initial table, after three jobs are added (they get the
    ids 1, 2 and 3) and the one with id 2 is removed, the counter is 4 and the
    next job added gets id 4, not 2. *)
Theorem deletejob_counter_is_max_plus_one sh g p :
  0 < p → Exists (λ j, pid j = p) (jobs g) →
  (fst (deletejob sh g p) = 1 ∧
   nextjid (snd (deletejob sh g p)) = maxjid (jobs (snd (deletejob sh g p))) + 1 ∧
   (∀ j, j ∈ jobs (snd (deletejob sh g p)) →
      jid j ≤ nextjid (snd (deletejob sh g p)) - 1) ∧
   (∃ j, j ∈ jobs (snd (deletejob sh g p)) ∧
      jid j = nextjid (snd (deletejob sh g p)) - 1)) ∧
  (∀ v p1 p2 p3 p4 s1 s2 s3 s4 c1 c2 c3 c4,
     0 < p1 → 0 < p2 → 0 < p3 → 0 < p4 → p1 ≠ p2 →
     let g1 := snd (addjob sh (init_mem sh v) p1 s1 c1) in
     let g2 := snd (addjob sh g1 p2 s2 c2) in
     let g3 := snd (addjob sh g2 p3 s3 c3) in
     let g4 := snd (deletejob sh g3 p2) in
     take 3 (jobs g3) = [mk_job p1 1 s1 c1; mk_job p2 2 s2 c2; mk_job p3 3 s3 c3] ∧
     fst (deletejob sh g3 p2) = 1 ∧
     jobs g4 !! 1%nat = Some (clearjob sh (mk_job p2 2 s2 c2)) ∧
     nextjid g4 = 4 ∧
     fst (addjob sh g4 p4 s4 c4) = 1 ∧
     jobs (snd (addjob sh g4 p4 s4 c4)) !! 1%nat = Some (mk_job p4 4 s4 c4)).
Proof.
  intros Hp Hpresent. split; [|apply ids_after_remove].
  destruct (deletejob_cases sh g p) as [Hnone|(i & job & _ & Hfind & Hdel)].
  { exfalso. apply Exists_exists in Hpresent as (j & Hj & Hpid).
    assert (is_Some (list_find (λ j, pid j = p) (jobs g))) as [[i job] Hfind]
      by (by eapply list_find_elem_of).
    rewrite (deletejob_found sh g p i job) in Hnone by (lia || done). done. }
  rewrite Hdel. simpl.
  apply list_find_Some in Hfind as (Hi & _ & _).
  pose proof (lookup_lt_Some _ _ _ Hi) as Hlen.
  set (js := <[i := clearjob sh job]> (jobs g)).
  split_and!; [done..| |].
  - intros j Hj. pose proof (maxjid_upper js j Hj). lia.
  - destruct (maxjid_attained js) as [Hzero|(j & Hj & Hmax)].
    + exists (clearjob sh job). split; [by apply list_elem_of_insert|].
      simpl. lia.
    + exists j. split; [done|lia].
Qed.

Lemma deletejob_counter_is_max_plus_one_witness :
  0 < 100 ∧
  Exists (λ j, pid j = 100) (jobs (snd (addjob tsh (init_mem tsh false) 100 BG "/bin/ls &"))) ∧
  nextjid (snd (deletejob tsh (snd (addjob tsh (init_mem tsh false) 100 BG "/bin/ls &")) 100))
  = maxjid (jobs (snd (deletejob tsh (snd (addjob tsh (init_mem tsh false) 100 BG "/bin/ls &")) 100))) + 1.
Proof.
  assert (Exists (λ j, pid j = 100)
            (jobs (snd (addjob tsh (init_mem tsh false) 100 BG "/bin/ls &")))) as Hex.
  { apply Exists_cons_hd. reflexivity. }
  split; [lia|]. split; [exact Hex|].
  apply (deletejob_counter_is_max_plus_one tsh
           (snd (addjob tsh (init_mem tsh false) 100 BG "/bin/ls &")) 100);
    [lia|exact Hex].
Defined.

(** ** Job ids under the wrap of the counter *)

(** C6. The run [wrapped_run] of [tsh.c] ends with two occupied entries that
    hold the same job id: the job with pid 16 gets id 16, the counter wraps to
    1 although the job with pid 1 still holds id 1, and the job with pid 17
    gets id 1 as well. *)
Theorem jid_shared_after_wrap v :
  jobs (wrapped_run v) !! 0%nat = Some (mk_job 1 1 BG "/bin/sleep 60 &") ∧
  jobs (wrapped_run v) !! 1%nat = Some (mk_job 16 16 BG "/bin/sleep 60 &") ∧
  jobs (wrapped_run v) !! 15%nat = Some (mk_job 17 1 BG "/bin/sleep 60 &") ∧
  getjobjid (jobs (wrapped_run v)) 1 = Some (0%nat, mk_job 1 1 BG "/bin/sleep 60 &").
Proof. destruct v; vm_compute; done. Qed.

(** ** The handler on a pid that the table does not hold *)

Section handler_facts.
Variable SIGTSTP : Z.
Implicit Types (g : mem) (p : Z).

(** A child that exited and is not in the table is passed over. *)
Lemma sigchld_unknown_exited sh g p code :
  getjobpid (jobs g) p = None →
  sigchld_reap SIGTSTP sh g p (Exited code) = Returns g.
Proof.
  intros Hnone. unfold sigchld_reap. simpl.
  unfold getjobpid in Hnone. unfold deletejob.
  case_bool_decide; [done|]. by rewrite Hnone.
Qed.

Lemma sigchld_unknown_stopped sh g p sig :
  getjobpid (jobs g) p = None →
  sigchld_reap SIGTSTP sh g p (Stopped sig) = Undefined.
Proof. intros Hnone. unfold sigchld_reap. simpl. by rewrite Hnone. Qed.

Lemma sigchld_unknown_signaled sh g p sig :
  getjobpid (jobs g) p = None →
  sigchld_reap SIGTSTP sh g p (Signaled sig) = Undefined.
Proof. intros Hnone. unfold sigchld_reap. simpl. by rewrite Hnone. Qed.
End handler_facts.

(** C2. When [waitpid] reports a child that no entry of the table holds, as
    stopped or as terminated by a signal, the handler reaches through the
    null pointer that [getjobpid] returned: its behaviour is undefined, it
    does not pass the child over. *)
Theorem sigchld_unknown_pid_undefined SIGTSTP sh g p sig rest :
  0 < p → getjobpid (jobs g) p = None →
  sigchld_handler SIGTSTP sh ((p, Stopped sig) :: rest) g = Undefined ∧
  sigchld_handler SIGTSTP sh ((p, Signaled sig) :: rest) g = Undefined.
Proof.
  intros Hp Hnone. simpl. rewrite bool_decide_eq_true_2 by lia.
  by rewrite sigchld_unknown_stopped, sigchld_unknown_signaled.
Qed.

(** The table of [tsh.c] is full with the pids 1 to 16; a seventeenth child,
    pid 17, that [addjob] could not enter is stopped or killed. *)
Lemma sigchld_unknown_pid_undefined_witness :
  0 < 17 ∧
  getjobpid (jobs (addjobs tsh (init_mem tsh false) (Z.of_nat <$> seq 1 17))) 17 = None ∧
  sigchld_handler 20 tsh [(17, Stopped 20)]
    (addjobs tsh (init_mem tsh false) (Z.of_nat <$> seq 1 17)) = Undefined.
Proof.
  assert (getjobpid
            (jobs (addjobs tsh (init_mem tsh false) (Z.of_nat <$> seq 1 17))) 17
          = None) as Hnone by (vm_compute; reflexivity).
  split; [lia|]. split; [exact Hnone|].
  exact (proj1 (sigchld_unknown_pid_undefined 20 tsh
                  (addjobs tsh (init_mem tsh false) (Z.of_nat <$> seq 1 17))
                  17 20 [] eq_refl Hnone)).
Defined.

(** C9. A foreground job of [tsh.c], pid 100 and job id 1, is reported as
    stopped by signal [sig]. The handler sets its state to [ST] and prints one
    line, and the signal number in that line is [SIGTSTP], whatever [sig] is:
    with the numbers of Linux, a job stopped by SIGSTOP (19) is announced as
    stopped by signal 20. *)
Theorem sigchld_stop_prints_SIGTSTP SIGTSTP sig v :
  let g := snd (addjob tsh (init_mem tsh v) 100 FG "/bin/sleep 9") in
  (∃ g', sigchld_handler SIGTSTP tsh [(100, Stopped sig)] g = Returns g' ∧
         jobs g' !! 0%nat = Some (mk_job 100 1 ST "/bin/sleep 9") ∧
         stdout g' = (stdout g ++ [stopped_msg 1 100 SIGTSTP])%list) ∧
  stopped_msg 1 100 20 = "Job [1] (100) stopped by signal 20" +:+ nl ∧
  stopped_msg 1 100 20 ≠ stopped_msg 1 100 19.
Proof.
  split; [|split; [by vm_compute|by vm_compute]].
  destruct v; eexists; (split; [reflexivity|]); split; reflexivity.
Qed.

(** ** The token parser *)

Section parser_facts.
Implicit Types (s : parser) (a : list (option string)).

(** One turn of the loop returns when the entry after [i] is inside the
    array, and it touches no entry other than [i]. *)
Lemma parse_token_returns i temp s next :
  argv s !! (i + 1)%nat = Some next →
  ∃ s', parse_token i temp s = Returns s' ∧
        (argv s' = argv s ∨ argv s' = <[i := None]> (argv s)).
Proof.
  intros Hnext. unfold parse_token, read_tok. rewrite Hnext.
  repeat case_bool_decide; try destruct next; eexists; (split; [reflexivity|]);
    simpl; auto.
Qed.

(** On an array that ends with [NULL] the loop returns: it reads no entry
    past the end, and the turns it is given are enough. *)
Lemma parse_loop_returns rest :
  ∀ pre s fuel,
    argv s = (pre ++ (Some <$> rest) ++ [None])%list →
    (length rest ≤ fuel)%nat →
    ∃ s', parse_loop fuel (length pre) s = Returns s'.
Proof.
  induction rest as [|t rest IH]; intros pre s fuel Hargv Hfuel.
  - exists s. simpl in Hargv. destruct fuel; simpl; unfold read_tok;
      by rewrite Hargv, list_lookup_middle.
  - destruct fuel as [|fuel]; [simpl in Hfuel; lia|].
    simpl in Hargv, Hfuel. simpl. unfold read_tok at 1.
    rewrite Hargv, list_lookup_middle by done.
    assert (∃ next, argv s !! (length pre + 1)%nat = Some next) as [next Hnext].
    { apply lookup_lt_is_Some. rewrite Hargv, !length_app. simpl.
      rewrite length_app. simpl. lia. }
    destruct (parse_token_returns (length pre) t s next Hnext) as (s' & -> & Hs').
    replace (S (length pre)) with (length (pre ++ [default None (argv s' !! length pre)]))
      by (rewrite length_app; simpl; lia).
    apply IH; [|lia].
    destruct Hs' as [->| ->]; rewrite Hargv.
    + rewrite list_lookup_middle by done. simpl. by rewrite <- app_assoc.
    + rewrite insert_middle, list_lookup_middle by done.
      simpl. by rewrite <- app_assoc.
Qed.

(** [parse_tokens] returns on every array that [gettoks] hands over. *)
Lemma parse_tokens_returns toks m fd_in fd_out fds :
  ∃ s, parse_tokens (parser_start toks m fd_in fd_out fds) = Returns s.
Proof.
  unfold parse_tokens.
  set (s0 := set_piped_command _ _).
  destruct (parse_loop_returns toks [] s0 (length (argv s0))) as [s' Hs'].
  - done.
  - simpl. unfold gettoks. rewrite length_app, length_fmap. lia.
  - change (length []) with 0%nat in Hs'. rewrite Hs'. by eexists.
Qed.
End parser_facts.

(** C7. On the tokens [sort < in.txt > out.txt] the parser returns with one
    stage whose argument vector is [sort] alone, whose input file is
    [in.txt] and whose output file is [out.txt]; the pipeline is a foreground
    one. *)
Theorem parse_redirections m fd_in fd_out fds :
  ∃ s,
    parse_tokens (parser_start ["sort"; "<"; "in.txt"; ">"; "out.txt"] m fd_in fd_out fds)
      = Returns s ∧
    stages s = [(["sort"], Some "in.txt", Some "out.txt")] ∧
    mode s = FG.
Proof. eexists. split; [reflexivity|]. split; reflexivity. Qed.

(** C8. On the tokens [ls | wc -l] the parser returns with two stages, [ls]
    and [wc -l], neither with an input or an output file, and the pipeline is
    a foreground one. *)
Theorem parse_pipeline m fd_in fd_out fds :
  ∃ s,
    parse_tokens (parser_start ["ls"; "|"; "wc"; "-l"] m fd_in fd_out fds)
      = Returns s ∧
    stages s = [(["ls"], None, None); (["wc"; "-l"], None, None)] ∧
    mode s = FG.
Proof. eexists. split; [reflexivity|]. split; reflexivity. Qed.

(** ** Entries in state [FG], the lookups and the handler *)

Section foreground.
Variable SIGTSTP : Z.
Implicit Types (js : list job_t) (g : mem) (p st : Z) (s : shell_state).

Lemma count_fg_none js : Forall (λ j, state j ≠ FG) js → count_fg js = 0%nat.
Proof.
  unfold count_fg. induction 1 as [|j js Hj _ IH]; [done|].
  by rewrite filter_cons_False.
Qed.

Lemma count_fg_insert js i x :
  (count_fg (<[i := x]> js) ≤ count_fg js + if decide (state x = FG) then 1 else 0)%nat.
Proof.
  unfold count_fg. revert i. induction js as [|j js IH]; intros i; [simpl; lia|].
  destruct i as [|i]; simpl.
  - rewrite !filter_cons. repeat case_decide; simpl; lia.
  - specialize (IH i). rewrite !filter_cons. repeat case_decide; simpl; lia.
Qed.

Lemma count_fg_insert_other js i x :
  state x ≠ FG → (count_fg (<[i := x]> js) ≤ count_fg js)%nat.
Proof.
  intros Hx. pose proof (count_fg_insert js i x) as Hle.
  rewrite decide_False in Hle by done. lia.
Qed.

Lemma count_fg_lookup js i j :
  js !! i = Some j → state j = FG → (1 ≤ count_fg js)%nat.
Proof.
  intros Hi Hfg. unfold count_fg.
  assert (j ∈ filter (λ j, state j = FG) js) as Hin.
  { apply list_elem_of_filter. split; [done|]. by eapply list_elem_of_lookup_2. }
  destruct (filter _ js); [by apply elem_of_nil in Hin|simpl; lia].
Qed.

(** Two entries in state [FG] at different indices count twice. *)
Lemma count_fg_two js i1 i2 j1 j2 :
  (i1 < i2)%nat → js !! i1 = Some j1 → js !! i2 = Some j2 →
  state j1 = FG → state j2 = FG → (2 ≤ count_fg js)%nat.
Proof.
  intros Hlt H1 H2 Hfg1 Hfg2.
  rewrite <- (take_drop_middle js i2 j2 H2). unfold count_fg.
  rewrite filter_app, filter_cons_True, length_app by done. simpl.
  assert (take i2 js !! i1 = Some j1) as Htake by (by rewrite lookup_take_lt).
  pose proof (count_fg_lookup _ _ _ Htake Hfg1) as Hone.
  unfold count_fg in Hone. lia.
Qed.

Lemma getjobpid_present js p j :
  1 ≤ p → j ∈ js → pid j = p → is_Some (getjobpid js p).
Proof.
  intros Hp Hin Hpid. unfold getjobpid.
  rewrite bool_decide_eq_false_2 by lia.
  by apply (list_find_elem_of (λ j, pid j = p) js j).
Qed.

Lemma waitfg_enter_present js p j :
  1 ≤ p → j ∈ js → pid j = p → waitfg_enter js p = Some p.
Proof.
  intros Hp Hin Hpid. unfold waitfg_enter.
  rewrite bool_decide_eq_false_2 by lia.
  by destruct (getjobpid_present js p j Hp Hin Hpid) as [r ->].
Qed.

(** [fgpid] returns the pid of an entry in state [FG] when there is one. *)
Lemma fgpid_of_fg js j :
  j ∈ js → state j = FG →
  ∃ j', j' ∈ js ∧ state j' = FG ∧ fgpid js = pid j'.
Proof.
  intros Hin Hfg. unfold fgpid.
  destruct (list_find_elem_of (λ j, state j = FG) js j Hin Hfg) as [[i j'] Hfind].
  rewrite Hfind. apply list_find_Some in Hfind as (Hi & Hst & _).
  exists j'. split_and!; [by eapply list_elem_of_lookup_2|done..].
Qed.

Lemma getjobpid_Some js p i job :
  getjobpid js p = Some (i, job) → js !! i = Some job ∧ pid job = p ∧ 1 ≤ p.
Proof.
  unfold getjobpid. case_bool_decide; [done|].
  intros (? & ? & _)%list_find_Some. split_and!; [done..|lia].
Qed.

Lemma getjobjid_Some js n i job :
  getjobjid js n = Some (i, job) → js !! i = Some job ∧ jid job = n ∧ 1 ≤ n.
Proof.
  unfold getjobjid. case_bool_decide; [done|].
  intros (? & ? & _)%list_find_Some. split_and!; [done..|lia].
Qed.

Lemma set_state_ok st job : entry_ok job → 1 ≤ pid job → entry_ok (set_state st job).
Proof. intros [[? _]|[? ?]] Hpid; [lia|]. by right. Qed.

(** *** The handler *)

(** The handler leaves the table with entries that were there, entries set
    to [ST], and entries cleared. *)
Lemma sigchld_reap_ok sh (Q : job_t → Prop) g p status g' :
  (∀ j, Q j → 1 ≤ pid j → Q (set_state ST j)) → (∀ j, Q (clearjob sh j)) →
  sigchld_reap SIGTSTP sh g p status = Returns g' →
  Forall Q (jobs g) →
  Forall Q (jobs g') ∧ (count_fg (jobs g') ≤ count_fg (jobs g))%nat ∧
  length (jobs g') = length (jobs g) ∧ (1 ≤ nextjid g → 1 ≤ nextjid g').
Proof.
  intros Hstop Hclear Hreap HQ.
  assert (∀ g0, jobs g0 = jobs g → nextjid g0 = nextjid g →
            Forall Q (jobs (snd (deletejob sh g0 p))) ∧
            (count_fg (jobs (snd (deletejob sh g0 p))) ≤ count_fg (jobs g))%nat ∧
            length (jobs (snd (deletejob sh g0 p))) = length (jobs g) ∧
            (1 ≤ nextjid g → 1 ≤ nextjid (snd (deletejob sh g0 p)))) as Hdel.
  { intros g0 Hjs Hn.
    destruct (deletejob_cases sh g0 p) as [->|(i & job & _ & _ & ->)]; simpl.
    - by rewrite Hjs, Hn.
    - rewrite Hjs, length_insert. split_and!; [|by apply count_fg_insert_other|done|].
      + by apply Forall_insert.
      + intros _. pose proof (maxjid_nonneg (<[i := clearjob sh job]> (jobs g))). lia. }
  unfold sigchld_reap in Hreap. destruct status as [code|sig|sig]; simpl in Hreap.
  - simplify_eq. by apply Hdel.
  - destruct (getjobpid (jobs g) p) as [[i job]|]; [|done].
    simplify_eq. by apply Hdel.
  - destruct (getjobpid (jobs g) p) as [[i job]|] eqn:Hget; [|done].
    apply getjobpid_Some in Hget as (Hi & Hpid & Hp).
    simplify_eq. simpl. rewrite length_insert.
    split_and!; [|by apply count_fg_insert_other|done..].
    apply Forall_insert; [done|]. apply Hstop; [|lia].
    by eapply Forall_lookup_1.
Qed.

Lemma sigchld_handler_ok sh (Q : job_t → Prop) reapable g g' :
  (∀ j, Q j → 1 ≤ pid j → Q (set_state ST j)) → (∀ j, Q (clearjob sh j)) →
  sigchld_handler SIGTSTP sh reapable g = Returns g' →
  Forall Q (jobs g) →
  Forall Q (jobs g') ∧ (count_fg (jobs g') ≤ count_fg (jobs g))%nat ∧
  length (jobs g') = length (jobs g) ∧ (1 ≤ nextjid g → 1 ≤ nextjid g').
Proof.
  intros Hstop Hclear. revert g.
  induction reapable as [|[p status] rest IH]; intros g Hrun HQ; simpl in Hrun.
  { by simplify_eq. }
  case_bool_decide; [|by simplify_eq].
  destruct (sigchld_reap SIGTSTP sh g p status) as [g1|] eqn:Hreap; [|done].
  destruct (sigchld_reap_ok sh Q g p status g1 Hstop Hclear Hreap HQ)
    as (HQ1 & Hc1 & Hl1 & Hn1).
  destruct (IH g1 Hrun HQ1) as (HQ' & Hc' & Hl' & Hn').
  split_and!; [done|lia|congruence|auto].
Qed.

End foreground.

(** The run of [wrapped_run] is a run of the shell: the jobs are started in
    the background from the prompt, and the job with pid 2 is removed by the
    handler when it exits. *)
Lemma run_jobs_bg_reachable SIGTSTP pids :
  ∀ s, reachable SIGTSTP tsh s → waiting s = None → Forall (λ p, 0 < p) pids →
       reachable SIGTSTP tsh (run_jobs_bg s pids) ∧
       waiting (run_jobs_bg s pids) = None.
Proof.
  induction pids as [|p pids IH]; intros s [v Hrun] Hidle Hpos; simpl.
  { split; [by exists v|done]. }
  apply Forall_cons in Hpos as [Hp Hpos]. apply IH; [|done..].
  exists v. eapply rtc_r; [exact Hrun|].
  exact (step_eval SIGTSTP s p true "/bin/sleep 60 &" Hidle Hp).
Qed.

Lemma reachable_sigchld_exited SIGTSTP sh s p (code : Z) :
  reachable SIGTSTP sh s → 0 < p →
  reachable SIGTSTP sh
    {| globals := snd (deletejob sh (globals s) p); waiting := waiting s |}.
Proof.
  intros [v Hrun] Hp. exists v. eapply rtc_r; [exact Hrun|].
  apply (step_sigchld SIGTSTP sh s [(p, Exited code)]).
  simpl. by rewrite bool_decide_eq_true_2 by lia.
Qed.

(** Background jobs, then a job that exits, then background jobs again. *)
Lemma run_delete_run_reachable SIGTSTP s pids1 p pids2 :
  reachable SIGTSTP tsh s → waiting s = None →
  Forall (λ p, 0 < p) pids1 → 0 < p → Forall (λ p, 0 < p) pids2 →
  reachable SIGTSTP tsh
    (run_jobs_bg
       {| globals := snd (deletejob tsh (globals (run_jobs_bg s pids1)) p);
          waiting := waiting (run_jobs_bg s pids1) |}
       pids2).
Proof.
  intros Hrun Hidle Hpos1 Hp Hpos2.
  destruct (run_jobs_bg_reachable SIGTSTP pids1 s Hrun Hidle Hpos1) as [Hrun1 Hidle1].
  pose proof (reachable_sigchld_exited SIGTSTP tsh _ p 0 Hrun1 Hp) as Hrun2.
  by apply run_jobs_bg_reachable.
Qed.

Lemma wrapped_run_reachable SIGTSTP :
  ∃ s, reachable SIGTSTP tsh s ∧ jobs (globals s) = jobs (wrapped_run false).
Proof.
  assert (reachable SIGTSTP tsh (init_state tsh false)) as H0
    by (exists false; apply rtc_refl).
  assert (Forall (λ p, 0 < p) (Z.of_nat <$> seq 1 15)) as Hpos.
  { apply Forall_fmap, Forall_forall. intros n Hn%elem_of_seq. simpl. lia. }
  assert (Forall (λ p, 0 < p) [16; 17]) as Hpos' by (by repeat constructor).
  eexists. split.
  - exact (run_delete_run_reachable SIGTSTP _ _ 2 _ H0 eq_refl Hpos eq_refl Hpos').
  - vm_compute. reflexivity.
Qed.

(** ** Operations that no run of the handler interrupts *)

Section alone.
Variable SIGTSTP : Z.
Implicit Types (g : mem) (s : shell_state).

Lemma alter_insert {A} (f : A → A) (l : list A) i x :
  l !! i = Some x → alter f i l = <[i := f x]> l.
Proof.
  revert i. induction l as [|y l IH]; intros [|i] Hi; simplify_eq/=; [done|].
  by rewrite <- IH.
Qed.

Lemma store_insert i f g job :
  jobs g !! i = Some job → store i f g = set_jobs (<[i := f job]> (jobs g)) g.
Proof. intros Hi. unfold store. by rewrite (alter_insert f _ i job). Qed.

Lemma store_mk js n v out i f job :
  js !! i = Some job →
  store i f (mk_mem js n v out) = mk_mem (<[i := f job]> js) n v out.
Proof. intros Hi. by rewrite (store_insert i f (mk_mem js n v out) job Hi). Qed.

Lemma handler_runs_once sh reapable g g' :
  sigchld_handler SIGTSTP sh reapable g = Returns g' → handler_runs SIGTSTP sh g g'.
Proof. intros Hrun. apply rtc_once. by exists reapable. Qed.

(** The statements with no run of the handler among them. *)
Lemma interleaved_alone sh fs g :
  interleaved SIGTSTP sh fs g (foldl (λ g f, f g) g fs).
Proof.
  revert g. induction fs as [|f fs IH]; intros g; simpl.
  - apply interleaved_nil, rtc_refl.
  - eapply interleaved_cons; [apply rtc_refl|apply IH].
Qed.

(** [do_bgfg] is its lookup, its store and its end, one after the other. *)
Lemma do_bgfg_phases name arg g :
  do_bgfg name arg g
  = match bgfg_lookup name arg (jobs g) with
    | inl msg => {| globals := printf msg g; waiting := None |}
    | inr i => bgfg_finish name i (bgfg_store name i g)
    end.
Proof.
  assert (∀ i job, jobs g !! i = Some job →
            bgfg_finish name i (bgfg_store name i g)
            = let job_process := set_state (new_state_of name) job in
              let g := set_jobs (<[i := job_process]> (jobs g)) g in
              if bool_decide (new_state_of name = FG) then
                {| globals := g; waiting := waitfg_enter (jobs g) (pid job_process) |}
              else
                {| globals :=
                     printf (bg_msg (jid job_process) (pid job_process)
                               (cmdline job_process)) g;
                   waiting := None |}) as Hfinish.
  { intros i job Hi. unfold bgfg_finish, bgfg_store.
    rewrite (store_insert i _ g job Hi). simpl.
    rewrite list_lookup_insert_eq by (by eapply lookup_lt_Some). done. }
  unfold do_bgfg, bgfg_lookup. destruct arg as [|text n|p|]; [done| | |done].
  - destruct (getjobjid (jobs g) n) as [[i job]|] eqn:Hget; [|done].
    apply getjobjid_Some in Hget as (Hi & _). by rewrite (Hfinish i job Hi).
  - destruct (getjobpid (jobs g) p) as [[i job]|] eqn:Hget; [|done].
    apply getjobpid_Some in Hget as (Hi & _). by rewrite (Hfinish i job Hi).
Qed.

Lemma do_bgfg_step s name arg :
  waiting s = None → name = "bg" ∨ name = "fg" →
  step SIGTSTP tsh s (do_bgfg name arg (globals s)).
Proof.
  intros Hidle Hname. rewrite do_bgfg_phases.
  destruct (bgfg_lookup name arg (jobs (globals s))) as [msg|i] eqn:Hlookup.
  - by apply (step_bgfg_error SIGTSTP s name arg msg).
  - apply (step_bgfg SIGTSTP s name arg i); [done..|].
    apply (interleaved_alone tsh [bgfg_store name i]).
Qed.

(** The statements of [addjob] of [hfsh.cpp] are [addjob]. *)
Lemma addjob_stores_alone g i j0 p st cmd :
  1 ≤ p → list_find (λ j, pid j = 0) (jobs g) = Some (i, j0) →
  foldl (λ g f, f g) g (addjob_stores i p st cmd) = snd (addjob hfsh g p st cmd).
Proof.
  intros Hp Hfind. unfold addjob.
  rewrite bool_decide_eq_false_2 by lia. rewrite Hfind.
  apply list_find_Some in Hfind as (Hi & _ & _).
  pose proof (lookup_lt_Some _ _ _ Hi) as Hlt.
  destruct g as [js n v out]. simpl in Hi, Hlt.
  assert (∀ x, <[i := x]> js !! i = Some x) as Hix
    by (intros x; by apply list_lookup_insert_eq).
  unfold addjob_stores. cbn [foldl].
  rewrite (store_mk js n v out i _ j0 Hi).
  rewrite (store_mk _ n v out i _ _ (Hix _)), list_insert_insert_eq.
  cbn [nextjid]. rewrite (store_mk _ n v out i _ _ (Hix _)), list_insert_insert_eq.
  unfold set_nextjid at 3. cbn [jobs nextjid verbose stdout].
  case_bool_decide; unfold set_nextjid; cbn [jobs nextjid verbose stdout fst snd];
    rewrite (store_mk _ _ v out i _ _ (Hix _)), list_insert_insert_eq;
    simpl; unfold MAXJOBS in *; case_bool_decide; (done || lia).
Qed.

Lemma run_job_step_external s p mode cmd :
  waiting s = None → 0 < p →
  step SIGTSTP hfsh s (run_job hfsh (globals s) p mode cmd).
Proof.
  intros Hidle Hp.
  assert (run_job hfsh (globals s) p mode cmd
          = parent_tasks p mode cmd (snd (addjob hfsh (globals s) p mode cmd)))
    as -> by done.
  apply step_external; [done..|].
  exists (globals s). split; [apply rtc_refl|].
  destruct (list_find (λ j, pid j = 0) (jobs (globals s))) as [[i j0]|] eqn:Hfind.
  - rewrite <- (addjob_stores_alone _ i j0) by (done || lia).
    apply interleaved_alone.
  - unfold addjob. rewrite bool_decide_eq_false_2 by lia. rewrite Hfind.
    apply rtc_refl.
Qed.
End alone.

(** ** A child that exits inside [do_bgfg] *)

Section race.
Variable SIGTSTP : Z.

Lemma fg_race_0_reachable :
  reachable SIGTSTP tsh fg_race_0 ∧ waiting fg_race_0 = None.
Proof.
  apply run_jobs_bg_reachable; [|done|by repeat constructor].
  exists false. apply rtc_refl.
Qed.

Lemma fg_race_step_1 : step SIGTSTP tsh fg_race_0 fg_race_1.
Proof.
  apply (step_bgfg SIGTSTP fg_race_0 "fg" (arg_jid "%2" 2) 1); [done|by right|done|].
  eapply interleaved_cons; [|apply interleaved_nil, rtc_refl].
  by apply (handler_runs_once SIGTSTP tsh [(101, Exited 0)]).
Qed.

Lemma fg_race_step_2 : step SIGTSTP tsh fg_race_1 fg_race_2.
Proof. apply do_bgfg_step; [done|by right]. Qed.

Lemma fg_race_step_3 : step SIGTSTP tsh fg_race_2 fg_race_3.
Proof. by apply (step_waitfg SIGTSTP tsh fg_race_2 102). Qed.

Lemma fg_race_step_4 : step SIGTSTP tsh fg_race_3 fg_race_4.
Proof. by apply (step_eval SIGTSTP fg_race_3 103 false "/bin/cat"). Qed.
End race.

(** C1. [tsh.c] reaches a state with two occupied entries in state [FG].
    Three background jobs run, with pids 100, 101 and 102. On [fg %2] the
    job with pid 101 exits after [getjobjid] has returned its entry: the
    handler clears the entry, and [do_bgfg] stores [FG] into the cleared
    entry and calls [waitfg(0)], which returns. On [fg %3] the entry of pid
    102 is set to [FG] and [waitfg(102)] is entered; at its first test
    [fgpid] returns the pid of the first entry in state [FG], which is the
    cleared one, so the wait ends although the job with pid 102 is in state
    [FG]. The next foreground job, pid 103, is added into the cleared
    entry: the entries of pids 103 and 102 are both occupied and both in
    state [FG]. *)
Theorem fg_race_two_foreground SIGTSTP :
  reachable SIGTSTP tsh fg_race_4 ∧
  jobs (globals fg_race_1) !! 1%nat = Some (mk_job 0 0 FG "") ∧
  waiting fg_race_1 = None ∧
  waiting fg_race_2 = Some 102 ∧
  jobs (globals fg_race_3) !! 2%nat = Some (mk_job 102 3 FG "/bin/sleep 60 &") ∧
  waiting fg_race_3 = None ∧
  jobs (globals fg_race_4) !! 1%nat = Some (mk_job 103 4 FG "/bin/cat") ∧
  jobs (globals fg_race_4) !! 2%nat = Some (mk_job 102 3 FG "/bin/sleep 60 &") ∧
  count_fg (jobs (globals fg_race_4)) = 2%nat.
Proof.
  split; [|by vm_compute].
  destruct (fg_race_0_reachable SIGTSTP) as [[v Hrun] _]. exists v.
  eapply rtc_r; [|apply fg_race_step_4].
  eapply rtc_r; [|apply fg_race_step_3].
  eapply rtc_r; [|apply fg_race_step_2].
  eapply rtc_r; [|apply fg_race_step_1].
  exact Hrun.
Qed.

(** ** A child that exits inside [addjob] of [hfsh.cpp] *)

Section torn.
Variable SIGTSTP : Z.

Lemma addjob_race_jobs js nx v out i j0 p st cmd :
  0 < p → js !! i = Some j0 → Forall (λ j, pid j ≠ p) js →
  jobs (addjob_race (mk_mem js nx v out) i p st cmd)
  = <[i := mk_job 0 (maxjid (<[i := clearjob hfsh (set_pid p j0)]> js) + 1) st cmd]> js.
Proof.
  intros Hp Hi Hnew.
  pose proof (lookup_lt_Some _ _ _ Hi) as Hlt.
  assert (∀ x, <[i := x]> js !! i = Some x) as Hix
    by (intros x; by apply list_lookup_insert_eq).
  unfold addjob_race. rewrite (store_mk js nx v out i _ j0 Hi).
  rewrite (deletejob_found hfsh _ p i (set_pid p j0)); [|lia|].
  - simpl. rewrite list_insert_insert_eq.
    unfold set_nextjid, set_jobs, store. simpl.
    rewrite (alter_insert _ _ i _ (Hix _)), list_insert_insert_eq.
    rewrite (alter_insert _ _ i _ (Hix _)), list_insert_insert_eq.
    case_bool_decide; simpl;
      by rewrite (alter_insert _ _ i _ (Hix _)), list_insert_insert_eq.
  - simpl. apply find_first; [by apply Hix|done|].
    intros k jk Hk Hlook. rewrite list_lookup_insert_ne in Hlook by lia.
    by apply (Forall_lookup_1 _ _ _ _ Hnew Hlook).
Qed.

Lemma addjob_race_step s p mode cmd i j0 :
  waiting s = None → 0 < p →
  list_find (λ j, pid j = 0) (jobs (globals s)) = Some (i, j0) →
  step SIGTSTP hfsh s
    (parent_tasks p mode cmd (addjob_race (globals s) i p mode cmd)).
Proof.
  intros Hidle Hp Hfind. apply step_external; [done..|].
  exists (globals s). split; [apply rtc_refl|]. rewrite Hfind.
  eapply interleaved_cons; [apply rtc_refl|].
  eapply interleaved_cons.
  - apply (handler_runs_once SIGTSTP hfsh [(p, Exited 0)]).
    simpl. by rewrite bool_decide_eq_true_2 by lia.
  - apply (interleaved_alone SIGTSTP hfsh
             (drop 2 (addjob_stores i p mode cmd))).
Qed.
End torn.

(** X25. [hfsh.cpp] blocks no signal around [fork] and [addjob]. When the
    pid is new to the table and the child exits just after [addjob] has
    stored [jobs[i].pid], the handler clears the entry that [addjob] is
    filling, and [addjob] goes on with its stores: the entry is left with
    pid 0, so it counts as free, and with the state, a positive job id and
    the command line of the job; every other entry is as it was, and
    [parent_tasks] does not wait, whatever the mode. *)
Theorem addjob_torn_by_exit SIGTSTP s p mode cmd i j0 :
  waiting s = None → 0 < p →
  list_find (λ j, pid j = 0) (jobs (globals s)) = Some (i, j0) →
  Forall (λ j, pid j ≠ p) (jobs (globals s)) →
  step SIGTSTP hfsh s
    (parent_tasks p mode cmd (addjob_race (globals s) i p mode cmd)) ∧
  waiting (parent_tasks p mode cmd (addjob_race (globals s) i p mode cmd)) = None ∧
  ∃ n, 1 ≤ n ∧
    jobs (addjob_race (globals s) i p mode cmd)
    = <[i := mk_job 0 n mode cmd]> (jobs (globals s)).
Proof.
  intros Hidle Hp Hfind Hnew.
  split; [by apply (addjob_race_step SIGTSTP s p mode cmd i j0)|].
  apply list_find_Some in Hfind as (Hi & _ & _).
  destruct s as [[js nx v out] w]. simpl in *.
  pose proof (addjob_race_jobs js nx v out i j0 p mode cmd Hp Hi Hnew) as Hjobs.
  split.
  - unfold parent_tasks. case_bool_decide; cbn [waiting]; [|done].
    unfold waitfg_enter, getjobpid.
    rewrite (bool_decide_eq_false_2 (p = 0)) by lia.
    rewrite (bool_decide_eq_false_2 (p < 1)) by lia.
    rewrite Hjobs, find_absent; [done|].
    apply Forall_insert; [done|]. simpl. lia.
  - eexists. split; [|exact Hjobs].
    pose proof (maxjid_nonneg (<[i := clearjob hfsh (set_pid p j0)]> js)). lia.
Qed.

(** The first command of a session, [/bin/true] in the foreground. *)
Lemma addjob_torn_by_exit_witness :
  Forall (λ j, pid j ≠ 100) (jobs (init_mem hfsh false)) ∧
  step 20 hfsh (init_state hfsh false)
    (parent_tasks 100 FG " /bin/true"
       (addjob_race (init_mem hfsh false) 0 100 FG " /bin/true")) ∧
  jobs (addjob_race (init_mem hfsh false) 0 100 FG " /bin/true") !! 0%nat
  = Some (mk_job 0 1 FG " /bin/true").
Proof.
  assert (Forall (λ j, pid j ≠ 100) (jobs (init_mem hfsh false))) as Hnew
    by (apply Forall_replicate; simpl; lia).
  split; [exact Hnew|]. split; [|reflexivity].
  exact (proj1 (addjob_torn_by_exit 20 (init_state hfsh false) 100 FG " /bin/true"
                  0%nat free_job eq_refl eq_refl eq_refl Hnew)).
Defined.

(** * Further properties of the job list *)

Section shape.
Variable SIGTSTP : Z.
Implicit Types (g : mem) (p st : Z).

Lemma init_table_ok sh v : table_ok sh (init_mem sh v).
Proof.
  unfold table_ok, init_mem, initjobs. simpl. rewrite length_replicate.
  split_and!; [done|lia|]. apply Forall_replicate. by left.
Qed.

Lemma addjob_table_ok sh g p st cmd :
  table_ok sh g → table_ok sh (snd (addjob sh g p st cmd)).
Proof.
  intros (Hlen & Hnext & Hshape). unfold table_ok.
  destruct (addjob_jobs sh g p st cmd)
    as [[-> ->]|(i & j0 & Hp & _ & -> & ->)]; [done|].
  rewrite length_insert. split_and!; [done|by case_bool_decide; lia|].
  apply Forall_insert; [done|]. right. simpl. lia.
Qed.

Lemma deletejob_table_ok sh g p :
  table_ok sh g → table_ok sh (snd (deletejob sh g p)).
Proof.
  intros (Hlen & Hnext & Hshape). unfold table_ok.
  destruct (deletejob_cases sh g p) as [->|(i & job & _ & _ & ->)]; [done|].
  simpl. rewrite length_insert. split_and!; [done| |].
  - pose proof (maxjid_nonneg (<[i := clearjob sh job]> (jobs g))). lia.
  - apply Forall_insert; [done|]. by left.
Qed.

Lemma handler_table_ok sh reapable g g' :
  table_ok sh g → sigchld_handler SIGTSTP sh reapable g = Returns g' →
  table_ok sh g'.
Proof.
  intros (Hlen & Hnext & Hshape) Hrun. unfold table_ok.
  destruct (sigchld_handler_ok SIGTSTP sh entry_ok reapable g g')
    as (Hshape' & _ & Hlen' & Hnext'); [|by left|done|done|].
  - intros j Hj Hpid. by apply set_state_ok.
  - split_and!; [congruence|auto|done].
Qed.

Lemma do_bgfg_table_ok sh name arg g :
  table_ok sh g → table_ok sh (globals (do_bgfg name arg g)).
Proof.
  intros (Hlen & Hnext & Hshape). unfold do_bgfg.
  set (lookup := match arg with
                 | arg_none => _ | arg_jid _ _ => _ | arg_pid _ => _ | arg_other => _
                 end).
  assert (match lookup with
          | inl _ => True
          | inr (i, job) => jobs g !! i = Some job ∧ 1 ≤ pid job
          end) as Hlookup.
  { subst lookup. destruct arg as [|text n|p|]; [done| | |done].
    - destruct (getjobjid (jobs g) n) as [[i job]|] eqn:Hget; [|done].
      apply getjobjid_Some in Hget as (Hi & Hjid & Hn). split; [done|].
      destruct (Forall_lookup_1 _ _ _ _ Hshape Hi) as [(_ & ? & _)|[? _]]; lia.
    - destruct (getjobpid (jobs g) p) as [[i job]|] eqn:Hget; [|done].
      apply getjobpid_Some in Hget as (Hi & Hpid & Hp). split; [done|lia]. }
  destruct lookup as [msg|[i job]]; [done|].
  destruct Hlookup as [Hi Hpid].
  pose proof (Forall_lookup_1 _ _ _ _ Hshape Hi) as Hjob.
  unfold table_ok. case_bool_decide; simpl; rewrite length_insert.
  all: split_and!; [done..|]; apply Forall_insert; [done|]; by apply set_state_ok.
Qed.
End shape.

(** X1. The shape of the job list: [MAXJOBS] entries, a positive counter,
    and every entry either free, with pid 0, job id 0 and state [UNDEF], or
    occupied, with a positive pid and a positive job id. The table has this
    shape at the start, and each operation on it that runs from its first
    statement to its last with no run of the handler in between keeps it:
    [addjob], [deletejob], a run of [sigchld_handler] that returns, and
    [do_bgfg]. *)
Theorem table_shape_kept SIGTSTP sh v g :
  table_ok sh (init_mem sh v) ∧
  (table_ok sh g →
   (∀ p st cmd, table_ok sh (snd (addjob sh g p st cmd))) ∧
   (∀ p, table_ok sh (snd (deletejob sh g p))) ∧
   (∀ reapable g',
      sigchld_handler SIGTSTP sh reapable g = Returns g' → table_ok sh g') ∧
   (∀ name arg, table_ok sh (globals (do_bgfg name arg g)))).
Proof.
  split; [apply init_table_ok|]. intros Hg. split_and!.
  - intros p st cmd. by apply addjob_table_ok.
  - intros p. by apply deletejob_table_ok.
  - intros reapable g'. by apply handler_table_ok.
  - intros name arg. by apply do_bgfg_table_ok.
Qed.

Section lookups.
Implicit Types (js : list job_t) (g : mem) (p st : Z) (cmd : string).

Lemma getjobpid_find js p :
  1 ≤ p → getjobpid js p = list_find (λ j, pid j = p) js.
Proof. intros. unfold getjobpid. by rewrite bool_decide_eq_false_2 by lia. Qed.

Lemma pid2jid_find js p :
  1 ≤ p →
  pid2jid js p = match list_find (λ j, pid j = p) js with
                 | Some (_, job) => jid job
                 | None => 0
                 end.
Proof. intros. unfold pid2jid. by rewrite bool_decide_eq_false_2 by lia. Qed.
End lookups.

(** [addjob] with a pid that no entry holds keeps the positive pids of the
    table distinct. *)
Lemma addjob_pids_distinct sh g p st cmd :
  pids_distinct (jobs g) → Forall (λ j, pid j ≠ p) (jobs g) →
  pids_distinct (jobs (snd (addjob sh g p st cmd))).
Proof.
  intros Hdist Hnew.
  destruct (addjob_jobs sh g p st cmd) as [[-> _]|(i & j0 & _ & Hfind & -> & _)];
    [done|].
  apply list_find_Some in Hfind as (Hi & _ & _).
  pose proof (lookup_lt_Some _ _ _ Hi) as Hlt.
  rewrite Forall_lookup in Hnew.
  intros q Hq i1 i2 j1 j2 H1 H2 Hp1 Hp2.
  apply list_lookup_insert_Some in H1 as [(-> & <- & _)|[Hne1 H1]];
    apply list_lookup_insert_Some in H2 as [(-> & <- & _)|[Hne2 H2]];
    simpl in *; [done|..].
  - subst q. by destruct (Hnew i2 j2 H2).
  - subst q. by destruct (Hnew i1 j1 H1).
  - by apply (Hdist q Hq i1 i2 j1 j2).
Qed.

Lemma initjobs_pids_distinct sh : pids_distinct (initjobs sh).
Proof.
  intros p Hp i1 i2 j1 j2 H1 _ Hp1 _.
  apply list_elem_of_lookup_2, elem_of_replicate in H1 as [-> _].
  simpl in Hp1. lia.
Qed.

(** The sample tables hold each pid once and each job id once. *)
Lemma two_jobs_pids_distinct : pids_distinct (jobs two_jobs).
Proof.
  apply addjob_pids_distinct; [apply addjob_pids_distinct|].
  - apply initjobs_pids_distinct.
  - apply Forall_replicate. simpl. lia.
  - apply (bool_decide_unpack _). vm_compute. exact I.
Qed.

(** X2. A job that [addjob] has entered is found again: when the pid is
    positive, no entry holds it yet and some entry is free, [getjobpid]
    returns the entry that [addjob] wrote, with the old value of the counter
    as job id, and [pid2jid] returns that id. *)
Theorem addjob_then_lookup sh g p st cmd :
  0 < p → Forall (λ j, pid j ≠ p) (jobs g) → Exists (λ j, pid j = 0) (jobs g) →
  fst (addjob sh g p st cmd) = 1 ∧
  (∃ i, getjobpid (jobs (snd (addjob sh g p st cmd))) p
        = Some (i, mk_job p (nextjid g) st cmd)) ∧
  pid2jid (jobs (snd (addjob sh g p st cmd))) p = nextjid g.
Proof.
  intros Hp Hnew Hfree.
  apply Exists_exists in Hfree as (j0 & Hin & Hj0).
  destruct (list_find_elem_of (λ j, pid j = 0) (jobs g) j0 Hin Hj0) as [[i j1] Hfind].
  destruct (addjob_found sh g p st cmd i j1) as (Hret & Hjs & _); [lia|done|].
  apply list_find_Some in Hfind as (Hi & _ & _).
  assert (list_find (λ j, pid j = p) (jobs (snd (addjob sh g p st cmd)))
          = Some (i, mk_job p (nextjid g) st cmd)) as Hfound.
  { rewrite Hjs. apply find_first; [|done|].
    - apply list_lookup_insert_eq. by eapply lookup_lt_Some.
    - intros k jk Hk Hlook. rewrite list_lookup_insert_ne in Hlook by lia.
      rewrite Forall_forall in Hnew. apply Hnew.
      by eapply list_elem_of_lookup_2. }
  split_and!; [done| |].
  - exists i. by rewrite getjobpid_find by lia.
  - rewrite pid2jid_find by lia. by rewrite Hfound.
Qed.

Lemma addjob_then_lookup_witness :
  0 < 100 ∧
  pid2jid (jobs (snd (addjob tsh (init_mem tsh false) 100 BG "/bin/ls &"))) 100
  = nextjid (init_mem tsh false).
Proof.
  split; [lia|].
  refine (proj2 (proj2 (addjob_then_lookup tsh (init_mem tsh false) 100 BG "/bin/ls &"
                          eq_refl _ _))).
  - apply Forall_replicate. simpl. lia.
  - apply Exists_cons_hd. reflexivity.
Defined.

(** X3. A job that [deletejob] has removed is not found any more: when at
    most one entry holds the pid, after [deletejob] neither [getjobpid] nor
    [pid2jid] finds the pid. *)
Theorem deletejob_then_lookup sh g p :
  held_once (jobs g) p →
  getjobpid (jobs (snd (deletejob sh g p))) p = None ∧
  pid2jid (jobs (snd (deletejob sh g p))) p = 0.
Proof.
  intros Honce.
  destruct (decide (p < 1)) as [Hp|Hp].
  { unfold getjobpid, pid2jid. by rewrite !bool_decide_eq_true_2. }
  assert (list_find (λ j, pid j = p) (jobs (snd (deletejob sh g p))) = None)
    as Hgone.
  { apply list_find_None, Forall_lookup. intros k jk Hk Hpid.
    destruct (deletejob_cases sh g p) as [Hsame|(i & job & _ & Hfind & Hdel)].
    - rewrite Hsame in Hk. simpl in Hk.
      unfold deletejob in Hsame. rewrite bool_decide_eq_false_2 in Hsame by done.
      destruct (list_find _ (jobs g)) as [[i job]|] eqn:Hfind; [done|].
      apply list_find_None in Hfind. rewrite Forall_lookup in Hfind.
      by apply (Hfind k jk).
    - rewrite Hdel in Hk. simpl in Hk.
      apply list_find_Some in Hfind as (Hi & Hjob & _).
      destruct (decide (i = k)) as [->|Hne].
      + rewrite list_lookup_insert_eq in Hk by (by eapply lookup_lt_Some).
        simplify_eq/=; lia.
      + rewrite list_lookup_insert_ne in Hk by done.
        by pose proof (Honce i k job jk Hi Hk Hjob Hpid). }
  split.
  - rewrite getjobpid_find by lia. done.
  - rewrite pid2jid_find by lia. by rewrite Hgone.
Qed.

(** The job with pid 100 is removed from a table that holds two jobs. *)
Lemma deletejob_then_lookup_witness :
  held_once (jobs two_jobs) 100 ∧
  getjobpid (jobs two_jobs) 100 = Some (0%nat, mk_job 100 1 BG "/bin/sleep 60 &") ∧
  fst (deletejob tsh two_jobs 100) = 1 ∧
  getjobpid (jobs (snd (deletejob tsh two_jobs 100))) 100 = None ∧
  pid2jid (jobs (snd (deletejob tsh two_jobs 100))) 100 = 0.
Proof.
  assert (held_once (jobs two_jobs) 100) as Honce
    by (by apply two_jobs_pids_distinct).
  split; [exact Honce|]. split; [reflexivity|]. split; [reflexivity|].
  exact (deletejob_then_lookup tsh two_jobs 100 Honce).
Defined.

Lemma addjob_jids_distinct sh g p st cmd :
  jids_distinct (jobs g) → maxjid (jobs g) < nextjid g →
  jids_distinct (jobs (snd (addjob sh g p st cmd))).
Proof.
  intros Hdist Hmax.
  destruct (addjob_jobs sh g p st cmd) as [[-> _]|(i & j0 & _ & Hfind & -> & _)];
    [done|].
  apply list_find_Some in Hfind as (Hi & _ & _).
  pose proof (lookup_lt_Some _ _ _ Hi) as Hlt.
  assert (∀ k jk, jobs g !! k = Some jk → jid jk ≠ nextjid g) as Hfresh.
  { intros k jk Hk. apply list_elem_of_lookup_2, maxjid_upper in Hk. lia. }
  intros i1 i2 j1 j2 H1 H2 Hp1 Hp2 Heq.
  destruct (decide (i1 = i)) as [->|Hne1], (decide (i2 = i)) as [->|Hne2]; [done|..].
  - rewrite list_lookup_insert_eq in H1 by done.
    rewrite list_lookup_insert_ne in H2 by done.
    simplify_eq/=. by destruct (Hfresh i2 j2 H2).
  - rewrite list_lookup_insert_ne in H1 by done.
    rewrite list_lookup_insert_eq in H2 by done.
    simplify_eq/=. by destruct (Hfresh i1 j1 H1).
  - rewrite list_lookup_insert_ne in H1, H2 by done.
    by apply (Hdist i1 i2 j1 j2).
Qed.

(** X4. As long as the counter is above every job id of the table, [addjob]
    hands out an id that no occupied entry holds: a table without repeated
    ids stays one. *)
Theorem addjob_keeps_jids_distinct sh g p st cmd :
  jids_distinct (jobs g) → maxjid (jobs g) < nextjid g →
  jids_distinct (jobs (snd (addjob sh g p st cmd))).
Proof. apply addjob_jids_distinct. Qed.

Lemma two_jobs_jids_distinct : jids_distinct (jobs two_jobs).
Proof.
  apply addjob_jids_distinct; [apply addjob_jids_distinct|]; [|done..].
  intros i1 i2 j1 j2 H1 _ Hp _.
  apply list_elem_of_lookup_2, elem_of_replicate in H1 as [-> _]. done.
Qed.

(** A third job is added to a table that holds the job ids 1 and 2. *)
Lemma addjob_keeps_jids_distinct_witness :
  jids_distinct (jobs two_jobs) ∧
  maxjid (jobs two_jobs) = 2 ∧ nextjid two_jobs = 3 ∧
  fst (addjob tsh two_jobs 102 BG "/bin/ls &") = 1 ∧
  jids_distinct (jobs (snd (addjob tsh two_jobs 102 BG "/bin/ls &"))).
Proof.
  split; [exact two_jobs_jids_distinct|]. do 3 (split; [reflexivity|]).
  exact (addjob_keeps_jids_distinct tsh two_jobs 102 BG "/bin/ls &"
           two_jobs_jids_distinct eq_refl).
Defined.

(** X5. [deletejob] keeps a table without repeated ids one, and after a
    removal the counter is above every job id of the table again, so that the
    next [addjob] hands out an id that is not in use. *)
Theorem deletejob_keeps_jids_distinct sh g p :
  jids_distinct (jobs g) →
  jids_distinct (jobs (snd (deletejob sh g p))) ∧
  (fst (deletejob sh g p) = 1 →
   maxjid (jobs (snd (deletejob sh g p))) < nextjid (snd (deletejob sh g p)) ∧
   ∀ q st cmd,
     jids_distinct (jobs (snd (addjob sh (snd (deletejob sh g p)) q st cmd)))).
Proof.
  intros Hdist.
  assert (jids_distinct (jobs (snd (deletejob sh g p)))) as Hdist'.
  { destruct (deletejob_cases sh g p) as [->|(i & job & _ & Hfind & ->)]; [done|].
    simpl. intros i1 i2 j1 j2 H1 H2 Hp1 Hp2 Heq.
    destruct (decide (i1 = i)) as [->|Hne1].
    { apply list_lookup_insert_Some in H1 as [(_ & <- & _)|[? _]]; done. }
    destruct (decide (i2 = i)) as [->|Hne2].
    { apply list_lookup_insert_Some in H2 as [(_ & <- & _)|[? _]]; done. }
    rewrite list_lookup_insert_ne in H1, H2 by done.
    by apply (Hdist i1 i2 j1 j2). }
  split; [done|]. intros Hret.
  assert (maxjid (jobs (snd (deletejob sh g p))) < nextjid (snd (deletejob sh g p)))
    as Hmax.
  { destruct (deletejob_cases sh g p) as [Hnone|(i & job & _ & _ & ->)].
    - rewrite Hnone in Hret. done.
    - simpl. lia. }
  split; [done|]. intros q st cmd. by apply addjob_jids_distinct.
Qed.

(** The job with pid 101, job id 2, is removed from a table that holds two
    jobs: the removal succeeds, and the counter goes from 3 to 2. *)
Lemma deletejob_keeps_jids_distinct_witness :
  jids_distinct (jobs two_jobs) ∧
  fst (deletejob tsh two_jobs 101) = 1 ∧
  jids_distinct (jobs (snd (deletejob tsh two_jobs 101))) ∧
  maxjid (jobs (snd (deletejob tsh two_jobs 101)))
  < nextjid (snd (deletejob tsh two_jobs 101)) ∧
  jids_distinct
    (jobs (snd (addjob tsh (snd (deletejob tsh two_jobs 101)) 102 BG "/bin/ls &"))).
Proof.
  split; [exact two_jobs_jids_distinct|]. split; [reflexivity|].
  destruct (deletejob_keeps_jids_distinct tsh two_jobs 101 two_jobs_jids_distinct)
    as [Hdist Hafter].
  split; [exact Hdist|].
  destruct (Hafter eq_refl) as [Hmax Hadd].
  split; [exact Hmax|]. exact (Hadd 102 BG "/bin/ls &").
Defined.

(** With at most one entry in state [FG], [fgpid] returns the pid of that
    entry. *)
Lemma fgpid_unique js i j :
  (count_fg js ≤ 1)%nat → js !! i = Some j → state j = FG → fgpid js = pid j.
Proof.
  intros Hcount Hi Hst. unfold fgpid.
  destruct (list_find (λ j, state j = FG) js) as [[k j']|] eqn:Hfind.
  - apply list_find_Some in Hfind as (Hk & Hst' & _).
    destruct (Nat.lt_trichotomy k i) as [Hlt|[->|Hgt]]; [|congruence|].
    + pose proof (count_fg_two js k i j' j Hlt Hk Hi Hst' Hst). lia.
    + pose proof (count_fg_two js i k j j' Hgt Hi Hk Hst Hst'). lia.
  - apply list_find_None in Hfind. rewrite Forall_lookup in Hfind.
    by destruct (Hfind i j Hi).
Qed.

(** X6. On a table with at most one entry in state [FG], where an entry in
    state [FG] holds a positive pid, [fgpid] returns the pid of the entry in
    state [FG] when there is one, and it returns 0 exactly when no entry is
    in state [FG]. *)
Theorem fgpid_is_the_foreground_job js :
  (count_fg js ≤ 1)%nat → Forall (λ j, state j = FG → 1 ≤ pid j) js →
  (∀ i j, js !! i = Some j → state j = FG → fgpid js = pid j) ∧
  (fgpid js = 0 ↔ Forall (λ j, state j ≠ FG) js).
Proof.
  intros Hcount Hpos. split; [intros i j; by apply fgpid_unique|]. split.
  - intros Hzero. apply Forall_lookup. intros i j Hi Hst.
    pose proof (fgpid_unique js i j Hcount Hi Hst) as Hfg.
    pose proof (Forall_lookup_1 _ _ _ _ Hpos Hi Hst). lia.
  - intros Hnone. unfold fgpid.
    by rewrite (find_absent (λ j, state j = FG) _ Hnone).
Qed.

(** Two background jobs and the foreground job with pid 102. *)
Lemma fgpid_is_the_foreground_job_witness :
  (count_fg (jobs with_foreground) ≤ 1)%nat ∧
  Forall (λ j, state j = FG → 1 ≤ pid j) (jobs with_foreground) ∧
  jobs with_foreground !! 2%nat = Some (mk_job 102 3 FG "/bin/cat") ∧
  fgpid (jobs with_foreground) = 102.
Proof.
  assert (count_fg (jobs with_foreground) ≤ 1)%nat as Hcount
    by (vm_compute; lia).
  assert (Forall (λ j, state j = FG → 1 ≤ pid j) (jobs with_foreground)) as Hpos
    by (apply (bool_decide_unpack _); vm_compute; exact I).
  split; [exact Hcount|]. split; [exact Hpos|]. split; [reflexivity|].
  exact (proj1 (fgpid_is_the_foreground_job (jobs with_foreground) Hcount Hpos)
           2%nat (mk_job 102 3 FG "/bin/cat") eq_refl eq_refl).
Defined.

(** X7. On a table with at most one entry in state [FG], one test of the
    loop of [waitfg(pid)], for a positive pid, keeps the flow in the loop
    exactly when an entry in state [FG] holds that pid, and lets it leave
    exactly when no entry in state [FG] holds it. *)
Theorem waitfg_waits_for_foreground_pid js p :
  (count_fg js ≤ 1)%nat → 1 ≤ p →
  (waitfg_poll js p = Some p ↔
   ∃ i j, js !! i = Some j ∧ state j = FG ∧ pid j = p) ∧
  (waitfg_poll js p = None ↔
   ∀ i j, js !! i = Some j → state j = FG → pid j ≠ p).
Proof.
  intros Hcount Hp.
  assert (p = fgpid js ↔ ∃ i j, js !! i = Some j ∧ state j = FG ∧ pid j = p)
    as Hfg.
  { split.
    - intros Heq. unfold fgpid in Heq.
      destruct (list_find (λ j, state j = FG) js) as [[k j]|] eqn:Hfind; [|lia].
      apply list_find_Some in Hfind as (Hk & Hst & _). by exists k, j.
    - intros (i & j & Hi & Hst & <-). symmetry. by apply (fgpid_unique js i j). }
  unfold waitfg_poll. split.
  - rewrite <- Hfg. by case_bool_decide.
  - case_bool_decide as Hpoll.
    + split; [done|]. intros Hnone. apply Hfg in Hpoll as (i & j & Hi & Hst & Hpid).
      by destruct (Hnone i j Hi Hst).
    + split; [|done]. intros _ i j Hi Hst Hpid. apply Hpoll, Hfg. by exists i, j.
Qed.

(** Inside [waitfg(102)] with the job in the foreground, and inside
    [waitfg(101)] for a job that is in the background. *)
Lemma waitfg_waits_for_foreground_pid_witness :
  (count_fg (jobs with_foreground) ≤ 1)%nat ∧
  waitfg_poll (jobs with_foreground) 102 = Some 102 ∧
  waitfg_poll (jobs with_foreground) 101 = None ∧
  (waitfg_poll (jobs with_foreground) 102 = Some 102 ↔
   ∃ i j, jobs with_foreground !! i = Some j ∧ state j = FG ∧ pid j = 102).
Proof.
  assert (count_fg (jobs with_foreground) ≤ 1)%nat as Hcount
    by (vm_compute; lia).
  split; [exact Hcount|]. split; [reflexivity|]. split; [reflexivity|].
  exact (proj1 (waitfg_waits_for_foreground_pid (jobs with_foreground) 102
                  Hcount ltac:(lia))).
Defined.

(** * Further properties of the handler and of [bg]/[fg] *)

Section reaping.
Variable SIGTSTP : Z.
Implicit Types (js : list job_t) (g : mem) (p : Z).

(** One child: an entry that holds another pid is left as it is. *)
Lemma sigchld_reap_frame sh g p status g' i j :
  sigchld_reap SIGTSTP sh g p status = Returns g' →
  jobs g !! i = Some j → pid j ≠ p → jobs g' !! i = Some j.
Proof.
  intros Hreap Hi Hpid.
  assert (∀ g0, jobs g0 = jobs g →
            jobs (snd (deletejob sh g0 p)) !! i = Some j) as Hdel.
  { intros g0 Hjs.
    destruct (deletejob_cases sh g0 p) as [->|(k & job & _ & Hfind & ->)];
      simpl; rewrite Hjs in *; [done|].
    apply list_find_Some in Hfind as (Hk & Hjob & _).
    rewrite list_lookup_insert_ne; [done|]. intros ->. congruence. }
  unfold sigchld_reap in Hreap. destruct status as [code|sig|sig]; simpl in Hreap.
  - simplify_eq. by apply Hdel.
  - destruct (getjobpid (jobs g) p) as [[k job]|]; [|done]. simplify_eq.
    by apply Hdel.
  - destruct (getjobpid (jobs g) p) as [[k job]|] eqn:Hget; [|done].
    apply getjobpid_Some in Hget as (Hk & Hjob & _). simplify_eq. simpl.
    rewrite list_lookup_insert_ne; [done|]. intros ->. congruence.
Qed.

(** One child: an occupied entry of the table after the handler was at the
    same place, with the same pid, before. *)
Lemma sigchld_reap_origin sh g p status g' i j' :
  sigchld_reap SIGTSTP sh g p status = Returns g' →
  jobs g' !! i = Some j' → pid j' ≠ 0 →
  ∃ j, jobs g !! i = Some j ∧ pid j = pid j'.
Proof.
  intros Hreap Hi Hpid.
  assert (∀ g0, jobs g0 = jobs g →
            jobs (snd (deletejob sh g0 p)) !! i = Some j' →
            ∃ j, jobs g !! i = Some j ∧ pid j = pid j') as Hdel.
  { intros g0 Hjs Hlook.
    destruct (deletejob_cases sh g0 p) as [Heq|(k & job & _ & _ & Heq)];
      rewrite Heq in Hlook; simpl in Hlook; rewrite Hjs in Hlook; [by eauto|].
    apply list_lookup_insert_Some in Hlook as [(_ & <- & _)|[_ ?]]; [done|by eauto]. }
  unfold sigchld_reap in Hreap. destruct status as [code|sig|sig]; simpl in Hreap.
  - simplify_eq. by apply (Hdel g).
  - destruct (getjobpid (jobs g) p) as [[k job]|]; [|done]. simplify_eq.
    eapply Hdel; [|exact Hi]. done.
  - destruct (getjobpid (jobs g) p) as [[k job]|] eqn:Hget; [|done].
    apply getjobpid_Some in Hget as (Hk & _ & _). simplify_eq. simpl in Hi.
    apply list_lookup_insert_Some in Hi as [(-> & <- & _)|[_ ?]]; by eauto.
Qed.

Lemma sigchld_reap_pids_distinct sh g p status g' :
  sigchld_reap SIGTSTP sh g p status = Returns g' →
  pids_distinct (jobs g) → pids_distinct (jobs g').
Proof.
  intros Hreap Hdist q Hq i1 i2 j1 j2 H1 H2 Hp1 Hp2.
  destruct (sigchld_reap_origin sh g p status g' i1 j1 Hreap H1) as (k1 & ? & ?);
    [lia|].
  destruct (sigchld_reap_origin sh g p status g' i2 j2 Hreap H2) as (k2 & ? & ?);
    [lia|].
  apply (Hdist q Hq i1 i2 k1 k2); congruence.
Qed.

(** After [deletejob], a pid that one entry at most held is held by none. *)
Lemma deletejob_absent_after sh g p :
  0 < p → held_once (jobs g) p →
  Forall (λ j, pid j ≠ p) (jobs (snd (deletejob sh g p))).
Proof.
  intros Hp Honce. apply Forall_lookup. intros k jk Hk Hpid.
  destruct (deletejob_cases sh g p) as [Hsame|(i & job & _ & Hfind & Hdel)].
  - rewrite Hsame in Hk. simpl in Hk.
    unfold deletejob in Hsame. rewrite bool_decide_eq_false_2 in Hsame by lia.
    destruct (list_find _ (jobs g)) as [[i job]|] eqn:Hfind; [done|].
    apply list_find_None in Hfind. rewrite Forall_lookup in Hfind.
    by apply (Hfind k jk).
  - rewrite Hdel in Hk. simpl in Hk.
    apply list_find_Some in Hfind as (Hi & Hjob & _).
    apply list_lookup_insert_Some in Hk as [(_ & <- & _)|[Hne Hk]]; [simpl in Hpid; lia|].
    by pose proof (Honce i k job jk Hi Hk Hjob Hpid).
Qed.

(** One child that exited or was killed: its pid is gone from the table. *)
Lemma sigchld_reap_removes sh g p status g' :
  0 < p → WIFSTOPPED status = false → held_once (jobs g) p →
  sigchld_reap SIGTSTP sh g p status = Returns g' →
  Forall (λ j, pid j ≠ p) (jobs g').
Proof.
  intros Hp Hterm Honce Hreap.
  unfold sigchld_reap in Hreap. destruct status as [code|sig|sig]; simpl in Hreap;
    [| |done].
  - simplify_eq. by apply deletejob_absent_after.
  - destruct (getjobpid (jobs g) p) as [[k job]|]; [|done]. simplify_eq.
    by apply (deletejob_absent_after sh (printf _ g)).
Qed.
End reaping.

(** X8. A run of the handler leaves every entry whose pid is not among the
    pids that [waitpid] reported exactly as it was, and keeps the table at
    its length. *)
Theorem sigchld_touches_reaped_only SIGTSTP sh reapable g g' :
  sigchld_handler SIGTSTP sh reapable g = Returns g' →
  length (jobs g') = length (jobs g) ∧
  ∀ i j, jobs g !! i = Some j → pid j ∉ (fst <$> reapable) →
         jobs g' !! i = Some j.
Proof.
  intros Hrun. split.
  { by destruct (sigchld_handler_ok SIGTSTP sh (λ _, True) reapable g g')
      as (_ & _ & ? & _); [done|done|done|by apply Forall_true|]. }
  revert g Hrun. induction reapable as [|[p status] rest IH]; intros g Hrun i j Hi Hnot;
    simpl in Hrun.
  { by simplify_eq. }
  case_bool_decide; [|by simplify_eq].
  destruct (sigchld_reap SIGTSTP sh g p status) as [g1|] eqn:Hreap; [|done].
  rewrite fmap_cons, not_elem_of_cons in Hnot. destruct Hnot as [Hne Hnot]. simpl in Hne.
  apply (IH g1 Hrun); [|done].
  by apply (sigchld_reap_frame SIGTSTP sh g p status g1).
Qed.

Lemma sigchld_touches_reaped_only_witness :
  sigchld_handler 20 tsh [(100, Exited 0)]
    (snd (addjob tsh (init_mem tsh false) 100 BG "/bin/ls &"))
  = Returns (snd (deletejob tsh (snd (addjob tsh (init_mem tsh false) 100 BG "/bin/ls &")) 100)) ∧
  length (jobs (snd (deletejob tsh (snd (addjob tsh (init_mem tsh false) 100 BG "/bin/ls &")) 100)))
  = length (jobs (snd (addjob tsh (init_mem tsh false) 100 BG "/bin/ls &"))).
Proof.
  split; [reflexivity|].
  exact (proj1 (sigchld_touches_reaped_only 20 tsh [(100, Exited 0)] _ _ eq_refl)).
Defined.

(** X9. A run of the handler that returns removes every child that
    [waitpid] reported to it as exited or killed, however many there are:
    when the positive pids of the table are held once each, none of the
    reported pids is found in the table after the run. *)
Theorem sigchld_removes_all_terminated SIGTSTP sh reapable g g' :
  Forall (λ r, 0 < fst r ∧ WIFSTOPPED (snd r) = false) reapable →
  pids_distinct (jobs g) →
  sigchld_handler SIGTSTP sh reapable g = Returns g' →
  ∀ p, p ∈ (fst <$> reapable) →
       getjobpid (jobs g') p = None ∧ pid2jid (jobs g') p = 0.
Proof.
  intros Hterm Hdist Hrun p Hin.
  assert (0 < p) as Hp.
  { apply list_elem_of_fmap in Hin as ([q status] & -> & Hin).
    rewrite Forall_forall in Hterm. by destruct (Hterm _ Hin). }
  assert (Forall (λ j, pid j ≠ p) (jobs g')) as Hgone.
  { revert g Hdist Hrun.
    induction reapable as [|[q status] rest IH]; intros g Hdist Hrun;
      [by apply elem_of_nil in Hin|].
    apply Forall_cons in Hterm as [[Hq Hstatus] Hterm]. simpl in Hq, Hstatus.
    simpl in Hrun. rewrite bool_decide_eq_true_2 in Hrun by lia.
    destruct (sigchld_reap SIGTSTP sh g q status) as [g1|] eqn:Hreap; [|done].
    pose proof (sigchld_reap_pids_distinct SIGTSTP sh g q status g1 Hreap Hdist)
      as Hdist1.
    destruct (decide (q = p)) as [->|Hne].
    - pose proof (sigchld_reap_removes SIGTSTP sh g p status g1 Hp Hstatus
                    (Hdist p Hp) Hreap) as Hgone1.
      by destruct (sigchld_handler_ok SIGTSTP sh (λ j, pid j ≠ p) rest g1 g')
        as (? & _); [done|simpl; lia|done|done|].
    - rewrite fmap_cons, elem_of_cons in Hin. destruct Hin as [Heq|Hin];
        [simpl in Heq; congruence|].
      by apply (IH Hterm Hin g1). }
  split.
  - rewrite getjobpid_find by lia. by apply find_absent.
  - rewrite pid2jid_find by lia. by rewrite (find_absent _ _ Hgone).
Qed.

(** Two background jobs of [tsh.c], pids 100 and 101; the first exits and the
    second is killed by signal 9 before the handler runs. *)
Lemma sigchld_removes_all_terminated_witness :
  Forall (λ r, 0 < fst r ∧ WIFSTOPPED (snd r) = false)
    [(100, Exited 0); (101, Signaled 9)] ∧
  pids_distinct (jobs (addjobs tsh (init_mem tsh false) [100; 101])) ∧
  (∃ g', sigchld_handler 20 tsh [(100, Exited 0); (101, Signaled 9)]
           (addjobs tsh (init_mem tsh false) [100; 101]) = Returns g' ∧
         getjobpid (jobs g') 100 = None ∧ getjobpid (jobs g') 101 = None).
Proof.
  assert (Forall (λ r, 0 < fst r ∧ WIFSTOPPED (snd r) = false)
            [(100, Exited 0); (101, Signaled 9)]) as Hterm
    by (repeat constructor).
  assert (pids_distinct (jobs (addjobs tsh (init_mem tsh false) [100; 101])))
    as Hdist.
  { apply addjob_pids_distinct; [apply addjob_pids_distinct|].
    - apply initjobs_pids_distinct.
    - apply Forall_replicate. simpl. lia.
    - apply (bool_decide_unpack _). vm_compute. exact I. }
  split; [exact Hterm|]. split; [exact Hdist|].
  eexists. split; [reflexivity|].
  split.
  - refine (proj1 (sigchld_removes_all_terminated 20 tsh _ _ _ Hterm Hdist eq_refl 100 _)).
    apply elem_of_cons. by left.
  - refine (proj1 (sigchld_removes_all_terminated 20 tsh _ _ _ Hterm Hdist eq_refl 101 _)).
    apply elem_of_cons. right. apply elem_of_cons. by left.
Defined.

(** X10. A child that is reported as stopped stays in the table: when
    [getjobpid] finds the pid, the handler returns, the entry keeps its place,
    its pid, its job id and its command line and is in state [ST], and the
    counter is as it was. *)
Theorem sigchld_stop_keeps_job SIGTSTP sh g p sig i job :
  getjobpid (jobs g) p = Some (i, job) →
  ∃ g', sigchld_handler SIGTSTP sh [(p, Stopped sig)] g = Returns g' ∧
        getjobpid (jobs g') p = Some (i, set_state ST job) ∧
        pid2jid (jobs g') p = jid job ∧
        jobs g' = <[i := set_state ST job]> (jobs g) ∧
        nextjid g' = nextjid g.
Proof.
  intros Hget. pose proof Hget as Hget'.
  apply getjobpid_Some in Hget' as (Hi & Hpid & Hp).
  simpl. rewrite bool_decide_eq_true_2 by lia.
  unfold sigchld_reap. simpl. rewrite Hget. eexists. split; [reflexivity|]. simpl.
  assert (list_find (λ j, pid j = p) (<[i := set_state ST job]> (jobs g))
          = Some (i, set_state ST job)) as Hfound.
  { rewrite getjobpid_find in Hget by done.
    apply list_find_Some in Hget as (_ & _ & Hfirst).
    apply find_first; [|done|].
    - apply list_lookup_insert_eq. by eapply lookup_lt_Some.
    - intros k jk Hk Hlook. rewrite list_lookup_insert_ne in Hlook by lia.
      by apply (Hfirst k jk). }
  split_and!; [|rewrite pid2jid_find by done; by rewrite Hfound|done..].
  by rewrite getjobpid_find by done.
Qed.

Lemma sigchld_stop_keeps_job_witness :
  getjobpid (jobs (snd (addjob tsh (init_mem tsh false) 100 FG "/bin/sleep 9"))) 100
  = Some (0%nat, mk_job 100 1 FG "/bin/sleep 9") ∧
  ∃ g', sigchld_handler 20 tsh [(100, Stopped 20)]
          (snd (addjob tsh (init_mem tsh false) 100 FG "/bin/sleep 9")) = Returns g' ∧
        getjobpid (jobs g') 100 = Some (0%nat, mk_job 100 1 ST "/bin/sleep 9").
Proof.
  split; [reflexivity|].
  destruct (sigchld_stop_keeps_job 20 tsh
              (snd (addjob tsh (init_mem tsh false) 100 FG "/bin/sleep 9"))
              100 20 0%nat (mk_job 100 1 FG "/bin/sleep 9") eq_refl)
    as (g' & Hrun & Hget & _).
  exists g'. split; [exact Hrun|exact Hget].
Defined.

(** X11. [do_bgfg], run with no run of the handler inside it, changes
    nothing but the state of the job it is given. When the argument names a
    job, that entry gets the state [FG] under [fg] and [BG] under [bg] and
    keeps its pid, its job id and its command line, and every other entry
    and the counter are as they were; [bg] prints the line of the job and
    does not wait, [fg] prints nothing and enters the loop of [waitfg] for
    the pid of the job when that pid is positive. When the argument names no
    job, the table is as it was, the flow does not wait, and one line is
    printed. *)
Theorem do_bgfg_changes_state_only name arg g :
  name = "bg" ∨ name = "fg" →
  nextjid (globals (do_bgfg name arg g)) = nextjid g ∧
  match named_job (jobs g) arg with
  | None =>
      jobs (globals (do_bgfg name arg g)) = jobs g ∧
      waiting (do_bgfg name arg g) = None ∧
      ∃ msg, stdout (globals (do_bgfg name arg g)) = (stdout g ++ [msg])%list
  | Some (i, job) =>
      if bool_decide (name = "fg") then
        jobs (globals (do_bgfg name arg g)) = <[i := set_state FG job]> (jobs g) ∧
        waiting (do_bgfg name arg g)
        = (if bool_decide (1 ≤ pid job) then Some (pid job) else None) ∧
        stdout (globals (do_bgfg name arg g)) = stdout g
      else
        jobs (globals (do_bgfg name arg g)) = <[i := set_state BG job]> (jobs g) ∧
        waiting (do_bgfg name arg g) = None ∧
        stdout (globals (do_bgfg name arg g))
        = (stdout g ++ [bg_msg (jid job) (pid job) (cmdline job)])%list
  end.
Proof.
  intros Hname.
  assert (∀ i job, jobs g !! i = Some job →
            waitfg_enter (<[i := set_state FG job]> (jobs g)) (pid job)
            = if bool_decide (1 ≤ pid job) then Some (pid job) else None) as Hwait.
  { intros i job Hi. case_bool_decide as Hpid.
    - apply (waitfg_enter_present _ _ (set_state FG job)); [done| |done].
      apply list_elem_of_insert. by eapply lookup_lt_Some.
    - unfold waitfg_enter, getjobpid.
      rewrite (bool_decide_eq_true_2 (pid job < 1)) by lia. by case_bool_decide. }
  assert (match named_job (jobs g) arg with
          | Some (i, job) => jobs g !! i = Some job
          | None => True
          end) as Hnamed.
  { destruct arg as [|text n|p|]; simpl; [done| | |done].
    - destruct (getjobjid (jobs g) n) as [[i job]|] eqn:Hget; [|done].
      by apply getjobjid_Some in Hget as (? & _).
    - destruct (getjobpid (jobs g) p) as [[i job]|] eqn:Hget; [|done].
      by apply getjobpid_Some in Hget as (? & _). }
  unfold do_bgfg.
  destruct arg as [|text n|p|]; simpl in Hnamed |- *.
  - split; [done|]. split_and!; [done..|]. by eexists.
  - destruct (getjobjid (jobs g) n) as [[i job]|].
    + destruct Hname as [-> | ->]; simpl; [done|]. by rewrite (Hwait i job Hnamed).
    + simpl. split; [done|]. split_and!; [done..|]. by eexists.
  - destruct (getjobpid (jobs g) p) as [[i job]|].
    + destruct Hname as [-> | ->]; simpl; [done|]. by rewrite (Hwait i job Hnamed).
    + simpl. split; [done|]. split_and!; [done..|]. by eexists.
  - split; [done|]. split_and!; [done..|]. by eexists.
Qed.

(** [fg %2] on a table that holds two background jobs. *)
Lemma do_bgfg_changes_state_only_witness :
  named_job (jobs two_jobs) (arg_jid "%2" 2)
  = Some (1%nat, mk_job 101 2 BG "/bin/sleep 60 &") ∧
  jobs (globals (do_bgfg "fg" (arg_jid "%2" 2) two_jobs))
  = <[1%nat := mk_job 101 2 FG "/bin/sleep 60 &"]> (jobs two_jobs) ∧
  waiting (do_bgfg "fg" (arg_jid "%2" 2) two_jobs) = Some 101 ∧
  stdout (globals (do_bgfg "fg" (arg_jid "%2" 2) two_jobs)) = stdout two_jobs.
Proof.
  split; [reflexivity|].
  exact (proj2 (do_bgfg_changes_state_only "fg" (arg_jid "%2" 2) two_jobs
                  (or_intror eq_refl))).
Defined.

(** * The handlers of the terminal signals *)

(** X12. On a table with at most one entry in state [FG], where an entry in
    state [FG] holds a positive pid, the handlers of SIGINT and SIGTSTP make
    the same calls of [kill]: one call, with the negated pid of the entry in
    state [FG] and the signal received, when there is such an entry, and no
    call when there is none. In [hfsh.cpp] each adds one to its own counter,
    modulo 2^32, and leaves the other counters as they were; [tsh.c] has no
    counters. *)
Theorem signals_go_to_foreground sh js sig c :
  (count_fg js ≤ 1)%nat → Forall (λ j, state j = FG → 1 ≤ pid j) js →
  fst (sigint_handler sh js sig c) = fst (sigtstp_handler sh js sig c) ∧
  (∀ i j, js !! i = Some j → state j = FG →
     fst (sigint_handler sh js sig c) = [(- pid j, sig)] ∧ - pid j < 0) ∧
  (Forall (λ j, state j ≠ FG) js → fst (sigint_handler sh js sig c) = []) ∧
  snd (sigint_handler hfsh js sig c)
    = mk_counts ((c_int c + 1) mod 2 ^ 32) (c_tstp c) (c_hup c) (c_quit c) ∧
  snd (sigtstp_handler hfsh js sig c)
    = mk_counts (c_int c) ((c_tstp c + 1) mod 2 ^ 32) (c_hup c) (c_quit c) ∧
  snd (sigint_handler tsh js sig c) = c ∧
  snd (sigtstp_handler tsh js sig c) = c.
Proof.
  intros Hcount Hpos. split_and!; [done| | |done..].
  - intros i j Hi Hst.
    pose proof (Forall_lookup_1 _ _ _ _ Hpos Hi Hst) as Hpid.
    simpl. unfold forward_to_fg. rewrite (fgpid_unique js i j Hcount Hi Hst).
    rewrite bool_decide_eq_true_2 by lia. split; [done|lia].
  - intros Hnone. simpl. unfold forward_to_fg, fgpid.
    by rewrite (find_absent (λ j, state j = FG) _ Hnone).
Qed.

(** SIGINT, signal 2, while the job with pid 102 is in the foreground. *)
Lemma signals_go_to_foreground_witness :
  (count_fg (jobs with_foreground) ≤ 1)%nat ∧
  Forall (λ j, state j = FG → 1 ≤ pid j) (jobs with_foreground) ∧
  fst (sigint_handler tsh (jobs with_foreground) 2 (mk_counts 0 0 0 0)) = [(-102, 2)].
Proof.
  assert (count_fg (jobs with_foreground) ≤ 1)%nat as Hcount
    by (vm_compute; lia).
  assert (Forall (λ j, state j = FG → 1 ≤ pid j) (jobs with_foreground)) as Hpos
    by (apply (bool_decide_unpack _); vm_compute; exact I).
  split; [exact Hcount|]. split; [exact Hpos|].
  exact (proj1 (proj1 (proj2 (signals_go_to_foreground tsh (jobs with_foreground) 2
                                (mk_counts 0 0 0 0) Hcount Hpos))
                  2%nat (mk_job 102 3 FG "/bin/cat") eq_refl eq_refl)).
Defined.

(** * [listjobs] *)

Section listing.
Implicit Types (js : list job_t) (g : mem).

Lemma listjobs_from_out i js g :
  Forall state_ok js →
  jobs (listjobs_from i js g) = jobs g ∧
  nextjid (listjobs_from i js g) = nextjid g ∧
  stdout (listjobs_from i js g)
  = (stdout g ++ concat (job_listing <$> filter (λ j, pid j ≠ 0) js))%list.
Proof.
  intros Hok. revert i g. induction Hok as [|j js Hj _ IH]; intros i g; simpl.
  { by rewrite app_nil_r. }
  destruct (IH (i + 1) (listjobs_entry i j g)) as (-> & -> & ->).
  unfold listjobs_entry. rewrite filter_cons.
  destruct (decide (pid j ≠ 0)) as [Hocc|Hfree].
  - rewrite bool_decide_eq_true_2 by done.
    destruct Hj as [?|[Hst|[Hst|Hst]]]; [done|..]; rewrite Hst; simpl;
      unfold job_listing; rewrite Hst; simpl; by rewrite <- !app_assoc.
  - rewrite bool_decide_eq_false_2 by done. done.
Qed.
End listing.

(** X13. A run of [listjobs] that no run of the handler interrupts, on a
    table whose occupied entries are each in one of the states [FG], [BG]
    and [ST]: for each occupied entry, in the order of the table, it prints
    the job id and the pid, then [Running], [Foreground] or [Stopped], then
    the command line; it prints nothing for a free entry and nothing of its
    internal-error text, and it leaves the table and the counter as they
    were. *)
Theorem listjobs_lists_occupied g :
  Forall state_ok (jobs g) →
  jobs (listjobs g) = jobs g ∧
  nextjid (listjobs g) = nextjid g ∧
  stdout (listjobs g)
  = (stdout g ++ concat (job_listing <$> filter (λ j, pid j ≠ 0) (jobs g)))%list.
Proof. intros Hok. by apply listjobs_from_out. Qed.

(** Two background jobs and a foreground job. *)
Lemma listjobs_lists_occupied_witness :
  Forall state_ok (jobs with_foreground) ∧
  stdout (listjobs with_foreground)
  = ["[1] (100) "; "Running "; "/bin/sleep 60 &";
     "[2] (101) "; "Running "; "/bin/sleep 60 &";
     "[3] (102) "; "Foreground "; "/bin/cat"].
Proof.
  assert (Forall state_ok (jobs with_foreground)) as Hok
    by (apply (bool_decide_unpack _); vm_compute; exact I).
  split; [exact Hok|].
  exact (proj2 (proj2 (listjobs_lists_occupied with_foreground Hok))).
Defined.

(** * Further properties of the token parser *)

Local Open Scope list_scope.

Section parser_shapes.
Implicit Types (s : parser) (a pre : list (option string)) (ws : list string).

Lemma parse_loop_null fuel i s :
  argv s !! i = Some None → parse_loop fuel i s = Returns s.
Proof. intros Hi. destruct fuel; simpl; unfold read_tok; by rewrite Hi. Qed.

Lemma parse_loop_tok fuel i s t :
  argv s !! i = Some (Some t) →
  parse_loop (S fuel) i s =
    match parse_token i t s with
    | Returns s' => parse_loop fuel (S i) s'
    | Undefined => Undefined
    end.
Proof. intros Hi. simpl. unfold read_tok. by rewrite Hi. Qed.

(** A plain token that is not the last one changes nothing. *)
Lemma parse_token_plain i t s next :
  plain t → argv s !! (i + 1)%nat = Some (Some next) →
  parse_token i t s = Returns s.
Proof.
  intros (? & ? & ?) Hnext. unfold parse_token, read_tok.
  rewrite !bool_decide_eq_false_2 by done. by rewrite Hnext.
Qed.

(** The last token sets the mode. *)
Lemma parse_token_last i t s :
  plain t → argv s !! (i + 1)%nat = Some None →
  parse_token i t s =
    Returns (if bool_decide (t = AMPERSAND) then set_tok_null i (set_mode BG s)
             else set_mode FG s).
Proof.
  intros (? & ? & ?) Hnext. unfold parse_token, read_tok.
  rewrite !bool_decide_eq_false_2 by done. rewrite Hnext.
  by case_bool_decide.
Qed.

(** The loop runs over plain tokens that another token follows and leaves the
    globals as they are. *)
Lemma parse_loop_skip ws :
  ∀ pre s fuel next rest,
    Forall plain ws →
    argv s = (pre ++ (Some <$> ws) ++ Some next :: rest)%list →
    parse_loop (length ws + fuel) (length pre) s
    = parse_loop fuel (length pre + length ws) s.
Proof.
  induction ws as [|w ws IH]; intros pre s fuel next rest Hplain Hargv; simpl.
  { by rewrite Nat.add_0_r. }
  apply Forall_cons in Hplain as [Hw Hplain]. simpl in Hargv.
  change (match read_tok (argv s) (length pre) with
          | Returns (Some temp) =>
              match parse_token (length pre) temp s with
              | Returns s0 => parse_loop (length ws + fuel) (S (length pre)) s0
              | Undefined => Undefined
              end
          | Returns None => Returns s
          | Undefined => Undefined
          end) with (parse_loop (S (length ws + fuel)) (length pre) s).
  rewrite (parse_loop_tok _ _ _ w) by (by rewrite Hargv, list_lookup_middle).
  assert (∃ t, argv s !! (length pre + 1)%nat = Some (Some t)) as [t Ht].
  { rewrite Hargv, lookup_app_r by lia.
    replace (length pre + 1 - length pre)%nat with 1%nat by lia.
    destruct ws; simpl; by eexists. }
  rewrite (parse_token_plain _ _ _ t) by done.
  replace (S (length pre)) with (length (pre ++ [Some w])) by (rewrite length_app; simpl; lia).
  rewrite (IH (pre ++ [Some w]) s fuel next rest); [|done|by rewrite <- app_assoc].
  f_equal. rewrite length_app. simpl. lia.
Qed.

(** The strings that [execvp] reads from an array stop at the first [NULL]. *)
Lemma c_strings_words ws a : c_strings ((Some <$> ws) ++ None :: a) = ws.
Proof. induction ws as [|w ws IH]; simpl; [done|]. f_equal. apply IH. Qed.

Lemma stage_words s c pre ws a :
  command c = Some (length pre) →
  argv s = (pre ++ (Some <$> ws) ++ None :: a)%list →
  stage s c = (ws, file_in c, file_out c).
Proof.
  intros Hc Hargv. unfold stage. rewrite Hc, Hargv, drop_app_length.
  by rewrite c_strings_words.
Qed.
End parser_shapes.

Section parser_pipeline.
Implicit Types (s : parser) (pre : list (option string)) (ws last : list string).

Lemma pipeline_toks_cons c cmds last :
  pipeline_toks (c :: cmds) last = c ++ PIPE :: pipeline_toks cmds last.
Proof. unfold pipeline_toks. simpl. by rewrite <- !app_assoc. Qed.

Lemma parse_loop_pipeline cmds :
  ∀ pre s fuel last w,
    Forall (Forall plain) cmds → Forall plain last → plain w →
    argv s = pre ++ (Some <$> pipeline_toks cmds (last ++ [w])) ++ [None] →
    command (piped_command s) = Some (length pre) →
    file_in (piped_command s) = None → file_out (piped_command s) = None →
    (length (pipeline_toks cmds (last ++ [w])) ≤ fuel)%nat →
    ∃ s' new,
      parse_loop fuel (length pre) s = Returns s' ∧
      take (length pre) (argv s') = pre ∧
      pipe_commands s' ++ [piped_command s'] = pipe_commands s ++ new ∧
      stage s' <$> new = plain_stages cmds ++ [(last_argv last w, None, None)] ∧
      mode s' = last_mode w.
Proof.
  induction cmds as [|c cmds IH];
    intros pre s fuel last w Hcmds Hlast Hw Hargv Hcmd Hin Hout Hfuel.
  - (* the last stage *)
    unfold pipeline_toks in *. simpl in Hargv, Hfuel.
    rewrite fmap_app, <- app_assoc in Hargv. simpl in Hargv.
    rewrite length_app in Hfuel. simpl in Hfuel.
    destruct (Nat.le_exists_sub (length last + 1) fuel Hfuel) as (f & -> & _).
    replace (f + (length last + 1))%nat with (length last + S f)%nat by lia.
    rewrite (parse_loop_skip last pre s (S f) w [None]) by done.
    assert (argv s !! (length pre + length last)%nat = Some (Some w)) as Hi.
    { rewrite Hargv, app_assoc. apply list_lookup_middle. by rewrite length_app, length_fmap. }
    assert (argv s !! (length pre + length last + 1)%nat = Some None) as Hnext.
    { rewrite Hargv, app_assoc, lookup_app_r by (rewrite length_app, length_fmap; lia).
      rewrite length_app, length_fmap.
      by replace (length pre + length last + 1 - (length pre + length last))%nat
        with 1%nat by lia. }
    rewrite (parse_loop_tok _ _ _ w) by done.
    rewrite parse_token_last by done.
    set (i := (length pre + length last)%nat) in *.
    unfold last_argv, last_mode.
    destruct (bool_decide_reflect (w = AMPERSAND)) as [Hamp|Hamp].
    + exists (set_tok_null i (set_mode BG s)), [piped_command s].
      assert (argv (set_tok_null i (set_mode BG s))
              = pre ++ (Some <$> last) ++ None :: [None]) as Hargv'.
      { simpl. rewrite Hargv, app_assoc. subst i.
        replace (length pre + length last)%nat with (length (pre ++ (Some <$> last)))
          by (by rewrite length_app, length_fmap).
        by rewrite insert_middle, <- app_assoc. }
      split_and!; [|by rewrite Hargv', take_app_length|done| |done].
      * apply parse_loop_null. rewrite Hargv', app_assoc, lookup_app_r
          by (rewrite length_app, length_fmap; lia).
        rewrite length_app, length_fmap.
        by replace (S i - (length pre + length last))%nat with 1%nat by lia.
      * simpl. rewrite (stage_words _ _ pre last [None]) by done.
        by rewrite Hin, Hout.
    + exists (set_mode FG s), [piped_command s].
      split_and!; [|simpl; by rewrite Hargv, take_app_length|done| |done].
      * apply parse_loop_null. simpl. by replace (S i) with (i + 1)%nat by lia.
      * simpl. rewrite (stage_words _ _ pre (last ++ [w]) []); [by rewrite Hin, Hout|done|].
        simpl. by rewrite Hargv, fmap_app, <- app_assoc.
  - (* a stage that a pipe follows *)
    apply Forall_cons in Hcmds as [Hc Hcmds].
    rewrite pipeline_toks_cons in Hargv, Hfuel.
    set (toks := pipeline_toks cmds (last ++ [w])) in *.
    rewrite fmap_app, fmap_cons, <- app_assoc, <- app_comm_cons in Hargv.
    rewrite length_app in Hfuel. simpl in Hfuel.
    destruct (Nat.le_exists_sub (length c + S (length toks)) fuel Hfuel) as (f & -> & _).
    replace (f + (length c + S (length toks)))%nat
      with (length c + S (f + length toks))%nat by lia.
    rewrite (parse_loop_skip c pre s _ PIPE ((Some <$> toks) ++ [None])) by done.
    set (i := (length pre + length c)%nat).
    assert (argv s !! i = Some (Some PIPE)) as Hi.
    { rewrite Hargv, app_assoc. apply list_lookup_middle.
      by rewrite length_app, length_fmap. }
    rewrite (parse_loop_tok _ _ _ PIPE) by done.
    set (pre1 := pre ++ (Some <$> c) ++ [None]).
    assert (length pre1 = S i) as Hlen1.
    { subst pre1 i. rewrite !length_app, length_fmap. simpl. lia. }
    set (s1 := set_tok_null i
                 (set_piped_command
                    (with_file_out None
                       (with_file_in None (with_command (i + 1) (piped_command s))))
                    (push_back_piped s))).
    assert (parse_token i PIPE s = Returns s1) as -> by reflexivity.
    assert (argv s1 = pre1 ++ (Some <$> toks) ++ [None]) as Hargv1.
    { subst s1 pre1. simpl. rewrite Hargv, app_assoc. subst i.
      replace (length pre + length c)%nat with (length (pre ++ (Some <$> c)))
        by (by rewrite length_app, length_fmap).
      by rewrite insert_middle, <- !app_assoc. }
    destruct (IH pre1 s1 (f + length toks)%nat last w) as (s' & new & Hrun & Htake & Hpush & Hst & Hmode);
      [done..| |done|done|subst toks; lia|].
    { subst s1. simpl. f_equal. lia. }
    rewrite <- Hlen1.
    exists s', (piped_command s :: new).
    assert (argv s' = pre ++ (Some <$> c) ++ None :: drop (length pre1) (argv s'))
      as Hargv'.
    { rewrite <- (take_drop (length pre1) (argv s')) at 1. rewrite Htake.
      subst pre1. by rewrite <- !app_assoc. }
    split_and!; [done| | | |done].
    + rewrite Hargv'. by rewrite take_app_length.
    + rewrite Hpush. subst s1. simpl. by rewrite <- app_assoc.
    + rewrite fmap_cons, Hst. simpl. f_equal.
      rewrite (stage_words _ _ pre c _ Hcmd Hargv'). by rewrite Hin, Hout.
Qed.
End parser_pipeline.

(** X14. [parse_tokens] returns on every array that ends with [NULL]: it
    reads no entry past the end of the array, also when the last token is
    [<], [>] or [|]. *)
Theorem parse_tokens_stays_in_bounds toks m fd_in fd_out fds :
  ∃ s, parse_tokens (parser_start toks m fd_in fd_out fds) = Returns s.
Proof. apply parse_tokens_returns. Qed.

(** X15. A pipeline of commands without redirection is split at the [|]
    tokens, for any number of stages and any arguments: every stage gets the
    words between two [|] as its argument vector and no file. A last word
    [&] is taken off the last stage and sets [mode] to [BG]; any other last
    word stays and sets [mode] to [FG]. A [&] that is not the last word stays
    in the argument vector. *)
Theorem parse_plain_pipeline cmds last w m fd_in fd_out fds :
  Forall (Forall plain) cmds → Forall plain last → plain w →
  ∃ s,
    parse_tokens (parser_start (pipeline_toks cmds (last ++ [w])) m fd_in fd_out fds)
      = Returns s ∧
    stages s = plain_stages cmds
               ++ [(if bool_decide (w = AMPERSAND) then last else last ++ [w], None, None)] ∧
    mode s = (if bool_decide (w = AMPERSAND) then BG else FG).
Proof.
  intros Hcmds Hlast Hw. unfold parse_tokens.
  set (s0 := set_piped_command _ _).
  destruct (parse_loop_pipeline cmds [] s0 (length (argv s0)) last w)
    as (s' & new & Hrun & _ & Hpush & Hst & Hmode); [done..| |].
  { subst s0. simpl. unfold gettoks. rewrite length_app, length_fmap. lia. }
  change (length []) with 0%nat in Hrun. rewrite Hrun.
  exists (push_back_piped s'). split; [done|]. split; [|done].
  unfold stages. simpl. rewrite Hpush. done.
Qed.

Lemma parse_plain_pipeline_witness :
  Forall (Forall plain) [["ls"; "-l"]; ["grep"; "&"; "x"]] ∧ Forall plain ["wc"] ∧ plain "&" ∧
  ∃ s,
    parse_tokens (parser_start ["ls"; "-l"; "|"; "grep"; "&"; "x"; "|"; "wc"; "&"] 0 0 0 (0, 1))
      = Returns s ∧
    stages s = [(["ls"; "-l"], None, None); (["grep"; "&"; "x"], None, None);
                (["wc"], None, None)] ∧
    mode s = BG.
Proof.
  assert (Forall (Forall plain) [["ls"; "-l"]; ["grep"; "&"; "x"]]) as Hcmds
    by (repeat apply Forall_cons_2; try apply Forall_nil_2; by split_and!).
  assert (Forall plain ["wc"]) as Hlast
    by (repeat apply Forall_cons_2; try apply Forall_nil_2; by split_and!).
  assert (plain "&") as Hw by (by split_and!).
  split; [exact Hcmds|]. split; [exact Hlast|]. split; [exact Hw|].
  exact (parse_plain_pipeline [["ls"; "-l"]; ["grep"; "&"; "x"]] ["wc"] "&" 0 0 0 (0, 1)
           Hcmds Hlast Hw).
Defined.

Section parser_redirections.
Implicit Types (s : parser) (pre : list (option string)) (ws : list string).

Lemma parse_token_redir i b s f :
  argv s !! (i + 1)%nat = Some (Some f) →
  parse_token i (redir_op b) s =
    Returns (set_tok_null i
               (set_piped_command
                  (if b then with_file_in (Some f) (piped_command s)
                   else with_file_out (Some f) (piped_command s)) s)).
Proof.
  intros Hnext. unfold parse_token, read_tok. rewrite Hnext. by destruct b.
Qed.

Lemma redir_files (b : bool) (f : string) (c : piped) :
  (file_in (if b then with_file_in (Some f) c else with_file_out (Some f) c),
   file_out (if b then with_file_in (Some f) c else with_file_out (Some f) c))
  = redirect (file_in c, file_out c) (b, f).
Proof. by destruct b. Qed.

Lemma null_at_split pre (a rest : list (option string)) :
  a = pre ++ None :: rest → a = pre ++ None :: drop (S (length pre)) a.
Proof.
  intros ->. do 2 f_equal.
  rewrite (cons_middle None pre rest), app_assoc.
  rewrite drop_app_length'; [done|]. rewrite length_app. simpl. lia.
Qed.

Lemma parse_loop_redirs rs :
  ∀ pre s fuel,
    rs ≠ [] → Forall (λ r, plain (snd r)) rs →
    snd <$> last rs ≠ Some AMPERSAND →
    argv s = pre ++ (Some <$> redir_toks rs) ++ [None] →
    (length (redir_toks rs) ≤ fuel)%nat →
    ∃ s',
      parse_loop fuel (length pre) s = Returns s' ∧
      argv s' = pre ++ None :: drop (S (length pre)) (argv s') ∧
      pipe_commands s' = pipe_commands s ∧
      command (piped_command s') = command (piped_command s) ∧
      (file_in (piped_command s'), file_out (piped_command s'))
        = foldl redirect (file_in (piped_command s), file_out (piped_command s)) rs ∧
      mode s' = FG.
Proof.
  induction rs as [|[b f] rs IH]; intros pre s fuel Hne Hplain Hlast Hargv Hfuel;
    [done|].
  apply Forall_cons in Hplain as [Hf Hplain]. simpl in Hf.
  unfold redir_toks in Hargv, Hfuel. rewrite fmap_cons in Hargv, Hfuel.
  simpl in Hargv, Hfuel. fold (redir_toks rs) in Hargv, Hfuel.
  destruct fuel as [|[|fuel]]; [lia..|].
  set (i := length pre).
  assert (argv s !! i = Some (Some (redir_op b))) as Hi
    by (by rewrite Hargv, list_lookup_middle).
  assert (argv s !! (i + 1)%nat = Some (Some f)) as Hi1.
  { rewrite Hargv, lookup_app_r by lia.
    by replace (i + 1 - length pre)%nat with 1%nat by lia. }
  rewrite (parse_loop_tok _ _ _ (redir_op b)) by done.
  rewrite (parse_token_redir _ _ _ f) by done.
  set (c1 := if b then with_file_in (Some f) (piped_command s)
             else with_file_out (Some f) (piped_command s)).
  set (s1 := set_tok_null i (set_piped_command c1 s)).
  assert (argv s1 = pre ++ None :: Some f :: (Some <$> redir_toks rs) ++ [None])
    as Hargv1 by (subst s1 i; simpl; by rewrite Hargv, insert_middle).
  assert (argv s1 !! S i = Some (Some f)) as Hf1.
  { rewrite Hargv1, lookup_app_r by lia.
    by replace (S i - length pre)%nat with 1%nat by lia. }
  rewrite (parse_loop_tok _ _ _ f) by done.
  assert (command c1 = command (piped_command s)) as Hcmd by (by destruct b).
  pose proof (redir_files b f (piped_command s)) as Hfiles. fold c1 in Hfiles.
  destruct rs as [|[b' f'] rs].
  - (* the last redirection *)
    simpl in Hlast.
    assert (argv s1 !! (S i + 1)%nat = Some None) as Hend.
    { rewrite Hargv1, lookup_app_r by lia.
      by replace (S i + 1 - length pre)%nat with 2%nat by lia. }
    rewrite parse_token_last by done.
    rewrite bool_decide_eq_false_2 by congruence.
    exists (set_mode FG s1). split_and!; [| |done..].
    + apply parse_loop_null.
      change (argv (set_mode FG s1)) with (argv s1).
      by replace (S (S i)) with (S i + 1)%nat by lia.
    + change (argv (set_mode FG s1)) with (argv s1).
      by eapply null_at_split.
  - (* another redirection follows *)
    assert (argv s1 !! (S i + 1)%nat = Some (Some (redir_op b'))) as Hnext.
    { rewrite Hargv1, lookup_app_r by lia.
      by replace (S i + 1 - length pre)%nat with 2%nat by lia. }
    rewrite (parse_token_plain _ _ _ (redir_op b')) by done.
    destruct (IH (pre ++ [None; Some f]) s1 fuel)
      as (s' & Hrun & Hargv' & Hpush & Hcmd' & Hfiles' & Hmode);
      [done|done|done|by rewrite Hargv1, <- app_assoc|
       unfold redir_toks in *; simpl in Hfuel |- *; lia|].
    rewrite length_app in Hrun. simpl in Hrun.
    replace (length pre + 2)%nat with (S (S i)) in Hrun by (subst i; lia).
    exists s'. split_and!; [done| |done|by rewrite Hcmd'| |done].
    + eapply null_at_split. rewrite Hargv', <- app_assoc. reflexivity.
    + rewrite Hfiles'. simpl. subst s1. simpl. by rewrite Hfiles.
Qed.
End parser_redirections.

(** X16. Redirections after the words of a single command, in any number
    and order: the argument vector of the stage is the words before the first
    redirection, the input file is the file of the last [<], the output file
    the file of the last [>], and [mode] is [FG], as long as the file names
    are none of [<], [>], [|] and the last one is not [&]. *)
Theorem parse_command_with_redirections ws rs m fd_in fd_out fds :
  Forall plain ws → rs ≠ [] → Forall (λ r, plain (snd r)) rs →
  snd <$> last rs ≠ Some AMPERSAND →
  ∃ s,
    parse_tokens (parser_start (ws ++ redir_toks rs) m fd_in fd_out fds) = Returns s ∧
    stages s = [(ws, fst (foldl redirect (None, None) rs),
                     snd (foldl redirect (None, None) rs))] ∧
    mode s = FG.
Proof.
  intros Hws Hne Hplain Hlast. unfold parse_tokens.
  set (s0 := set_piped_command _ _).
  assert (argv s0 = [] ++ (Some <$> ws) ++ (Some <$> redir_toks rs) ++ [None])
    as Hargv by (simpl; unfold gettoks; by rewrite fmap_app, <- app_assoc).
  assert (length (argv s0) = (length ws + S (length (redir_toks rs)))%nat) as ->.
  { rewrite Hargv. simpl. rewrite !length_app, !length_fmap. simpl. lia. }
  destruct rs as [|[b f] rs]; [done|].
  rewrite (parse_loop_skip ws [] s0 _ (redir_op b)
             (Some f :: (Some <$> redir_toks rs) ++ [None])); [|done|done].
  destruct (parse_loop_redirs ((b, f) :: rs) (Some <$> ws) s0
              (S (length (redir_toks ((b, f) :: rs)))))
    as (s' & Hrun & Hargv' & Hpush & Hcmd & Hfiles & Hmode); [done..|lia|].
  rewrite length_fmap in Hrun. simpl in Hrun. simpl. rewrite Hrun.
  exists (push_back_piped s'). split; [done|]. split; [|done].
  unfold stages. simpl. rewrite Hpush. simpl.
  rewrite (stage_words _ _ [] ws (drop (S (length (Some <$> ws))) (argv s')));
    [|by rewrite Hcmd|done].
  simpl in Hfiles. simpl. by rewrite <- Hfiles.
Qed.

Lemma parse_command_with_redirections_witness :
  Forall plain ["sort"; "-r"] ∧
  ∃ s,
    parse_tokens (parser_start ["sort"; "-r"; ">"; "a.txt"; "<"; "in.txt"; ">"; "out.txt"]
                    0 0 0 (0, 1)) = Returns s ∧
    stages s = [(["sort"; "-r"], Some "in.txt", Some "out.txt")] ∧
    mode s = FG.
Proof.
  assert (Forall plain ["sort"; "-r"]) as Hws
    by (repeat apply Forall_cons_2; try apply Forall_nil_2; by split_and!).
  split; [exact Hws|].
  refine (parse_command_with_redirections ["sort"; "-r"]
            [(false, "a.txt"); (true, "in.txt"); (false, "out.txt")] 0 0 0 (0, 1)
            Hws _ _ _); [done| |done].
  repeat apply Forall_cons_2; try apply Forall_nil_2; by split_and!.
Defined.

Section parser_first_token.
Implicit Types (s : parser) (pre : list (option string)) (ws : list string).

(** One turn of the loop writes no entry but [i] and keeps the command of
    the first stage. *)
Lemma parse_token_frame i t s s' :
  parse_token i t s = Returns s' →
  (∀ k, k ≠ i → argv s' !! k = argv s !! k) ∧
  first_command s' = first_command s.
Proof.
  unfold parse_token, read_tok, first_command. intros Hrun.
  assert (∀ k (a : list (option string)), k ≠ i → <[i := None]> a !! k = a !! k)
    as Hne by (intros k a ?; by rewrite list_lookup_insert_ne).
  repeat case_bool_decide; repeat case_match; simplify_eq/=;
    (split; [by auto|]); try done.
  all: by destruct (pipe_commands s).
Qed.

Lemma parse_loop_frame fuel :
  ∀ i s s',
    parse_loop fuel i s = Returns s' →
    (∀ k, (k < i)%nat → argv s' !! k = argv s !! k) ∧
    first_command s' = first_command s.
Proof.
  induction fuel as [|fuel IH]; intros i s s' Hrun; simpl in Hrun.
  - destruct (read_tok (argv s) i) as [[t|]|]; by simplify_eq.
  - destruct (read_tok (argv s) i) as [[t|]|]; [|by simplify_eq|done].
    destruct (parse_token i t s) as [s1|] eqn:Htok; [|done].
    destruct (parse_token_frame i t s s1 Htok) as [Hargv1 Hfirst1].
    destruct (IH (S i) s1 s' Hrun) as [Hargv' Hfirst'].
    split; [|congruence].
    intros k Hk. rewrite Hargv' by lia. apply Hargv1. lia.
Qed.

(** After [parse_tokens] on a line that starts with the token [t], the first
    stage points at entry 0, and entry 0 holds what the first turn of the
    loop left there. *)
Lemma parse_tokens_first t rest m fd_in fd_out fds :
  ∃ s s1 c cs,
    parse_tokens (parser_start (t :: rest) m fd_in fd_out fds) = Returns s ∧
    parse_token 0 t
      (set_piped_command
         (with_command 0 (piped_command (parser_start (t :: rest) m fd_in fd_out fds)))
         (parser_start (t :: rest) m fd_in fd_out fds)) = Returns s1 ∧
    argv s !! 0%nat = argv s1 !! 0%nat ∧
    pipe_commands s = c :: cs ∧ command c = Some 0%nat.
Proof.
  destruct (parse_tokens_returns (t :: rest) m fd_in fd_out fds) as [s Hs].
  unfold parse_tokens in Hs |- *.
  set (s0 := set_piped_command _ _) in *.
  destruct (parse_loop (length (argv s0)) 0 s0) as [s'|] eqn:Hloop; [|done].
  simplify_eq.
  change (length (argv s0)) with (S (length (gettoks rest))) in Hloop.
  rewrite (parse_loop_tok _ _ _ t) in Hloop by done.
  destruct (parse_token 0 t s0) as [s1|] eqn:Htok; [|done].
  destruct (parse_token_frame 0 t s0 s1 Htok) as [_ Hfirst1].
  destruct (parse_loop_frame _ 1 s1 s' Hloop) as [Hargv' Hfirst'].
  assert (first_command s' = Some (Some 0%nat)) as Hfirst by (by rewrite Hfirst', Hfirst1).
  unfold first_command in Hfirst. simpl.
  destruct (pipe_commands s' ++ [piped_command s']) as [|c cs] eqn:Hpush; [done|].
  simpl in Hfirst. exists (push_back_piped s'), s1, c, cs.
  split_and!; [done..| |done|congruence].
  simpl. apply Hargv'. lia.
Qed.
(** [parse_tokens] returns on a line that starts with the token [t], and
    [evaluate_cmd] then picks the command by [t], or is handed the null
    pointer that [parse_tokens] wrote over entry 0. *)
Lemma parse_evaluate_first t rest m fd_in fd_out fds :
  ∃ s,
    parse_tokens (parser_start (t :: rest) m fd_in fd_out fds) = Returns s ∧
    (plain t → (t ≠ AMPERSAND ∨ rest ≠ []) →
     evaluate_cmd s
     = Returns (if bool_decide (t = "myhist") then run_myhist
                else if bool_decide (t = "forweb") then run_forweb
                else if bool_decide (t = "nls") then run_nls
                else if bool_decide (t = "prunedir") then run_prunedir
                else run_external)) ∧
    (¬ plain t ∨ (t = AMPERSAND ∧ rest = []) → evaluate_cmd s = Undefined).
Proof.
  destruct (parse_tokens_first t rest m fd_in fd_out fds)
    as (s & s1 & c & cs & Hparse & Htok & Hargv & Hpush & Hcmd).
  exists s. split; [done|].
  unfold evaluate_cmd. rewrite Hpush, Hcmd. unfold read_tok. rewrite Hargv.
  clear Hparse Hargv Hpush Hcmd.
  set (s0 := set_piped_command _ _) in Htok.
  assert (argv s0 !! 0%nat = Some (Some t)) as H0 by done.
  split.
  - intros Hplain Hnotamp.
    destruct rest as [|t' rest].
    + rewrite parse_token_last in Htok by done.
      destruct Hnotamp as [Hamp|?]; [|done].
      rewrite bool_decide_eq_false_2 in Htok by done. simplify_eq.
      change (argv (set_mode FG s0)) with (argv s0). by rewrite H0.
    + rewrite (parse_token_plain _ _ _ t') in Htok by done. simplify_eq.
      by rewrite H0.
  - intros [Hop|[-> ->]].
    + assert (t = IN_REDIR ∨ t = OUT_REDIR ∨ t = PIPE) as Hcases.
      { unfold plain in Hop.
        destruct (decide (t = IN_REDIR)); [by left|].
        destruct (decide (t = OUT_REDIR)); [by auto|].
        destruct (decide (t = PIPE)); [by auto|]. by destruct Hop. }
      assert (∃ f, argv s0 !! 1%nat = Some f) as [f Hf]
        by (destruct rest; by eexists).
      unfold parse_token, read_tok in Htok. change (0 + 1)%nat with 1%nat in Htok.
      rewrite Hf in Htok.
      destruct Hcases as [-> | [-> | ->]];
        simpl in Htok; simplify_eq; done.
    + vm_compute in Htok. by simplify_eq.
Qed.

End parser_first_token.

(** X17. The turn of the loop of [main] on a line, by its first token.
    Nothing is done on a line without tokens. On [myexit] the loop is left
    before the line is parsed, whatever follows the word. Any other word
    sends the line on: [myhist], [forweb], [nls] and [prunedir] to the
    built-in commands, any other word to [external_cmd]. A line whose first
    token is [<], [>] or [|], or that is the single token [&], makes
    [parse_tokens] write [NULL] over entry 0; [evaluate_cmd] then hands that
    null pointer to [strcmp]: its behaviour is undefined. *)
Theorem run_line_first_token t rest m fd_in fd_out fds :
  run_line (parser_start [] m fd_in fd_out fds) = Returns line_skipped ∧
  (t = STR_MYEXIT →
   run_line (parser_start (t :: rest) m fd_in fd_out fds) = Returns line_leaves) ∧
  (t ≠ STR_MYEXIT → plain t → (t ≠ AMPERSAND ∨ rest ≠ []) →
   run_line (parser_start (t :: rest) m fd_in fd_out fds)
   = Returns (line_runs
                (if bool_decide (t = "myhist") then run_myhist
                 else if bool_decide (t = "forweb") then run_forweb
                 else if bool_decide (t = "nls") then run_nls
                 else if bool_decide (t = "prunedir") then run_prunedir
                 else run_external))) ∧
  (¬ plain t ∨ (t = AMPERSAND ∧ rest = []) →
   run_line (parser_start (t :: rest) m fd_in fd_out fds) = Undefined).
Proof.
  split; [done|]. split.
  { intros ->. done. }
  assert (t ≠ STR_MYEXIT →
          run_line (parser_start (t :: rest) m fd_in fd_out fds)
          = match parse_tokens (parser_start (t :: rest) m fd_in fd_out fds) with
            | Returns s =>
                match evaluate_cmd s with
                | Returns k => Returns (line_runs k)
                | Undefined => Undefined
                end
            | Undefined => Undefined
            end) as Hrun.
  { intros Hne. unfold run_line. simpl. by rewrite bool_decide_eq_false_2. }
  destruct (parse_evaluate_first t rest m fd_in fd_out fds)
    as (s & Hparse & Hword & Hnull).
  rewrite Hparse in Hrun. split.
  - intros Hne Hplain Hnotamp. by rewrite (Hrun Hne), Hword.
  - intros Hbad. destruct (decide (t = STR_MYEXIT)) as [->|Hne].
    + destruct Hbad as [Hop|[? _]]; [|done].
      destruct Hop. by unfold plain.
    + by rewrite (Hrun Hne), Hnull.
Qed.

(** X18. A line that ends with [<], [>] or [|]: [parse_tokens] returns, the
    file of a dangling redirection stays unset, a dangling [|] opens one more
    stage with an empty argument vector, and in every case [mode] keeps the
    value that the line before left in it. *)
Theorem parse_dangling_operator ws op m fd_in fd_out fds :
  Forall plain ws → op = IN_REDIR ∨ op = OUT_REDIR ∨ op = PIPE →
  ∃ s,
    parse_tokens (parser_start (ws ++ [op]) m fd_in fd_out fds) = Returns s ∧
    stages s = (if bool_decide (op = PIPE)
                then [(ws, None, None); ([], None, None)]
                else [(ws, None, None)]) ∧
    mode s = m.
Proof.
  intros Hws Hop. unfold parse_tokens.
  set (s0 := set_piped_command _ _).
  assert (argv s0 = [] ++ (Some <$> ws) ++ Some op :: [None]) as Hargv
    by (simpl; unfold gettoks; by rewrite fmap_app, <- app_assoc).
  assert (length (argv s0) = (length ws + 2)%nat) as ->.
  { rewrite Hargv. simpl. rewrite !length_app, !length_fmap. simpl. lia. }
  rewrite (parse_loop_skip ws [] s0 _ op [None]); [|done|done].
  change (length [] + length ws)%nat with (length ws). set (i := length ws).
  assert (argv s0 !! i = Some (Some op)) as Hi.
  { rewrite Hargv. simpl. apply list_lookup_middle. by rewrite length_fmap. }
  assert (argv s0 !! (i + 1)%nat = Some None) as Hnext.
  { rewrite Hargv. simpl. rewrite lookup_app_r by (rewrite length_fmap; lia).
    rewrite length_fmap. by replace (i + 1 - length ws)%nat with 1%nat by lia. }
  rewrite (parse_loop_tok _ _ _ op) by done.
  assert (∀ s1, argv s1 = <[i := None]> (argv s0) →
            parse_loop 1 (S i) s1 = Returns s1 ∧
            argv s1 = [] ++ (Some <$> ws) ++ None :: [None]) as Hrest.
  { intros s1 Hargv1.
    assert (argv s1 = [] ++ (Some <$> ws) ++ None :: [None]) as Hshape.
    { rewrite Hargv1, Hargv. simpl. subst i.
      replace (length ws) with (length (Some <$> ws)) by apply length_fmap.
      by rewrite insert_middle. }
    split; [|done]. apply parse_loop_null. rewrite Hshape. simpl.
    rewrite lookup_app_r by (rewrite length_fmap; lia).
    rewrite length_fmap. by replace (S i - length ws)%nat with 1%nat by lia. }
  destruct Hop as [-> | [-> | ->]].
  - assert (parse_token i IN_REDIR s0
            = Returns (set_tok_null i
                (set_piped_command (with_file_in None (piped_command s0)) s0))) as ->
      by (unfold parse_token, read_tok; by rewrite Hnext).
    match goal with
    | |- context [parse_loop 1 (S i) ?s1] =>
        destruct (Hrest s1 eq_refl) as [-> Hshape]
    end.
    eexists. split; [done|]. split; [|done]. unfold stages. simpl.
    by rewrite (stage_words _ _ [] ws [None]).
  - assert (parse_token i OUT_REDIR s0
            = Returns (set_tok_null i
                (set_piped_command (with_file_out None (piped_command s0)) s0))) as ->
      by (unfold parse_token, read_tok; by rewrite Hnext).
    match goal with
    | |- context [parse_loop 1 (S i) ?s1] =>
        destruct (Hrest s1 eq_refl) as [-> Hshape]
    end.
    eexists. split; [done|]. split; [|done]. unfold stages. simpl.
    by rewrite (stage_words _ _ [] ws [None]).
  - assert (parse_token i PIPE s0
            = Returns (set_tok_null i
                (set_piped_command
                   (with_file_out None
                      (with_file_in None
                         (with_command (i + 1) (piped_command (push_back_piped s0)))))
                   (push_back_piped s0)))) as -> by reflexivity.
    match goal with
    | |- context [parse_loop 1 (S i) ?s1] =>
        destruct (Hrest s1 eq_refl) as [-> Hshape]
    end.
    eexists. split; [done|]. split; [|done]. unfold stages. simpl.
    rewrite (stage_words _ _ [] ws [None]) by done.
    rewrite (stage_words _ _ ((Some <$> ws) ++ [None]) [] []); [done| |].
    + simpl. rewrite length_app, length_fmap. done.
    + transitivity ([] ++ (Some <$> ws) ++ None :: [None]); [exact Hshape|].
      simpl. by rewrite <- app_assoc.
Qed.

Lemma parse_dangling_operator_witness :
  Forall plain ["sort"] ∧ (">" = IN_REDIR ∨ ">" = OUT_REDIR ∨ ">" = PIPE) ∧
  ∃ s,
    parse_tokens (parser_start ["sort"; ">"] BG 0 0 (0, 1)) = Returns s ∧
    stages s = [(["sort"], None, None)] ∧ mode s = BG.
Proof.
  assert (Forall plain ["sort"]) as Hws
    by (repeat apply Forall_cons_2; try apply Forall_nil_2; by split_and!).
  split; [exact Hws|]. split; [right; left; reflexivity|].
  exact (parse_dangling_operator ["sort"] ">" BG 0 0 (0, 1) Hws
           (or_intror (or_introl eq_refl))).
Defined.

(** ** The history of [hfsh.cpp] *)

Section history.

Local Open Scope list_scope.

(** A key above every key of the map is inserted at the end. *)
Lemma map_insert_last k v (h : history_t) :
  Forall (λ e, fst e < k) h →
  map_insert k v h = h ++ [(k, v)].
Proof.
  induction 1 as [|e h He _ IH]; [done|]; simpl.
  rewrite bool_decide_eq_false_2 by lia.
  rewrite bool_decide_eq_false_2 by lia.
  by rewrite IH.
Qed.

(** One more line is stored under the next number. *)
Lemma update_history_entries stored toks :
  update_history (gettoks toks) (imap history_entry stored)
  = imap history_entry (stored ++ [toks]).
Proof.
  unfold update_history. rewrite length_imap. unfold gettoks.
  rewrite (c_strings_words toks []).
  rewrite map_insert_last.
  - rewrite imap_app. simpl. unfold history_entry at 3. simpl.
    by rewrite Nat.add_0_r.
  - apply Forall_lookup. intros i e He.
    apply list_lookup_imap_Some in He as (toks' & Hi & ->).
    apply lookup_lt_Some in Hi. unfold history_entry. simpl. lia.
Qed.

Lemma well_begun_cases t rest :
  t ≠ STR_MYEXIT →
  (well_begun (t :: rest) ∧ plain t ∧ (t ≠ AMPERSAND ∨ rest ≠ [])) ∨
  (¬ well_begun (t :: rest) ∧ (¬ plain t ∨ (t = AMPERSAND ∧ rest = []))).
Proof.
  intros Hne. unfold well_begun, plain.
  destruct (decide (t = IN_REDIR));
    [right; split; [intros [?|[(? & ? & ?) _]]; congruence
                   |left; intros (? & ? & ?); congruence]|].
  destruct (decide (t = OUT_REDIR));
    [right; split; [intros [?|[(? & ? & ?) _]]; congruence
                   |left; intros (? & ? & ?); congruence]|].
  destruct (decide (t = PIPE));
    [right; split; [intros [?|[(? & ? & ?) _]]; congruence
                   |left; intros (? & ? & ?); congruence]|].
  destruct (decide (t = AMPERSAND)); [|left; split_and!; auto].
  destruct rest.
  - right. split; [intros [?|[_ [?|?]]]; congruence|by right].
  - left. split_and!; auto.
Qed.

Lemma main_history_entries lines :
  ∀ m fd stored,
    (Forall well_begun (lines_stored lines) →
     main_history m fd (imap history_entry stored) lines
     = Returns (imap history_entry (stored ++ lines_stored lines))) ∧
    (¬ Forall well_begun (lines_stored lines) →
     main_history m fd (imap history_entry stored) lines = Undefined).
Proof.
  induction lines as [|[|t ts] lines IH]; intros m fd stored; simpl.
  - split; [by rewrite app_nil_r|]. intros []. constructor.
  - apply IH.
  - rewrite update_history_entries. case_bool_decide as Hexit.
    { split; [done|]. intros []. constructor; [by left|constructor]. }
    destruct (parse_evaluate_first t ts m fd fd (0, 1))
      as (s & -> & Hword & Hnull).
    destruct (well_begun_cases t ts Hexit) as [(Hok & Hplain & Hamp)|[Hbad Hop]].
    + rewrite (Hword Hplain Hamp).
      destruct (IH (mode s) (-1) (stored ++ [t :: ts])) as [IHok IHbad].
      rewrite <- app_assoc in IHok. split.
      * intros Hall. apply IHok. by inversion Hall.
      * intros Hnot. apply IHbad. intros Hall. apply Hnot. by constructor.
    + rewrite (Hnull Hop). split; [|done].
      intros Hall. by inversion Hall.
Qed.

Lemma history_after_entries lines :
  (Forall well_begun (lines_stored lines) →
   history_after lines = Returns (imap history_entry (lines_stored lines))) ∧
  (¬ Forall well_begun (lines_stored lines) → history_after lines = Undefined).
Proof. apply (main_history_entries lines 0 0 []). Qed.

Lemma myhist_stdout (h : history_t) g :
  stdout (myhist h g) =
  stdout g ++ ((λ e, " " +:+ pretty (fst e) +:+ " " +:+ snd e +:+ nl) <$> h).
Proof.
  unfold myhist. revert g.
  induction h as [|e h IH]; intros g; simpl.
  - by rewrite app_nil_r.
  - rewrite IH. simpl. by rewrite <- app_assoc.
Qed.

Lemma classic_forall_well_begun (ls : list (list string)) :
  Forall well_begun ls ∨ ¬ Forall well_begun ls.
Proof.
  induction ls as [|[|t rest] ls [IH|IH]].
  - left. constructor.
  - left. by constructor.
  - right. intros Hall. by inversion Hall.
  - destruct (decide (t = STR_MYEXIT)) as [->|Hne].
    { left. constructor; [by left|done]. }
    destruct (well_begun_cases t rest Hne) as [(Hok & _)|[Hbad _]].
    + left. by constructor.
    + right. intros Hall. by inversion Hall.
  - right. intros Hall. by inversion Hall.
Qed.

(** X19. The history of [hfsh.cpp] over the lines of a session: a line
    without tokens is not stored, and nothing is read after [myexit]. As
    long as every stored line begins with [myexit] or with a word that
    [evaluate_cmd] can read, the lines that are stored are numbered from 1 in
    the order in which they were read: none is dropped and none replaces
    another. [myhist] then prints one numbered line for each of them in that
    order, and [current_command] returns the text of the one stored last;
    while nothing is stored it steps back from [end()] of an empty map.
    When a stored line begins with [<], [>] or [|], or is a lone [&], the
    behaviour of the session is undefined. *)
Theorem history_numbers_lines (lines : list (list string)) :
  (Forall well_begun (lines_stored lines) →
   history_after lines = Returns (imap history_entry (lines_stored lines))) ∧
  (¬ Forall well_begun (lines_stored lines) → history_after lines = Undefined) ∧
  (∀ h, history_after lines = Returns h →
     (∀ g, stdout (myhist h g)
           = stdout g ++
             imap (λ i toks, " " +:+ pretty (Z.of_nat i + 1) +:+ " "
                               +:+ history_line toks +:+ nl) (lines_stored lines)) ∧
     current_command h
     = match last (lines_stored lines) with
       | Some toks => Returns (history_line toks)
       | None => Undefined
       end).
Proof.
  destruct (history_after_entries lines) as [Hok Hbad].
  split_and!; [done..|].
  intros h Hh.
  assert (h = imap history_entry (lines_stored lines)) as ->.
  { destruct (classic_forall_well_begun (lines_stored lines)) as [Hall|Hnot].
    - rewrite (Hok Hall) in Hh. by simplify_eq.
    - by rewrite (Hbad Hnot) in Hh. }
  split.
  - intros g. rewrite myhist_stdout.
    f_equal. rewrite fmap_imap. by apply imap_ext.
  - unfold current_command.
    destruct (lines_stored lines) as [|toks stored _] using rev_ind; [done|].
    rewrite imap_app. simpl. by rewrite !last_snoc.
Qed.

End history.

(** ** [parseline] of [tsh.c] *)

Section parseline_facts.

Local Open Scope list_scope.
Local Open Scope nat_scope.

Local Arguments NUL : simpl never.

Implicit Types (cs l pre rest junk : list ascii) (xs : list (written * nat)).

Lemma strlen_text l rest :
  NUL ∉ l → strlen (l ++ NUL :: rest) = Returns (length l).
Proof.
  induction l as [|c l IH]; simpl; intros Hl.
  - by rewrite ?bool_decide_eq_true_2.
  - apply not_elem_of_cons in Hl as [Hc Hl].
    rewrite bool_decide_eq_false_2 by done. by rewrite IH.
Qed.

Lemma strcpy_text l junk dst :
  NUL ∉ l → length l < length dst →
  strcpy dst (l ++ NUL :: junk) = Returns (l ++ NUL :: drop (S (length l)) dst).
Proof.
  revert dst. induction l as [|c l IH]; intros [|d dst] Hl Hlen; simpl in *; try lia.
  - rewrite ?bool_decide_eq_true_2 by done. by rewrite ?drop_0.
  - apply not_elem_of_cons in Hl as [Hc Hl].
    rewrite bool_decide_eq_false_2 by done.
    rewrite IH by (done || lia). done.
Qed.

Lemma strchr_found cs c rest :
  c ∉ cs → NUL ∉ cs → strchr (cs ++ c :: rest) c = Returns (Some (length cs)).
Proof.
  induction cs as [|x cs IH]; simpl; intros Hc Hn.
  - by rewrite ?bool_decide_eq_true_2.
  - apply not_elem_of_cons in Hc as [Hc Hc'].
    apply not_elem_of_cons in Hn as [Hn Hn'].
    rewrite !bool_decide_eq_false_2 by done. by rewrite IH.
Qed.

Lemma strchr_missing cs c rest :
  c ∉ cs → NUL ∉ cs → c ≠ NUL → strchr (cs ++ NUL :: rest) c = Returns None.
Proof.
  intros Hc Hn Hcn. induction cs as [|x cs IH]; simpl.
  - rewrite ?bool_decide_eq_false_2 by done. by rewrite ?bool_decide_eq_true_2.
  - apply not_elem_of_cons in Hc as [Hc Hc'].
    apply not_elem_of_cons in Hn as [Hn Hn'].
    rewrite !bool_decide_eq_false_2 by done. by rewrite IH.
Qed.

Lemma c_string_text w rest :
  NUL ∉ list_ascii_of_string w →
  c_string (list_ascii_of_string w ++ NUL :: rest) = Returns w.
Proof.
  induction w as [|c w IH]; simpl; intros Hn.
  - by rewrite ?bool_decide_eq_true_2.
  - apply not_elem_of_cons in Hn as [Hn Hn'].
    rewrite bool_decide_eq_false_2 by done. by rewrite IH.
Qed.

Lemma skip_spaces_blanks k rest :
  rest ≠ [] → head rest ≠ Some " "%char →
  skip_spaces (replicate k " "%char ++ rest) = Returns k.
Proof.
  intros Hne Hhd. induction k as [|k IH]; simpl.
  - destruct rest as [|c rest]; [done|]. simpl.
    destruct (bool_decide_reflect (c = " "%char)) as [->|]; [done|].
    by rewrite andb_false_r.
  - by rewrite IH.
Qed.

Lemma strchr_end c rest :
  c ≠ NUL → strchr (NUL :: rest) c = Returns None.
Proof. intros Hc. apply (strchr_missing [] c rest); [apply not_elem_of_nil..|done]. Qed.

Lemma parseline_loop_done fuel array buf args :
  parseline_loop fuel array buf None args = Returns (array, args).
Proof. by destruct fuel. Qed.

(** The three ways in which the search for a delimiter ends on the lines
    below: at the blank after a word, at the quote that closes a quoted
    text, and at the terminator. *)
Lemma find_delim_bare pre body rest :
  body ≠ [] → head body ≠ Some "'"%char → " "%char ∉ body → NUL ∉ body →
  find_delim (pre ++ body ++ " "%char :: rest) (length pre)
  = Returns (length pre, Some (length pre + length body)).
Proof.
  intros Hne Hq Hsp Hn. unfold find_delim.
  destruct body as [|c body]; [done|].
  rewrite <- app_comm_cons, list_lookup_middle by done.
  rewrite bool_decide_eq_false_2 by (by intros ->).
  rewrite drop_app_length, app_comm_cons.
  by rewrite strchr_found.
Qed.

Lemma find_delim_quoted pre body rest :
  "'"%char ∉ body → NUL ∉ body →
  find_delim (pre ++ "'"%char :: body ++ "'"%char :: rest) (length pre)
  = Returns (S (length pre), Some (S (length pre) + length body)).
Proof.
  intros Hq Hn. unfold find_delim.
  rewrite list_lookup_middle by done.
  rewrite bool_decide_eq_true_2 by done.
  rewrite (cons_middle _ pre), app_assoc.
  rewrite (drop_app_length' (pre ++ _)) by (rewrite length_app; simpl; lia).
  by rewrite strchr_found.
Qed.

Lemma find_delim_after_quote pre body rest :
  "'"%char ∉ body → NUL ∉ body →
  find_delim ((pre ++ ["'"%char]) ++ body ++ "'"%char :: rest) (length pre)
  = Returns (length (pre ++ ["'"%char]),
             Some (length (pre ++ ["'"%char]) + length body)).
Proof.
  intros Hq Hn. rewrite <- app_assoc. simpl.
  rewrite find_delim_quoted by done.
  by rewrite length_app, Nat.add_1_r.
Qed.

Lemma find_delim_end pre rest :
  find_delim (pre ++ NUL :: rest) (length pre) = Returns (length pre, None).
Proof.
  unfold find_delim. rewrite list_lookup_middle by done.
  rewrite bool_decide_eq_false_2 by done.
  rewrite drop_app_length. by rewrite strchr_end.
Qed.

(** One turn of the loop: the argument [body] that starts after [pre] and
    ends at [stop] is stored, [stop] becomes the terminator, and the search
    goes on after the blanks that follow. *)
Lemma parseline_loop_turn fuel pre body stop k rest args :
  length args < MAXARGS → rest ≠ [] → head rest ≠ Some " "%char →
  parseline_loop (S fuel) (pre ++ body ++ stop :: replicate k " "%char ++ rest)
    (length pre) (Some (length pre + length body)) args
  = match find_delim ((pre ++ body ++ NUL :: replicate k " "%char) ++ rest)
            (length (pre ++ body ++ NUL :: replicate k " "%char)) with
    | Returns (buf, delim) =>
        parseline_loop fuel ((pre ++ body ++ NUL :: replicate k " "%char) ++ rest)
          buf delim (args ++ [length pre])
    | Undefined => Undefined
    end.
Proof.
  intros Hargs Hne Hhd. cbn [parseline_loop].
  rewrite bool_decide_eq_false_2 by lia.
  assert (<[length pre + length body := NUL]>
            (pre ++ body ++ stop :: replicate k " "%char ++ rest)
          = (pre ++ body ++ NUL :: replicate k " "%char) ++ rest) as ->.
  { rewrite app_assoc, <- length_app, insert_middle.
    by rewrite <- !app_assoc. }
  assert (drop (S (length pre + length body))
            ((pre ++ body ++ NUL :: replicate k " "%char) ++ rest)
          = replicate k " "%char ++ rest) as ->.
  { transitivity (drop (S (length pre + length body))
                    ((pre ++ body ++ [NUL]) ++ replicate k " "%char ++ rest)).
    - f_equal. by rewrite <- !app_assoc.
    - apply drop_app_length'. rewrite !length_app. simpl. lia. }
  rewrite skip_spaces_blanks by done.
  replace (S (length pre + length body) + k)
    with (length (pre ++ body ++ NUL :: replicate k " "%char)); [done|].
  rewrite !length_app. simpl. rewrite length_replicate. lia.
Qed.

Lemma args_chars_cons x k xs :
  args_chars ((x, k) :: xs)
  = chars_of x ++ " "%char :: replicate k " "%char ++ args_chars xs.
Proof. unfold args_chars. simpl. by rewrite <- !app_assoc. Qed.

Lemma line_cons pre x k xs stop :
  pre ++ args_chars ((x, k) :: xs) ++ stop
  = pre ++ chars_of x ++ " "%char :: replicate k " "%char
        ++ (args_chars xs ++ stop).
Proof.
  rewrite args_chars_cons, <- !app_assoc. simpl. by rewrite <- !app_assoc.
Qed.

(** What follows the blanks after an argument is no blank. *)
Lemma args_chars_head xs stop :
  Forall well_written xs.*1 →
  stop ≠ [] → head stop ≠ Some " "%char →
  args_chars xs ++ stop ≠ [] ∧ head (args_chars xs ++ stop) ≠ Some " "%char.
Proof.
  destruct xs as [|[x k] xs]; [done|].
  intros [[Hn Hx] _]%Forall_cons _ _. rewrite args_chars_cons.
  destruct x as [w|q]; simpl in *.
  - destruct Hx as (Hemp & Hsp & _).
    destruct w as [|c w]; [done|]. simpl in *.
    apply not_elem_of_cons in Hsp as [Hsp _].
    split; [done|]. by intros [= ->].
  - done.
Qed.

Lemma length_args_chars xs : length xs ≤ length (args_chars xs).
Proof.
  induction xs as [|[x k] xs IH]; [done|].
  rewrite args_chars_cons, length_app. simpl. rewrite length_app. lia.
Qed.

Lemma line_chars_text xs lead :
  Forall well_written xs.*1 → NUL ∉ line_chars lead xs.
Proof.
  intros Hw. unfold line_chars.
  intros [Hin|Hin]%elem_of_app.
  { by apply elem_of_replicate_inv in Hin. }
  induction xs as [|[x k] xs IH]; [by apply elem_of_nil in Hin|].
  apply Forall_cons in Hw as [[Hn Hx] Hw].
  rewrite args_chars_cons in Hin.
  apply elem_of_app in Hin as [Hin|[?|[Hin|Hin]%elem_of_app]%elem_of_cons].
  - destruct x as [w|q]; simpl in *; [done|].
    apply elem_of_cons in Hin as [?|[?|Hin]%elem_of_app]; [done|done|].
    by apply list_elem_of_singleton in Hin.
  - done.
  - by apply elem_of_replicate_inv in Hin.
  - by apply IH.
Qed.

(** The search for a delimiter finds none at the terminator and at a quote
    that is not closed. *)
Lemma ends_line_terminator rest : ends_line (NUL :: rest).
Proof.
  split_and!; [done|done|]. intros pre. eexists. apply find_delim_end.
Qed.

Lemma ends_line_open_quote body rest :
  "'"%char ∉ body → NUL ∉ body → ends_line ("'"%char :: body ++ NUL :: rest).
Proof.
  intros Hq Hn. split_and!; [done|done|]. intros pre. eexists.
  unfold find_delim. rewrite list_lookup_middle by done.
  rewrite bool_decide_eq_true_2 by done.
  rewrite (cons_middle _ pre), app_assoc.
  rewrite (drop_app_length' (pre ++ _)) by (rewrite length_app; simpl; lia).
  by rewrite strchr_missing.
Qed.

(** The loop on a line: every argument is stored, and the bytes before the
    first of them are left as they are. *)
Lemma parseline_loop_args xs : ∀ fuel pre args stop,
  Forall well_written xs.*1 →
  ends_line stop →
  length xs ≤ fuel →
  length args + length xs ≤ MAXARGS →
  ∃ ptrs tail,
    match find_delim (pre ++ args_chars xs ++ stop) (length pre) with
    | Returns (buf, delim) =>
        parseline_loop fuel (pre ++ args_chars xs ++ stop) buf delim args
    | Undefined => Undefined
    end = Returns (pre ++ tail, args ++ ptrs) ∧
    arg_strings (pre ++ tail) ptrs = Returns (text_of <$> xs.*1).
Proof.
  induction xs as [|[x k] xs IH]; intros fuel pre args stop Hw Hstop Hfuel Hargs.
  { exists [], stop. unfold args_chars. simpl.
    destruct Hstop as (_ & _ & Hstop). destruct (Hstop pre) as [buf ->].
    rewrite parseline_loop_done. by rewrite app_nil_r. }
  simpl in Hw, Hfuel, Hargs.
  apply Forall_cons in Hw as [[Hn Hx] Hw].
  destruct fuel as [|fuel]; [lia|].
  destruct (args_chars_head xs stop Hw) as [Hne Hhd]; [apply Hstop..|].
  rewrite line_cons.
  destruct x as [w|q]; cbn [chars_of text_of well_written] in Hn, Hx |- *.
  - destruct Hx as (Hemp & Hsp & Hq).
    rewrite find_delim_bare by (done || by destruct w).
    rewrite parseline_loop_turn by (done || lia).
    destruct (IH fuel (pre ++ list_ascii_of_string w ++ NUL :: replicate k " "%char)
                (args ++ [length pre]) stop Hw Hstop)
      as (ptrs & tail & Hrun & Hstr); [lia|rewrite length_app; simpl; lia|].
    rewrite <- app_assoc in Hrun. rewrite <- app_assoc. simpl in Hrun |- *.
    exists (length pre :: ptrs),
      (list_ascii_of_string w ++ NUL :: replicate k " "%char ++ tail).
    split.
    + rewrite Hrun. by rewrite <- !app_assoc.
    + simpl. rewrite drop_app_length, c_string_text by done.
      rewrite <- !app_assoc in Hstr. simpl in Hstr. by rewrite Hstr.
  - assert (pre ++ ("'"%char :: list_ascii_of_string q ++ ["'"%char])
              ++ " "%char :: replicate k " "%char ++ args_chars xs ++ stop
            = (pre ++ ["'"%char]) ++ list_ascii_of_string q
              ++ "'"%char :: replicate (S k) " "%char
              ++ args_chars xs ++ stop) as ->.
    { simpl. by rewrite <- !app_assoc. }
    rewrite find_delim_after_quote by done.
    rewrite parseline_loop_turn by (done || lia).
    destruct (IH fuel ((pre ++ ["'"%char]) ++ list_ascii_of_string q
                         ++ NUL :: replicate (S k) " "%char)
                (args ++ [length (pre ++ ["'"%char])]) stop Hw Hstop)
      as (ptrs & tail & Hrun & Hstr); [lia|rewrite length_app; simpl; lia|].
    exists (length (pre ++ ["'"%char]) :: ptrs),
      ("'"%char :: list_ascii_of_string q
         ++ NUL :: replicate (S k) " "%char ++ tail).
    assert (pre ++ "'"%char :: list_ascii_of_string q
              ++ NUL :: replicate (S k) " "%char ++ tail
            = ((pre ++ ["'"%char]) ++ list_ascii_of_string q
                 ++ NUL :: replicate (S k) " "%char) ++ tail) as ->.
    { simpl. by rewrite <- !app_assoc. }
    split.
    + rewrite Hrun. by rewrite <- !app_assoc.
    + cbn [arg_strings]. rewrite Hstr.
      rewrite <- (app_assoc (pre ++ ["'"%char])), drop_app_length.
      rewrite <- app_assoc. simpl.
      by rewrite c_string_text.
Qed.

Lemma arg_strings_Forall2 array ptrs ss :
  arg_strings array ptrs = Returns ss ↔
  Forall2 (λ p s, c_string (drop p array) = Returns s) ptrs ss.
Proof.
  revert ss. induction ptrs as [|p ptrs IH]; intros ss; simpl.
  - split; [by intros [= <-]; constructor|by inversion 1].
  - destruct (c_string (drop p array)) as [s|] eqn:Hs.
    + destruct (arg_strings array ptrs) as [ss'|] eqn:Hss.
      * split.
        -- intros [= <-]. constructor; [done|]. by apply IH.
        -- inversion 1 as [|? s' ? ss'' Hs' Hss']; subst.
           apply IH in Hss'. congruence.
      * split; [done|].
        inversion 1 as [|? s' ? ss'' Hs' Hss']; subst.
        apply IH in Hss'. congruence.
    + split; [done|]. inversion 1; congruence.
Qed.

(** The first byte of an argument says whether its text starts with [&]. *)
Lemma c_string_amp array p s :
  c_string (drop p array) = Returns s →
  ∃ c, array !! p = Some c ∧ bool_decide (c = "&"%char) = starts_with_amp s.
Proof.
  assert (array !! p = head (drop p array)) as ->.
  { by rewrite head_lookup, lookup_drop, Nat.add_0_r. }
  destruct (drop p array) as [|c cs]; [done|]. simpl.
  exists c. split; [done|].
  destruct (bool_decide_reflect (c = NUL)) as [->|Hc].
  - by simplify_eq.
  - destruct (c_string cs); by simplify_eq.
Qed.

(** The start of [parseline]: the line is copied into the buffer and its
    last byte becomes a blank. *)
Lemma parseline_copy array l c junk :
  NUL ∉ l → c ≠ NUL → length l + 2 ≤ length array →
  ∃ rest,
    strcpy array (l ++ c :: NUL :: junk) = Returns (l ++ c :: NUL :: rest) ∧
    strlen (l ++ c :: NUL :: rest) = Returns (S (length l)) ∧
    <[length l := " "%char]> (l ++ c :: NUL :: rest) = l ++ " "%char :: NUL :: rest.
Proof.
  intros Hl Hc Hlen. exists (drop (S (S (length l))) array).
  assert (NUL ∉ l ++ [c]) as Hnul.
  { apply not_elem_of_app. split; [done|].
    intros Heq%list_elem_of_singleton. by apply Hc. }
  assert (∀ r, l ++ c :: NUL :: r = (l ++ [c]) ++ NUL :: r) as Hsplit.
  { intros r. by rewrite <- app_assoc. }
  split_and!.
  - rewrite !Hsplit, strcpy_text by (done || rewrite length_app; simpl; lia).
    by rewrite length_app, Nat.add_1_r.
  - rewrite Hsplit, strlen_text by done. by rewrite length_app, Nat.add_1_r.
  - apply insert_middle.
Qed.

(** [parseline] on a line of arguments that are followed by blanks. *)
Lemma parseline_line array l c junk lead xs :
  NUL ∉ l → c ≠ NUL → length l + 2 ≤ length array →
  length xs < MAXARGS →
  Forall well_written xs.*1 →
  (∀ rest, ∃ stop,
     ends_line stop ∧
     l ++ " "%char :: NUL :: rest = line_chars lead xs ++ stop) →
  ∃ args array',
    parseline array (l ++ c :: NUL :: junk)
    = Returns (line_bg xs, args, array') ∧
    arg_strings array' args = Returns (line_args xs).
Proof.
  intros Hl Hc Hlen Hxs Hw Hshape. unfold line_bg, line_args.
  destruct (parseline_copy array l c junk Hl Hc Hlen) as (rest & Hcpy & Hlen' & Hins).
  destruct (Hshape rest) as (stop & Hstop & Hline).
  unfold parseline. rewrite Hcpy, Hlen'. cbv beta iota zeta.
  rewrite Hins, Hline. unfold line_chars. rewrite <- app_assoc.
  destruct (args_chars_head xs stop Hw) as [Hne Hhd]; [apply Hstop..|].
  rewrite skip_spaces_blanks by done.
  set (line := replicate lead " "%char ++ args_chars xs ++ stop).
  destruct (parseline_loop_args xs (length line) (replicate lead " "%char) [] stop
              Hw Hstop)
    as (ptrs & tail & Hrun & Hstr).
  { subst line. rewrite !length_app. pose proof (length_args_chars xs). lia. }
  { simpl. lia. }
  rewrite length_replicate in Hrun. fold line in Hrun.
  destruct (find_delim line lead) as [[buf delim]|]; [|done].
  rewrite Hrun. clear Hrun. simpl app.
  set (array' := replicate lead " "%char ++ tail) in *.
  apply arg_strings_Forall2 in Hstr. fold (line_words xs) in Hstr.
  pose proof (Forall2_length _ _ _ Hstr) as Hptrs.
  assert (length (line_words xs) = length xs) as Hwords.
  { unfold line_words. by rewrite !length_fmap. }
  rewrite bool_decide_eq_false_2 by lia.
  unfold background.
  destruct (last ptrs) as [p|] eqn:Hlast.
  - apply last_Some in Hlast as [ptrs0 ->].
    apply Forall2_app_inv_l in Hstr as (ws0 & ws1 & Hws0 & Hws1 & Heq).
    inversion Hws1 as [|? w ? ? Hp Hnil]; subst. inversion Hnil; subst.
    rewrite Heq, last_snoc.
    destruct (c_string_amp _ _ _ Hp) as (c' & -> & <-).
    rewrite (bool_decide_eq_false_2 (ws0 ++ [w] = [])) by (by destruct ws0).
    simpl orb.
    rewrite !length_app. simpl length. rewrite !Nat.add_sub, !take_app_length.
    destruct (bool_decide (c' = "&"%char)).
    + exists ptrs0, array'. split; [done|]. by apply arg_strings_Forall2.
    + exists (ptrs0 ++ [p]), array'. split; [done|].
      apply arg_strings_Forall2. apply Forall2_app; [done|].
      by constructor.
  - apply last_None in Hlast as ->. inversion Hstr; subst.
    exists [], array'. by split.
Qed.

(** [parseline] on a line that ends after its last argument. *)
Lemma parseline_words array l junk c lead xs :
  l ++ [" "%char] = line_chars lead xs →
  c ≠ NUL →
  length l + 2 ≤ length array →
  length xs < MAXARGS →
  Forall well_written xs.*1 →
  ∃ args array',
    parseline array (l ++ c :: NUL :: junk)
    = Returns (line_bg xs, args, array') ∧
    arg_strings array' args = Returns (line_args xs).
Proof.
  intros Hline Hc Hlen Hxs Hw.
  apply (parseline_line array l c junk lead xs); try done.
  - pose proof (line_chars_text xs lead Hw) as Hn. rewrite <- Hline in Hn.
    by apply not_elem_of_app in Hn as [Hn _].
  - intros rest. exists (NUL :: rest). split; [apply ends_line_terminator|].
    by rewrite (cons_middle " "%char), app_assoc, Hline.
Qed.

(** X20. [parseline] of [tsh.c] on a line of words and quoted texts, each
    followed by blanks: the last byte of the line is dropped whatever it
    is, every word and every text between quotes becomes one argument, in
    order, and what the static buffer and the bytes after the line held
    before has no effect. When the last argument starts with [&] it is
    removed and 1 is returned, also when more follows the [&] in it; a
    line without arguments returns 1 as well, and any other line 0. *)
Theorem parseline_splits_line (array l junk : list ascii) (c : ascii)
    (lead : nat) (xs : list (written * nat)) :
  l ++ [" "%char] = line_chars lead xs →
  c ≠ NUL →
  length l + 2 ≤ length array →
  length xs < MAXARGS →
  Forall well_written xs.*1 →
  ∃ args array',
    parseline array (l ++ c :: NUL :: junk)
    = Returns (line_bg xs, args, array') ∧
    arg_strings array' args = Returns (line_args xs).
Proof. apply parseline_words. Qed.

Lemma parseline_splits_line_witness :
  Forall well_written [Bare "/bin/ls"; Quoted "a b"; Bare "&"] ∧
  ∃ args array',
    parseline (replicate 32 "x"%char)
      (list_ascii_of_string "/bin/ls 'a b'  &" ++ "010"%char :: NUL :: [])
    = Returns (1%Z, args, array') ∧
    arg_strings array' args = Returns ["/bin/ls"; "a b"].
Proof.
  assert (Forall well_written [Bare "/bin/ls"; Quoted "a b"; Bare "&"]) as Hw.
  { repeat apply Forall_cons_2; try apply Forall_nil_2;
      (split; [|try split_and!]); try done;
      apply (bool_decide_unpack _); reflexivity. }
  split; [exact Hw|].
  exact (parseline_splits_line (replicate 32 "x"%char)
           (list_ascii_of_string "/bin/ls 'a b'  &") [] "010"%char 0
           [(Bare "/bin/ls", 0); (Quoted "a b", 1); (Bare "&", 0)]
           eq_refl ltac:(done) ltac:(simpl; lia) ltac:(unfold MAXARGS; simpl; lia) Hw).
Defined.

(** X21. [parseline] of [tsh.c] on a line that opens a quote and never
    closes it: the arguments before the quote are stored as on any other
    line, and the quote and all that follows it are dropped without a
    message. *)
Theorem parseline_drops_open_quote (array l junk body : list ascii) (c : ascii)
    (lead : nat) (xs : list (written * nat)) :
  l ++ [" "%char] = line_chars lead xs ++ "'"%char :: body →
  "'"%char ∉ body → NUL ∉ body →
  c ≠ NUL →
  length l + 2 ≤ length array →
  length xs < MAXARGS →
  Forall well_written xs.*1 →
  ∃ args array',
    parseline array (l ++ c :: NUL :: junk)
    = Returns (line_bg xs, args, array') ∧
    arg_strings array' args = Returns (line_args xs).
Proof.
  intros Hline Hq Hn Hc Hlen Hxs Hw.
  apply (parseline_line array l c junk lead xs); try done.
  - intros Hin. pose proof (line_chars_text xs lead Hw) as Hn'.
    assert (NUL ∈ l ++ [" "%char]) as Hin' by (apply elem_of_app; by left).
    rewrite Hline in Hin'.
    apply elem_of_app in Hin' as [?|[?|?]%elem_of_cons]; done.
  - intros rest. exists ("'"%char :: body ++ NUL :: rest).
    split; [by apply ends_line_open_quote|].
    rewrite (cons_middle " "%char), app_assoc, Hline.
    by rewrite <- app_assoc.
Qed.

Lemma parseline_drops_open_quote_witness :
  Forall well_written [Bare "/bin/echo"; Bare "a"] ∧
  ∃ args array',
    parseline (replicate 32 "x"%char)
      (list_ascii_of_string "/bin/echo a 'b c &" ++ "010"%char :: NUL :: [])
    = Returns (0%Z, args, array') ∧
    arg_strings array' args = Returns ["/bin/echo"; "a"].
Proof.
  assert (Forall well_written [Bare "/bin/echo"; Bare "a"]) as Hw.
  { repeat apply Forall_cons_2; try apply Forall_nil_2;
      (split; [|try split_and!]); try done;
      apply (bool_decide_unpack _); reflexivity. }
  split; [exact Hw|].
  exact (parseline_drops_open_quote (replicate 32 "x"%char)
           (list_ascii_of_string "/bin/echo a 'b c &") []
           (list_ascii_of_string "b c & ") "010"%char 0
           [(Bare "/bin/echo", 0); (Bare "a", 0)]
           eq_refl
           ltac:(apply (bool_decide_unpack _); reflexivity)
           ltac:(apply (bool_decide_unpack _); reflexivity)
           ltac:(done) ltac:(simpl; lia) ltac:(unfold MAXARGS; simpl; lia) Hw).
Defined.

(** The loop on a line with more arguments than [argv] has room for. *)
Lemma parseline_loop_overflow xs : ∀ fuel pre args stop,
  Forall well_written xs.*1 →
  ends_line stop →
  length xs ≤ fuel →
  length args ≤ MAXARGS →
  MAXARGS < length args + length xs →
  match find_delim (pre ++ args_chars xs ++ stop) (length pre) with
  | Returns (buf, delim) =>
      parseline_loop fuel (pre ++ args_chars xs ++ stop) buf delim args
  | Undefined => Undefined
  end = Undefined.
Proof.
  induction xs as [|[x k] xs IH]; intros fuel pre args stop Hw Hstop Hfuel Hargs Hmore.
  { simpl in Hmore. lia. }
  simpl in Hw, Hfuel, Hmore.
  apply Forall_cons in Hw as [[Hn Hx] Hw].
  destruct fuel as [|fuel]; [lia|].
  destruct (args_chars_head xs stop Hw) as [Hne Hhd]; [apply Hstop..|].
  rewrite line_cons.
  destruct x as [w|q]; cbn [chars_of text_of well_written] in Hn, Hx |- *.
  - destruct Hx as (Hemp & Hsp & Hq).
    rewrite find_delim_bare by (done || by destruct w).
    destruct (decide (length args = MAXARGS)) as [Hfull|Hroom].
    { cbn [parseline_loop]. by rewrite bool_decide_eq_true_2 by lia. }
    rewrite parseline_loop_turn by (done || lia).
    apply IH; try done; rewrite ?length_app; simpl; lia.
  - assert (pre ++ ("'"%char :: list_ascii_of_string q ++ ["'"%char])
              ++ " "%char :: replicate k " "%char ++ args_chars xs ++ stop
            = (pre ++ ["'"%char]) ++ list_ascii_of_string q
              ++ "'"%char :: replicate (S k) " "%char
              ++ args_chars xs ++ stop) as ->.
    { simpl. by rewrite <- !app_assoc. }
    rewrite find_delim_after_quote by done.
    destruct (decide (length args = MAXARGS)) as [Hfull|Hroom].
    { cbn [parseline_loop]. by rewrite bool_decide_eq_true_2 by lia. }
    rewrite parseline_loop_turn by (done || lia).
    apply IH; try done; rewrite ?length_app; simpl; lia.
Qed.

(** X22. [parseline] of [tsh.c] on a line with [MAXARGS] arguments or
    more: it stores past the last entry of [argv], the [NULL] after the
    arguments when there are exactly [MAXARGS] of them and an argument
    otherwise. Nothing in [parseline] counts the arguments against the size
    of the array. *)
Theorem parseline_overruns_argv (array l junk : list ascii) (c : ascii)
    (lead : nat) (xs : list (written * nat)) :
  l ++ [" "%char] = line_chars lead xs →
  c ≠ NUL →
  length l + 2 ≤ length array →
  MAXARGS ≤ length xs →
  Forall well_written xs.*1 →
  parseline array (l ++ c :: NUL :: junk) = Undefined.
Proof.
  intros Hline Hc Hlen Hxs Hw.
  assert (NUL ∉ l) as Hl.
  { pose proof (line_chars_text xs lead Hw) as Hn. rewrite <- Hline in Hn.
    by apply not_elem_of_app in Hn as [Hn _]. }
  destruct (parseline_copy array l c junk Hl Hc Hlen) as (rest & Hcpy & Hlen' & Hins).
  unfold parseline. rewrite Hcpy, Hlen'. cbv beta iota zeta.
  rewrite Hins, (cons_middle " "%char), app_assoc, Hline.
  unfold line_chars. rewrite <- app_assoc.
  pose proof (ends_line_terminator rest) as Hstop.
  destruct (args_chars_head xs (NUL :: rest) Hw) as [Hne Hhd]; [apply Hstop..|].
  rewrite skip_spaces_blanks by done.
  set (line := replicate lead " "%char ++ args_chars xs ++ NUL :: rest).
  assert (length xs ≤ length line) as Hfuel.
  { subst line. rewrite !length_app. pose proof (length_args_chars xs). lia. }
  destruct (decide (length xs = MAXARGS)) as [Heq|Hne'].
  - destruct (parseline_loop_args xs (length line) (replicate lead " "%char) []
                (NUL :: rest) Hw Hstop Hfuel)
      as (ptrs & tail & Hrun & Hstr); [simpl; lia|].
    rewrite length_replicate in Hrun. fold line in Hrun.
    destruct (find_delim line lead) as [[buf delim]|]; [|done].
    rewrite Hrun. simpl app.
    apply arg_strings_Forall2, Forall2_length in Hstr.
    rewrite !length_fmap in Hstr.
    by rewrite bool_decide_eq_true_2 by lia.
  - pose proof (parseline_loop_overflow xs (length line) (replicate lead " "%char) []
                  (NUL :: rest) Hw Hstop Hfuel) as Hrun.
    rewrite length_replicate in Hrun. fold line in Hrun.
    destruct (find_delim line lead) as [[buf delim]|]; [|done].
    rewrite Hrun; [done|unfold MAXARGS; simpl; lia|simpl; lia].
Qed.

Lemma parseline_overruns_argv_witness :
  Forall well_written (replicate 128 (Bare "a")) ∧
  parseline (replicate 1024 NUL)
    (concat (replicate 127 (list_ascii_of_string "a ")) ++ ["a"%char]
       ++ "010"%char :: NUL :: [])
  = Undefined.
Proof.
  assert (Forall well_written (replicate 128 (Bare "a", 0)).*1) as Hw.
  { rewrite fmap_replicate. apply Forall_replicate.
    (split; [|split_and!]); try done; apply (bool_decide_unpack _); reflexivity. }
  split; [by rewrite fmap_replicate in Hw|].
  exact (parseline_overruns_argv (replicate 1024 NUL)
           (concat (replicate 127 (list_ascii_of_string "a ")) ++ ["a"%char])
           [] "010"%char 0 (replicate 128 (Bare "a", 0))
           eq_refl ltac:(done)
           ltac:(apply Nat.leb_le; vm_compute; reflexivity)
           ltac:(apply Nat.leb_le; vm_compute; reflexivity) Hw).
Defined.

End parseline_facts.

(** ** [eval] of [tsh.c] *)

Section eval_facts.

Local Open Scope list_scope.

Implicit Types (l junk array buf : list ascii) (xs : list (written * nat)).

Lemma c_string_chars l rest :
  NUL ∉ l → c_string (l ++ NUL :: rest) = Returns (string_of_list_ascii l).
Proof.
  intros Hl.
  rewrite <- (list_ascii_of_string_of_list_ascii l) at 1.
  apply c_string_text. by rewrite list_ascii_of_string_of_list_ascii.
Qed.

(** [eval] up to the test of [argv[0]], on a line that ends after its last
    argument. *)
Lemma eval_parses array buf l junk c lead xs :
  l ++ [" "%char] = line_chars lead xs →
  c ≠ NUL →
  (length l + 2 ≤ length array)%nat →
  (length l + 2 ≤ length buf)%nat →
  (length xs < MAXARGS)%nat →
  Forall well_written xs.*1 →
  ∃ rest args array',
    strcpy buf (l ++ c :: NUL :: junk) = Returns (l ++ c :: NUL :: rest) ∧
    parseline array (l ++ c :: NUL :: rest) = Returns (line_bg xs, args, array') ∧
    arg_strings array' args = Returns (line_args xs) ∧
    c_string (l ++ c :: NUL :: rest) = Returns (string_of_list_ascii (l ++ [c])).
Proof.
  intros Hline Hc Hlen Hbuf Hxs Hw.
  assert (NUL ∉ l) as Hl.
  { pose proof (line_chars_text xs lead Hw) as Hn. rewrite <- Hline in Hn.
    by apply not_elem_of_app in Hn as [Hn _]. }
  destruct (parseline_copy buf l c junk Hl Hc Hbuf) as (rest & Hcpy & _).
  destruct (parseline_words array l rest c lead xs Hline Hc Hlen Hxs Hw)
    as (args & array' & Hparse & Hargs).
  exists rest, args, array'. split_and!; try done.
  rewrite (cons_middle c), app_assoc. apply c_string_chars.
  apply not_elem_of_app. split; [done|].
  intros Heq%list_elem_of_singleton. by apply Hc.
Qed.

(** X23. [eval] of [tsh.c] on a line whose first argument is no built-in
    command, in the parent after [fork]: the job is added in state [BG]
    when the last argument of the line starts with [&] and in state [FG]
    otherwise, its command line is the line as it was read, with its last
    byte and with the [&], and the state that [eval] leaves is a step of the
    shell that starts a job. *)
Theorem eval_launches_job (SIGTSTP : Z) (array buf l junk : list ascii)
    (c : ascii) (lead : nat) (xs : list (written * nat))
    (name : string) (rest : list string) (p : Z) (s : shell_state) :
  l ++ [" "%char] = line_chars lead xs →
  c ≠ NUL →
  (length l + 2 ≤ length array)%nat →
  (length l + 2 ≤ length buf)%nat →
  (length xs < MAXARGS)%nat →
  Forall well_written xs.*1 →
  line_args xs = name :: rest →
  builtin_cmd name = not_builtin →
  0 < p →
  waiting s = None →
  ∃ array',
    eval array buf (l ++ c :: NUL :: junk) p (globals s)
    = Returns (eval_returns
                 (run_job tsh (globals s) p
                    (if background (line_words xs) then BG else FG)
                    (string_of_list_ascii (l ++ [c]))), array') ∧
    step SIGTSTP tsh s
      (run_job tsh (globals s) p
         (if background (line_words xs) then BG else FG)
         (string_of_list_ascii (l ++ [c]))).
Proof.
  intros Hline Hc Hlen Hbuf Hxs Hw Hargs Hname Hp Hwait.
  destruct (eval_parses array buf l junk c lead xs Hline Hc Hlen Hbuf Hxs Hw)
    as (rest' & args & array' & Hcpy & Hparse & Hstr & Htext).
  exists array'. split; [|by apply step_eval].
  unfold eval. rewrite Hcpy, Hparse, Hstr, Hargs, Hname, Htext.
  rewrite !bool_decide_eq_false_2 by lia.
  do 3 f_equal. unfold line_bg.
  assert (line_words xs ≠ []) as Hne.
  { intros Hnil. unfold line_args, background in Hargs. by rewrite Hnil in Hargs. }
  rewrite (bool_decide_eq_false_2 (line_words xs = [])) by done. simpl.
  by destruct (background (line_words xs)).
Qed.

Lemma eval_launches_job_witness :
  Forall well_written [Bare "/bin/ls"; Bare "-l"; Bare "&"] ∧
  ∃ array',
    eval (replicate 32 "x"%char) (replicate 32 "y"%char)
      (list_ascii_of_string "/bin/ls -l &" ++ "010"%char :: NUL :: [])
      100 (init_mem tsh false)
    = Returns (eval_returns
                 (run_job tsh (init_mem tsh false) 100 BG ("/bin/ls -l &" +:+ nl)),
               array') ∧
    step 20 tsh (init_state tsh false)
      (run_job tsh (init_mem tsh false) 100 BG ("/bin/ls -l &" +:+ nl)).
Proof.
  assert (Forall well_written [Bare "/bin/ls"; Bare "-l"; Bare "&"]) as Hw.
  { repeat apply Forall_cons_2; try apply Forall_nil_2;
      (split; [|try split_and!]); try done;
      apply (bool_decide_unpack _); reflexivity. }
  split; [exact Hw|].
  exact (eval_launches_job 20 (replicate 32 "x"%char) (replicate 32 "y"%char)
           (list_ascii_of_string "/bin/ls -l &") [] "010"%char 0
           [(Bare "/bin/ls", 0%nat); (Bare "-l", 0%nat); (Bare "&", 0%nat)]
           "/bin/ls" ["-l"] 100 (init_state tsh false)
           eq_refl ltac:(done) ltac:(simpl; lia) ltac:(simpl; lia)
           ltac:(unfold MAXARGS; simpl; lia) Hw eq_refl eq_refl
           ltac:(lia) eq_refl).
Defined.

(** X24. [eval] of [tsh.c] does nothing on a line that leaves no argument,
    which is a line of blanks and also a line whose only argument starts
    with [&], and on a line whose first argument is [&] and is followed by
    more: no process is made, nothing is printed, and the job list stays as
    it is. *)
Theorem eval_ignores_line (array buf l junk : list ascii) (c : ascii)
    (lead : nat) (xs : list (written * nat)) (p : Z) (g : mem) :
  l ++ [" "%char] = line_chars lead xs →
  c ≠ NUL →
  (length l + 2 ≤ length array)%nat →
  (length l + 2 ≤ length buf)%nat →
  (length xs < MAXARGS)%nat →
  Forall well_written xs.*1 →
  line_args xs = [] ∨ head (line_args xs) = Some "&" →
  ∃ array',
    eval array buf (l ++ c :: NUL :: junk) p g
    = Returns (eval_returns {| globals := g; waiting := None |}, array').
Proof.
  intros Hline Hc Hlen Hbuf Hxs Hw Hargs.
  destruct (eval_parses array buf l junk c lead xs Hline Hc Hlen Hbuf Hxs Hw)
    as (rest' & args & array' & Hcpy & Hparse & Hstr & Htext).
  exists array'. unfold eval. rewrite Hcpy, Hparse, Hstr.
  destruct Hargs as [-> | Hhd]; [done|].
  destruct (line_args xs) as [|name rest]; [done|].
  by simplify_eq/=.
Qed.

Lemma eval_ignores_line_witness :
  Forall well_written [Bare "&/bin/ls"] ∧
  ∃ array',
    eval (replicate 32 "x"%char) (replicate 32 "y"%char)
      (list_ascii_of_string "  &/bin/ls" ++ "010"%char :: NUL :: [])
      100 (init_mem tsh false)
    = Returns (eval_returns {| globals := init_mem tsh false; waiting := None |},
               array').
Proof.
  assert (Forall well_written [Bare "&/bin/ls"]) as Hw.
  { repeat apply Forall_cons_2; try apply Forall_nil_2;
      (split; [|try split_and!]); try done;
      apply (bool_decide_unpack _); reflexivity. }
  split; [exact Hw|].
  exact (eval_ignores_line (replicate 32 "x"%char) (replicate 32 "y"%char)
           (list_ascii_of_string "  &/bin/ls") [] "010"%char 2
           [(Bare "&/bin/ls", 0%nat)] 100 (init_mem tsh false)
           eq_refl ltac:(done) ltac:(simpl; lia) ltac:(simpl; lia)
           ltac:(unfold MAXARGS; simpl; lia) Hw (or_introl eq_refl)).
Defined.

End eval_facts.
